(** * reconcile: identity matchers, hashing and the parallel diff

    A shallow embedding of [internal/identity] (pattern matchers, [Spans],
    [Equal], [Hash], [HashAll], the claim bitset) and of [pkg/files]
    ([diffP], [Diff], [Result]) together with the properties of the
    specification that are checked against them.

    Conventions of the embedding.
    - A Go [string] / [[]byte] is a [list ascii]; an [ascii] is one byte.
    - Go's [int] is modelled by [Z].  Every [int] computed by the code is
      bounded by the lengths of the inputs plus the worker count, which
      stay far below [2^63] for slices that can be allocated, so no
      64-bit wrap-around occurs; [uint8], [uint32] and [uint64]
      arithmetic is written with its wrap-around.
    - A run-time panic (index out of range, division by zero, [make] with
      a negative length) is [None]; every function that can panic in Go
      returns an [option].  Memory is not bounded: an allocation fails
      only when its length is negative.  The runtime also refuses a
      length beyond its allocation limit, which only a worker count can
      reach here, the other lengths being those of the inputs; a result
      that the program returns is the result of the model, and the
      property that tells when [diffP] returns is stated for worker
      counts below [2^32], which stay within that limit.
    - Loops that count an index down are structural recursions on the
      number of remaining indices, so every definition is total. *)

From Stdlib Require Import ZArith Ascii String List Lia Bool Sorted.
From stdpp Require Import base option list gmap.

Local Open Scope string_scope.
Local Open Scope list_scope.
Local Open Scope stdpp_scope.
Local Open Scope Z_scope.

(** ** Bytes and slices *)

Abbreviation bytes := (list ascii).

Definition bytes_of (s : string) : bytes := list_ascii_of_string s.

(** Numeric value of a byte, in [0, 256). *)
Definition bv (c : ascii) : Z := Z.of_N (N_of_ascii c).

Definition len {A} (l : list A) : Z := Z.of_nat (length l).

(** [l[i]] with Go's bounds check. *)
Definition idx {A} (l : list A) (i : Z) : option A :=
  if (0 <=? i) && (i <? len l) then l !! Z.to_nat i else None.

(** [l[lo:hi]] with Go's bounds check [0 <= lo <= hi <= len(l)]. *)
Definition slice {A} (l : list A) (lo hi : Z) : option (list A) :=
  if (0 <=? lo) && (lo <=? hi) && (hi <=? len l)
  then Some (take (Z.to_nat (hi - lo)) (drop (Z.to_nat lo) l))
  else None.

(** Short-circuit conjunction of two fallible tests: the right operand is
    evaluated only when the left one is true. *)
Definition andM (a b : option bool) : option bool :=
  match a with
  | Some true => b
  | Some false => Some false
  | None => None
  end.

Infix "&&&" := andM (at level 40, left associativity).

(** [if c { t } else { e }] for a fallible condition. *)
Definition ifM {A} (c : option bool) (t e : option A) : option A :=
  match c with
  | Some true => t
  | Some false => e
  | None => None
  end.

(** [bs[i] == ch] *)
Definition byte_is (bs : bytes) (i : Z) (ch : ascii) : option bool :=
  c ← idx bs i; Some (Ascii.eqb c ch).

(** [c - '0' < 10] on [uint8]. *)
Definition is_digit (c : ascii) : bool := (bv c - 48) mod 256 <? 10.

(** [(c|32) - 'a' < 26] on [uint8]. *)
Definition is_letter (c : ascii) : bool := (Z.lor (bv c) 32 - 97) mod 256 <? 26.

(** [bs[i]-'0' < 10] *)
Definition digit_at (bs : bytes) (i : Z) : option bool :=
  c ← idx bs i; Some (is_digit c).

(** [for i := lo+n-1; i >= lo; i-- { if p(i) { return i } }]: the first
    index, scanning downwards, at which [p] holds. *)
Fixpoint scan_down (p : Z → option bool) (lo : Z) (n : nat) : option (option Z) :=
  match n with
  | O => Some None
  | S n' =>
      let i := lo + Z.of_nat n' in
      match p i with
      | Some true => Some (Some i)
      | Some false => scan_down p lo n'
      | None => None
      end
  end.

(** ** Pattern matchers (identity.go) *)

Definition soname_at (bs : bytes) (i : Z) : option bool :=
  byte_is bs i "." &&& digit_at bs (i + 1) &&& byte_is bs (i - 1) "o"
    &&& byte_is bs (i - 2) "s" &&& byte_is bs (i - 3) ".".

Definition Soname (bs : bytes) : option Z :=
  let length := len bs in
  (* for i := length - 2; i >= 3; i-- *)
  r ← scan_down (soname_at bs) 3 (Z.to_nat (length - 2 - 3 + 1));
  match r with
  | Some i => Some i
  | None => Some 0
  end.

(** The pattern of Soname as the specification words it: [bs[i]] is a
    dot, [bs[i+1]] an ASCII digit, and [bs[i-3..i-1]] spell [.so]. *)
Definition soname_pattern (bs : bytes) (i : Z) : Prop :=
  bs !! Z.to_nat i = Some "."%char ∧
  (∃ d, bs !! Z.to_nat (i + 1) = Some d ∧ 48 <= bv d <= 57) ∧
  bs !! Z.to_nat (i - 1) = Some "o"%char ∧
  bs !! Z.to_nat (i - 2) = Some "s"%char ∧
  bs !! Z.to_nat (i - 3) = Some "."%char.

(** The result the specification prescribes: the first index met when
    scanning from [len - 2] down to [3] at which the pattern holds, and
    [0] when there is none. *)
Definition Soname_spec (bs : bytes) (r : Z) : Prop :=
  (3 <= r <= len bs - 2 ∧ soname_pattern bs r ∧
   ∀ j, r < j <= len bs - 2 → ¬ soname_pattern bs j)
  ∨ (r = 0 ∧ ∀ j, 3 <= j <= len bs - 2 → ¬ soname_pattern bs j).

(** The backward scan of [Embedded] over the version run:
    [for i >= 0 && (bs[i]-'0' < 10 || bs[i] == '.') { if bs[i] == '.' { dots++ }; i-- }]
    started at [i = n - 1]; returns the final [(i, dots)]. *)
Fixpoint version_run (bs : bytes) (n : nat) (dots : Z) : option (Z * Z) :=
  match n with
  | O => Some (-1, dots)
  | S n' =>
      let i := Z.of_nat n' in
      c ← idx bs i;
      if is_digit c || Ascii.eqb c "."
      then version_run bs n' (if Ascii.eqb c "." then dots + 1 else dots)
      else Some (i, dots)
  end.

Definition Embedded (bs : bytes) : option (Z * Z) :=
  let length := len bs in
  if length <? 9 then Some (0, 0) else
  (* for i := length - 1; i > 0; i-- { if bs[i] == '.' { ext = i; break } } *)
  r ← scan_down (λ i, byte_is bs i ".") 1 (Z.to_nat (length - 1 - 1 + 1));
  let ext := match r with Some i => i | None => -1 end in
  if (ext <? 6) || (ext =? length - 1) then Some (0, 0) else
  '(i, dots) ← version_run bs (Z.to_nat (ext - 1 + 1)) 0;
  ifM (Some (2 <=? dots) &&& Some (0 <=? i) &&& byte_is bs (i + 1) "."
         &&& digit_at bs (i + 2))
    (Some (i + 1, ext))
    (Some (0, 0)).

Definition suffixes : list bytes :=
  [ bytes_of ".post-deinstall"; bytes_of ".post-install";
    bytes_of ".post-upgrade"; bytes_of ".pre-install";
    bytes_of ".pre-upgrade"; bytes_of ".trigger" ].

(** [for _, suffix := range suffixes { if length > len(suffix) &&
    string(bs[length-len(suffix):]) == suffix { start = ...; break } }],
    with [start := 0] before the loop. *)
Fixpoint script_start (bs : bytes) (sufs : list bytes) : option Z :=
  match sufs with
  | [] => Some 0
  | suffix :: rest =>
      let length := len bs in
      ifM (Some (len suffix <? length) &&&
             (tl ← slice bs (length - len suffix) length;
              Some (bool_decide (tl = suffix))))
        (Some (length - len suffix))
        (script_start bs rest)
  end.

Definition checksum_at (bs : bytes) (i : Z) : option bool :=
  byte_is bs i "." &&& Some (i + 2 <? len bs) &&& byte_is bs (i + 1) "Q"
    &&& byte_is bs (i + 2) "1".

Definition version_at (bs : bytes) (checksumStart i : Z) : option bool :=
  byte_is bs i "-" &&& Some (i + 1 <? checksumStart) &&& digit_at bs (i + 1).

Definition Script (bs : bytes) : option (Z * Z) :=
  let length := len bs in
  if length <? 20 then Some (0, 0) else
  start ← script_start bs suffixes;
  if start =? 0 then Some (0, 0) else
  (* for i := start - 2; i >= 4; i-- *)
  r ← scan_down (checksum_at bs) 4 (Z.to_nat (start - 2 - 4 + 1));
  let checksumStart := match r with Some i => i | None => -1 end in
  if checksumStart <? 0 then Some (0, 0) else
  (* for i := checksumStart - 1; i >= 1; i-- *)
  r ← scan_down (version_at bs checksumStart) 1 (Z.to_nat (checksumStart - 1 - 1 + 1));
  match r with
  | Some i => Some (i, start)
  | None => Some (0, 0)
  end.

(** [for i >= 0 && bs[i]-'0' < 10 { i-- }] started at [i = n - 1];
    returns the final [i]. *)
Fixpoint skip_digits (bs : bytes) (n : nat) : option Z :=
  match n with
  | O => Some (-1)
  | S n' =>
      let i := Z.of_nat n' in
      ifM (digit_at bs i) (skip_digits bs n') (Some i)
  end.

(** [c-'0' < 10 || c == '.' || c == '-' || c == '+' || (c|32)-'a' < 26] *)
Definition version_char (c : ascii) : bool :=
  is_digit c || Ascii.eqb c "." || Ascii.eqb c "-" || Ascii.eqb c "+"
    || is_letter c.

(** The final loop of [Suffix], started at [i = n - 1]; leaving the loop
    (by [break] or because [i < 0]) returns 0. *)
Fixpoint suffix_scan (bs : bytes) (n : nat) : option Z :=
  match n with
  | O => Some 0
  | S n' =>
      let i := Z.of_nat n' in
      c ← idx bs i;
      ifM (Some (Ascii.eqb c "-") &&& Some (i + 1 <? len bs) &&& digit_at bs (i + 1))
        (Some i)
        (if version_char c then suffix_scan bs n' else Some 0)
  end.

Definition Suffix (bs : bytes) : option Z :=
  let length := len bs in
  let i := length - 1 in
  i ← ifM (Some (2 <? i) &&& digit_at bs i)
        (i ← skip_digits bs (Z.to_nat (i + 1));
         ifM (Some (0 <? i) &&& byte_is bs i "r" &&& byte_is bs (i - 1) "-")
           (Some (i - 2))
           (Some i))
        (Some i);
  suffix_scan bs (Z.to_nat (i + 1)).

(** ** Spans and Equal *)

Definition Spans (bs : bytes) : option (Z * Z * Z) :=
  let length := len bs in
  r ← Soname bs;
  if 0 <? r then Some (r, 0, 0) else
  '(r1, r2) ← Script bs;
  if 0 <? r1 then Some (r1, r2, length) else
  '(r1, r2) ← Embedded bs;
  if 0 <? r1 then Some (r1, r2, length) else
  r1 ← Suffix bs;
  if 0 <? r1 then Some (r1, 0, 0) else
  Some (length, 0, 0).

Definition Equal (old cur : bytes) : option bool :=
  '(oj, os, oe) ← Spans old;
  '(cj, cs, ce) ← Spans cur;
  if negb (oj =? cj) || negb (oe - os =? ce - cs) then Some false else
  (a ← slice old 0 oj; b ← slice cur 0 cj; Some (bool_decide (a = b)))
    &&& (a ← slice old os oe; b ← slice cur cs ce; Some (bool_decide (a = b))).

(** ** Hashing (hash.go)

    [maphash.Bytes] belongs to the Go standard library; it is a parameter
    of the development, as is the type of its seeds.  Its [uint64] result
    is reduced modulo [2^64]. *)

Definition ExactFlag : Z := Z.shiftl 1 63.

Section Hashing.

Variable Seed : Type.
Variable maphash_Bytes : Seed → bytes → Z.

Definition hash64 (seed : Seed) (bs : bytes) : Z := maphash_Bytes seed bs mod 2 ^ 64.

(** [x &^ ExactFlag] *)
Definition clear_flag (x : Z) : Z := Z.ldiff x ExactFlag.

Definition Hash (s : bytes) (seed : Seed) : option (Z * Z) :=
  let bs := s in
  let length := len bs in
  let exact := clear_flag (hash64 seed bs) in
  if length =? 0 then Some (exact, exact) else
  i ← Soname bs;
  if 0 <? i then
    p ← slice bs 0 i; Some (clear_flag (hash64 seed p), exact)
  else
  '(i, j) ← Script bs;
  if 0 <? i then
    p ← slice bs 0 i; q ← slice bs j length;
    Some (clear_flag (Z.lxor (hash64 seed p) (hash64 seed q)), exact)
  else
  '(i, j) ← Embedded bs;
  if 0 <? i then
    p ← slice bs 0 i; q ← slice bs j length;
    Some (clear_flag (Z.lxor (hash64 seed p) (hash64 seed q)), exact)
  else
  i ← Suffix bs;
  if 0 <? i then
    p ← slice bs 0 i; Some (clear_flag (hash64 seed p), exact)
  else
  Some (exact, exact).

(** The identity hash computed from the spans of a name. *)
Definition span_hash (seed : Seed) (p q : bytes) (two : bool) : Z :=
  if two then clear_flag (Z.lxor (hash64 seed p) (hash64 seed q))
  else clear_flag (hash64 seed p).

End Hashing.

(** ** Fixed-width integers and Go's built-ins *)

Definition u32 (x : Z) : Z := x mod 2 ^ 32.
Definition u64 (x : Z) : Z := x mod 2 ^ 64.

(** [a / b] on [int]: truncated division, a panic when [b = 0]. *)
Definition go_div (a b : Z) : option Z :=
  if b =? 0 then None else Some (Z.quot a b).

(** [make([]T, n)] filled with the zero value [x]: a panic when [n < 0].
    The panic of the runtime on a length that is too large to allocate is
    not part of the model (see the conventions above). *)
Definition make {A} (n : Z) (x : A) : option (list A) :=
  if n <? 0 then None else Some (replicate (Z.to_nat n) x).

(** [l[i] = x] with Go's bounds check. *)
Definition assign {A} (l : list A) (i : Z) (x : A) : option (list A) :=
  if (0 <=? i) && (i <? len l) then Some (<[Z.to_nat i := x]> l) else None.

Fixpoint foldM {S X} (f : S → X → option S) (s : S) (l : list X) : option S :=
  match l with
  | [] => Some s
  | x :: l' => s' ← f s x; foldM f s' l'
  end.

(** ** Claim bitset (bitset.go)

    A compare-and-swap loop takes effect at one instant: the load that
    sees the bit already set, or the swap that succeeds.  [TryMark] is
    modelled at that instant. *)

Definition TryMark (v : list Z) (j : Z) : option (bool * list Z) :=
  let i := Z.shiftr j 6 in
  let bit := u64 (Z.shiftl 1 (Z.land j 63)) in
  old ← idx v i;
  if negb (Z.land old bit =? 0) then Some (false, v)
  else v' ← assign v i (Z.lor old bit); Some (true, v').

Definition IsMarked (v : list Z) (j : Z) : option bool :=
  w ← idx v (Z.shiftr j 6);
  Some (negb (Z.land w (u64 (Z.shiftl 1 (Z.land j 63))) =? 0)).

(** ** Result (result.go) *)

Inductive Status := Unchanged | Updated | Removed | Added.

(** The ordinal of a status, as [iota] assigns it. *)
Definition ord (s : Status) : Z :=
  match s with
  | Unchanged => 0
  | Updated => 1
  | Removed => 2
  | Added => 3
  end.

(** The Go field [Status] of [Entry] is [EStatus] here, [Status] being the
    name of the enumeration. *)
Record Entry := { Old : Z; New : Z; EStatus : Z }.

(** [C] is the array of the four atomic counters. *)
Record Result := { E : list Entry; C : list Z }.

Definition Count (r : Result) (s : Status) : option Z := idx (C r) (ord s).

(** The entries that [All] yields, each with its decoded status, when the
    consumer does not stop the iteration. *)
Definition All (r : Result) : list (Z * Entry) :=
  map (λ e, (Z.land (EStatus e) 255, e)) (E r).

(** The entries that [Filter] yields when the consumer does not stop. *)
Definition Filter (r : Result) (s : Status) : list Entry :=
  filter (λ e, Z.land (EStatus e) 255 = ord s) (E r).

(** ** Fork and join

    Every parallel phase has the same shape: the index range
    [0, total) is cut into chunks, one goroutine is started per chunk,
    each goroutine walks its chunk upwards, and [wg.Wait] joins them.
    A [task] is the range [next, high) that a goroutine has still to
    walk. *)

Abbreviation task := (Z * Z)%type.

(** [for worker := range workers { low := worker * chunk;
      if low >= total { break }; high := min(low+chunk, total); wg.Go(...) }]
    for the [n] worker ids from [worker] on. *)
Fixpoint spawn (n : nat) (worker chunk total : Z) : list task :=
  match n with
  | O => []
  | S n' =>
      let low := worker * chunk in
      if total <=? low then []
      else (low, Z.min (low + chunk) total) :: spawn n' (worker + 1) chunk total
  end.

Definition zrange (lo hi : Z) : list Z :=
  map (λ k, lo + Z.of_nat k) (seq 0 (Z.to_nat (hi - lo))).

(** What is left to run at the join, goroutine after goroutine. *)
Fixpoint drain (w : nat) (ts : list task) : list (nat * Z) :=
  match ts with
  | [] => []
  | (next, high) :: ts' => map (λ i, (w, i)) (zrange next high) ++ drain (S w) ts'
  end.

(** A schedule is the sequence of goroutine ids in the order in which the
    scheduler lets them run one iteration; a goroutine that is named but
    has finished (or was never started) does nothing.  When the schedule
    is used up the join lets every goroutine finish.  The result is the
    sequence of (goroutine, index) iterations in the order they run. *)
Fixpoint interleave (sched : list nat) (ts : list task) : list (nat * Z) :=
  match sched with
  | [] => drain 0 ts
  | w :: sched' =>
      match ts !! w with
      | Some (next, high) =>
          if next <? high
          then (w, next) :: interleave sched' (<[w := (next + 1, high)]> ts)
          else interleave sched' ts
      | None => interleave sched' ts
      end
  end.

(** Run the loop body of every goroutine in the order of the schedule. *)
Definition go_par {S} (sched : list nat) (ts : list task)
    (body : nat → Z → S → option S) (s : S) : option S :=
  foldM (λ s wi, body wi.1 wi.2 s) s (interleave sched ts).

Definition null : Z := 0xFFFFFFFF.
Definition shardBits : Z := 8.
Definition numShards : Z := Z.shiftl 1 shardBits.
Definition shardMask : Z := numShards - 1.

Section Reconcile.

Variable Seed : Type.
Variable maphash_Bytes : Seed → bytes → Z.

(** The package-level [seed] of diff.go. *)
Variable seed : Seed.

(** ** HashAll (hash.go)

    The goroutines write disjoint indices of the two result slices, so
    the order in which they run is immaterial; they are run one after the
    other. *)

Definition hash_one (files : list bytes) (s : Seed) (_ : nat) (i : Z)
    (out : list Z * list Z) : option (list Z * list Z) :=
  f ← idx files i;
  '(h, x) ← Hash Seed maphash_Bytes f s;
  idMatch ← assign out.1 i h;
  exMatch ← assign out.2 i x;
  Some (idMatch, exMatch).

Definition HashAll (files : list bytes) (workers : Z) (s : Seed)
    : option (list Z * list Z) :=
  let length := len files in
  if length =? 0 then Some ([], []) else
  idMatch ← make length 0;
  exMatch ← make length 0;
  q ← go_div (length + workers - 1) workers;
  let chunk := Z.max 1 q in
  go_par [] (spawn (Z.to_nat workers) 0 chunk length) (hash_one files s)
    (idMatch, exMatch).

(** ** diffP (diff.go) *)

(** Phase 2, one iteration: the two writes to the shard of [cur[i]],
    made under the lock of that shard. *)
Definition populate (curHashes curEntries : list Z) (_ : nat) (i : Z)
    (shards : list (gmap Z Z)) : option (list (gmap Z Z)) :=
  h ← idx curHashes i;
  let sh := Z.land h shardMask in
  m ← idx shards sh;
  let fileIdx := u32 i in
  let idKey := h in
  x ← idx curEntries i;
  let exKey := Z.lor x ExactFlag in
  let m := match m !! idKey with
           | Some _ => m
           | None => <[idKey := fileIdx]> m
           end in
  let m := <[exKey := fileIdx]> m in
  assign shards sh m.

(** The state of phase 3: the claim bitset, and for every goroutine its
    [entries] buffer and its [status] counters (stored in [results] and
    [counts] when the goroutine ends). *)
Abbreviation phase3 := (list Z * list (list Entry) * list (list Z))%type.

(** [entries = append(entries, e); status[s]++] in goroutine [w]. *)
Definition emit (w : nat) (e : Entry) (s : Status) (matches : list Z)
    (results : list (list Entry)) (counts : list (list Z)) : option phase3 :=
  entries ← results !! w;
  status ← counts !! w;
  c ← idx status (ord s);
  status ← assign status (ord s) (u32 (c + 1));
  Some (matches, <[w := entries ++ [e]]> results, <[w := status]> counts).

(** The exact probe: [old[i] == cur[exMatch] && TryMark(matches, exMatch)]. *)
Definition probe_exact (old cur : list bytes) (m : gmap Z Z) (exKey i : Z)
    (matches : list Z) : option (option (Z * list Z)) :=
  match m !! exKey with
  | Some exMatch =>
      o ← idx old i;
      c ← idx cur exMatch;
      if bool_decide (o = c) then
        '(ok, v) ← TryMark matches exMatch;
        Some (if ok : bool then Some (exMatch, v) else None)
      else Some None
  | None => Some None
  end.

(** The identity probe: [!IsMarked(matches, idMatch) &&
    Equal(old[i], cur[idMatch]) && TryMark(matches, idMatch)]. *)
Definition probe_identity (old cur : list bytes) (m : gmap Z Z) (idKey i : Z)
    (matches : list Z) : option (option (Z * list Z)) :=
  match m !! idKey with
  | Some idMatch =>
      marked ← IsMarked matches idMatch;
      if marked : bool then Some None else
      o ← idx old i;
      c ← idx cur idMatch;
      eq ← Equal o c;
      if eq : bool then
        '(ok, v) ← TryMark matches idMatch;
        Some (if ok : bool then Some (idMatch, v) else None)
      else Some None
  | None => Some None
  end.

(** Phase 3, the classification of [old[i]]: the entry to append, the
    counter to bump and the bitset after the probes. *)
Definition classify (old cur : list bytes) (oldHashes oldEntries : list Z)
    (shards : list (gmap Z Z)) (i : Z) (matches : list Z)
    : option (Entry * Status * list Z) :=
  let fileIdx := u32 i in
  h ← idx oldHashes i;
  m ← idx shards (Z.land h shardMask);
  x ← idx oldEntries i;
  exact ← probe_exact old cur m (Z.lor x ExactFlag) i matches;
  match exact with
  | Some (exMatch, v) =>
      Some ({| Old := fileIdx; New := exMatch; EStatus := ord Unchanged |}, Unchanged, v)
  | None =>
      ident ← probe_identity old cur m h i matches;
      match ident with
      | Some (idMatch, v) =>
          Some ({| Old := fileIdx; New := idMatch; EStatus := ord Updated |}, Updated, v)
      | None =>
          Some ({| Old := fileIdx; New := null; EStatus := ord Removed |}, Removed, matches)
      end
  end.

(** Phase 3, one iteration of goroutine [w].  Bits of the claim bitset
    are only ever set, so a bitset operation that finds a bit set would
    find it set at any later instant too; an iteration therefore has the
    same outcome as if all its bitset operations happened at the instant
    of the last one, and iterations are interleaved as wholes. *)
Definition reconcile (old cur : list bytes) (oldHashes oldEntries : list Z)
    (shards : list (gmap Z Z)) (w : nat) (i : Z) (st : phase3) : option phase3 :=
  let '(matches, results, counts) := st in
  '(e, s, v) ← classify old cur oldHashes oldEntries shards i matches;
  emit w e s v results counts.

(** Phase 4, one iteration. *)
Definition detect (matches : list Z) (w : nat) (i : Z)
    (additions : list (list Entry)) : option (list (list Entry)) :=
  let fileIdx := u32 i in
  marked ← IsMarked matches fileIdx;
  if marked : bool then Some additions else
  entries ← additions !! w;
  Some (<[w := entries ++ [{| Old := null; New := fileIdx; EStatus := ord Added |}]]> additions).

(** [for status := range 3 { result.C[status].Add(counts[worker][status]) }] *)
Definition add_counts (C status : list Z) : option (list Z) :=
  foldM (λ C s, c ← idx C s; d ← idx status s; assign C s (u32 (c + d))) C [0; 1; 2].

(** Phase 5, first loop: [for worker, entries := range results]. *)
Fixpoint merge_results (r : Result) (results : list (list Entry))
    (counts : list (list Z)) (worker : Z) : option Result :=
  match results with
  | [] => Some r
  | entries :: results' =>
      status ← idx counts worker;
      C' ← add_counts (C r) status;
      merge_results {| E := E r ++ entries; C := C' |} results' counts (worker + 1)
  end.

(** Phase 5, second loop: [for _, entries := range additions]. *)
Fixpoint merge_additions (r : Result) (additions : list (list Entry)) : option Result :=
  match additions with
  | [] => Some r
  | entries :: additions' =>
      c ← idx (C r) (ord Added);
      C' ← assign (C r) (ord Added) (u32 (c + u32 (len entries)));
      merge_additions {| E := E r ++ entries; C := C' |} additions'
  end.

(** [sched2] and [sched3] are the schedules of phases 2 and 3; phase 4
    only reads shared state and is run goroutine after goroutine.  The
    capacities that the code computes ([expected], [total] and the
    capacity arguments of [make]) have no effect on the result and are
    left out. *)
Definition diffP (old cur : list bytes) (workers : Z) (sched2 sched3 : list nat)
    : option Result :=
  let oldFiles := len old in
  let newFiles := len cur in
  if Z.lor oldFiles newFiles =? 0 then Some {| E := []; C := [0; 0; 0; 0] |} else
  '(oldHashes, oldEntries) ← HashAll old workers seed;
  '(curHashes, curEntries) ← HashAll cur workers seed;
  shards ← make numShards (∅ : gmap Z Z);
  q ← go_div (newFiles + workers - 1) workers;
  let chunk := Z.max 1 q in
  shards ← go_par sched2 (spawn (Z.to_nat workers) 0 chunk newFiles)
              (populate curHashes curEntries) shards;
  matches ← make (Z.shiftr (newFiles + 63) 6) 0;
  results ← make workers ([] : list Entry);
  counts ← make workers [0; 0; 0];
  q ← go_div (newFiles + workers - 1) workers;
  let chunk := Z.max 1 q in
  '(matches, results, counts) ←
     go_par sched3 (spawn (Z.to_nat workers) 0 chunk oldFiles)
       (reconcile old cur oldHashes oldEntries shards) (matches, results, counts);
  additions ← make workers ([] : list Entry);
  q ← go_div (newFiles + workers - 1) workers;
  let chunk := Z.max 1 q in
  additions ← go_par [] (spawn (Z.to_nat workers) 0 chunk newFiles)
                 (detect matches) additions;
  r ← merge_results {| E := []; C := [0; 0; 0; 0] |} results counts 0;
  merge_additions r additions.

(** [Diff], with the value of [runtime.GOMAXPROCS(0)] as a parameter. *)
Definition Diff (gomaxprocs : Z) (old cur : list bytes) (sched2 sched3 : list nat)
    : option Result :=
  diffP old cur (Z.max 1 gomaxprocs) sched2 sched3.

End Reconcile.

(** A concrete hash function (FNV-1a over the bytes, started from the
    seed), used to run the definitions on examples. *)
Definition fnv1a (seed : Z) (bs : bytes) : Z :=
  fold_left (λ h c, (Z.lxor h (bv c) * 1099511628211) mod 2 ^ 64) bs
    ((14695981039346656037 + seed) mod 2 ^ 64).

Definition names (l : list string) : list bytes := map bytes_of l.

(** ** Notions used to state the properties *)

(** The indices that goroutine [w] runs in a trace, in the order it runs
    them. *)
Definition run_of (w : nat) (tr : list (nat * Z)) : list Z :=
  (filter (λ p, p.1 = w) tr).*2.

(** The range of a task that exists, the empty list otherwise. *)
Definition task_range (t : option task) : list Z :=
  match t with
  | Some (next, high) => zrange next high
  | None => []
  end.

(** The two hashes of a name, as [Hash] returns them. *)
Definition ex_hash (Seed : Type) (maphash_Bytes : Seed → bytes → Z) (seed : Seed)
    (f : bytes) : Z :=
  clear_flag (hash64 Seed maphash_Bytes seed f).

Definition id_hash (Seed : Type) (maphash_Bytes : Seed → bytes → Z) (seed : Seed)
    (f : bytes) : Z :=
  match Hash Seed maphash_Bytes f seed with
  | Some (h, _) => h
  | None => 0
  end.

(** Bit [j] of the claim bitset. *)
Definition marked (v : list Z) (j : Z) : bool :=
  match v !! Z.to_nat (j / 64) with
  | Some w => Z.testbit w (j mod 64)
  | None => false
  end.

Section Tables.

Variable Seed : Type.
Variable maphash_Bytes : Seed → bytes → Z.
Variable seed : Seed.

(** The shard in which a name is filed, and its two keys. *)
Definition shard_of (c : bytes) : Z := Z.land (id_hash Seed maphash_Bytes seed c) shardMask.
Definition id_key (c : bytes) : Z := id_hash Seed maphash_Bytes seed c.
Definition ex_key (c : bytes) : Z := Z.lor (ex_hash Seed maphash_Bytes seed c) ExactFlag.

(** Every value stored in the table is the index of a name of [cur],
    stored in the shard of that name under one of its two keys. *)
Definition table_ok (cur : list bytes) (shards : list (gmap Z Z)) : Prop :=
  length shards = 256%nat ∧
  ∀ (k : nat) m key v, shards !! k = Some m → m !! key = Some v →
    ∃ c, idx cur v = Some c ∧ shard_of c = Z.of_nat k ∧ (key = id_key c ∨ key = ex_key c).

(** The exact key of [c] is present in its shard. *)
Definition has_exact (shards : list (gmap Z Z)) (c : bytes) : Prop :=
  ∃ m, shards !! Z.to_nat (shard_of c) = Some m ∧ is_Some (m !! ex_key c).

End Tables.

(** What an entry of phase 3 says about the two lists. *)
Definition entry_ok (old cur : list bytes) (e : Entry) : Prop :=
  (EStatus e = ord Unchanged ∧
     ∃ o, idx old (Old e) = Some o ∧ idx cur (New e) = Some o) ∨
  (EStatus e = ord Updated ∧
     ∃ o c, idx old (Old e) = Some o ∧ idx cur (New e) = Some c ∧ Equal o c = Some true) ∨
  (EStatus e = ord Removed ∧ New e = null).

(** The number of entries whose decoded status is [s]. *)
Definition tally (s : Z) (es : list Entry) : Z :=
  len (filter (λ e, Z.land (EStatus e) 255 = s) es).

(** The [status] counters of a goroutine agree with its [entries]. *)
Definition worker_ok (es : list Entry) (c : list Z) : Prop :=
  c = [u32 (tally 0 es); u32 (tally 1 es); u32 (tally 2 es)].

(** The entry that phase 4 appends for the index [i] of [cur]. *)
Definition added_entry (i : Z) : Entry :=
  {| Old := null; New := i; EStatus := ord Added |}.

(** The indices of a list that are not claimed in the bitset [v]. *)
Definition unclaimed (v : list Z) (l : list Z) : list Z :=
  filter (λ i, marked v i = false) l.

(** The chunk size of phases 2 to 4, [max(1, (newFiles+workers-1)/workers)]. *)
Definition chunk_of (newFiles workers : Z) : Z :=
  Z.max 1 ((newFiles + workers - 1) / workers).

(** The tasks of phase 3 and of phase 4. *)
Definition tasks3 (old cur : list bytes) (workers : Z) : list task :=
  spawn (Z.to_nat workers) 0 (chunk_of (len cur) workers) (len old).

Definition tasks4 (cur : list bytes) (workers : Z) : list task :=
  spawn (Z.to_nat workers) 0 (chunk_of (len cur) workers) (len cur).

(** The number of indices of [old] that the tasks of phase 3 reach. *)
Definition visited (old cur : list bytes) (workers : Z) : Z :=
  Z.min (len old) (workers * chunk_of (len cur) workers).

(** ** Inputs on which the theorems are instantiated *)

Definition basic_old : list bytes := names ["lib.so.1"; "bin/foo"; "doc.md"; "old.txt"].
Definition basic_cur : list bytes := names ["lib.so.2"; "bin/foo"; "doc.md"; "new.txt"].

Definition distinct_old : list bytes := names ["a.txt"; "lib.so.1"].
Definition distinct_cur : list bytes := names ["b.txt"; "app-1.0.0-r5"].
Definition same_names : list bytes := names ["a.txt"; "lib.so.1"; "app-1.0.0-r5"].

(** ** Inputs for the further properties *)

Definition two_words : list Z := [0; 0].
Definition three_libs : list bytes := names ["libfoo.so.1"; "libbar.so.2"; "libbaz.so.3"].

(** The indices of [cur] that a list of entries refers to: the [New]
    field of every entry that is not Removed. *)
Definition cur_indices (es : list Entry) : list Z :=
  New <$> filter (λ e, EStatus e ≠ ord Removed) es.

(** ** The iterators of [Result] as push functions (result.go)

    [All] and [Filter] return a function that pushes the entries to a
    callback [yield] and returns as soon as the callback returns false.
    The effect of the callback is a state of type [S] that it updates. *)

(** [for _, e := range r.E { if !yield(Status(e.Status&0xFF), e) { return } }] *)
Fixpoint range_All {S} (yield : Z → Entry → S → S * bool) (es : list Entry) (s : S) : S :=
  match es with
  | [] => s
  | e :: es' =>
      let '(s', more) := yield (Z.land (EStatus e) 255) e s in
      if more : bool then range_All yield es' s' else s'
  end.

Definition All_seq {S} (r : Result) (yield : Z → Entry → S → S * bool) (s : S) : S :=
  range_All yield (E r) s.

(** [for _, e := range r.E { if Status(e.Status&0xFF) == s { if !yield(e) { return } } }] *)
Fixpoint range_Filter {S} (st : Status) (yield : Entry → S → S * bool)
    (es : list Entry) (s : S) : S :=
  match es with
  | [] => s
  | e :: es' =>
      if decide (Z.land (EStatus e) 255 = ord st) then
        let '(s', more) := yield e s in
        if more : bool then range_Filter st yield es' s' else s'
      else range_Filter st yield es' s
  end.

Definition Filter_seq {S} (r : Result) (st : Status) (yield : Entry → S → S * bool)
    (s : S) : S :=
  range_Filter st yield (E r) s.

(** A callback that records what it is given and goes on while [keep]
    holds of it. *)
Definition record_while {X} (keep : X → bool) (x : X) (log : list X) : list X * bool :=
  (log ++ [x], keep x).

(** What a recording callback has seen of [xs] when the iteration ends:
    the elements up to and including the first one it stops at. *)
Fixpoint seen {X} (keep : X → bool) (xs : list X) : list X :=
  match xs with
  | [] => []
  | x :: xs' => x :: (if keep x then seen keep xs' else [])
  end.

(** ** Notions used to state which write of phase 2 a key keeps *)

(** [j] is the first (the last) element of [l] that satisfies [P]. *)
Definition first_with (P : Z → Prop) (l : list Z) (j : Z) : Prop :=
  ∃ pre post, l = pre ++ j :: post ∧ P j ∧ ∀ j', j' ∈ pre → ¬ P j'.

Definition last_with (P : Z → Prop) (l : list Z) (j : Z) : Prop :=
  ∃ pre post, l = pre ++ j :: post ∧ P j ∧ ∀ j', j' ∈ post → ¬ P j'.

Section Writers.

Variable Seed : Type.
Variable maphash_Bytes : Seed → bytes → Z.
Variable seed : Seed.

(** [cur[j]] is written under the identity key of [c]. *)
Definition writes_id (cur : list bytes) (c : bytes) (j : Z) : Prop :=
  ∃ cj, idx cur j = Some cj ∧
        id_key Seed maphash_Bytes seed cj = id_key Seed maphash_Bytes seed c.

(** [cur[j]] is written under the exact key of [c], in the shard of [c]. *)
Definition writes_ex (cur : list bytes) (c : bytes) (j : Z) : Prop :=
  ∃ cj, idx cur j = Some cj ∧
        shard_of Seed maphash_Bytes seed cj = shard_of Seed maphash_Bytes seed c ∧
        ex_key Seed maphash_Bytes seed cj = ex_key Seed maphash_Bytes seed c.

End Writers.

(** ** splitNonEmpty (fuzz_test.go)

    The helper with which the fuzz tests cut their input into file
    names. *)

Definition newline : ascii := "010"%char.

(** [for i := ...; i < len(s); i++ { if s[i] == '\n' { if i > start {
      result = append(result, s[start:i]) }; start = i + 1 } }]
    for the [n] indices from [i] on; returns the final [(start, result)]. *)
Fixpoint split_loop (s : bytes) (n : nat) (i start : Z) (result : list bytes)
    : option (Z * list bytes) :=
  match n with
  | O => Some (start, result)
  | S n' =>
      c ← idx s i;
      if Ascii.eqb c newline then
        result ← (if start <? i then p ← slice s start i; Some (result ++ [p])
                  else Some result);
        split_loop s n' (i + 1) (i + 1) result
      else split_loop s n' (i + 1) start result
  end.

Definition splitNonEmpty (s : bytes) : option (list bytes) :=
  if bool_decide (s = []) then Some [] else
  '(start, result) ← split_loop s (length s) 0 0 [];
  if start <? len s then p ← slice s start (len s); Some (result ++ [p])
  else Some result.
Example Soname_libfoo_so_1 : Soname (bytes_of "libfoo.so.1") = Some 9.
Proof. reflexivity. Qed.

Example Script_alpine :
  Script (bytes_of "alpine-baselayout-3.6.8-r1.Q17OteNVXn9.post-install") = Some (17, 38).
Proof. vm_compute. reflexivity. Qed.

Example Suffix_app : Suffix (bytes_of "app-1.0.0-r5") = Some 3 /\ Suffix (bytes_of "foo-bar") = Some 0
  /\ Suffix (bytes_of "tool-2.3.4-beta1") = Some 4.
Proof. vm_compute. auto. Qed.

Example Embedded_foo : Embedded (bytes_of "foo.1.2.3.so") = Some (3, 9)
  /\ Embedded (bytes_of "foo.1.so") = Some (0, 0) /\ Embedded (bytes_of "libfoo.1.2.3.4.so") = Some (6, 14).
Proof. vm_compute. auto. Qed.

Example Equal_ex : Equal (bytes_of "libfoo.so.1.2.3") (bytes_of "libfoo.so.2.0.0") = Some true
  /\ Equal (bytes_of "foo.1.2.3.so") (bytes_of "foo.4.5.6.so") = Some true
  /\ Equal (bytes_of "a.txt") (bytes_of "b.txt") = Some false
  /\ Equal (bytes_of "app-1.0.0-r5") (bytes_of "app-2.0.0-r0") = Some true.
Proof. vm_compute. auto. Qed.

(** ** Basic facts about indexing and the fallible connectives *)

Lemma len_nonneg {A} (l : list A) : 0 <= len l.
Proof. unfold len. lia. Qed.

Lemma idx_is_Some {A} (l : list A) i : 0 <= i < len l → is_Some (idx l i).
Proof.
  intros Hi. unfold idx.
  replace ((0 <=? i) && (i <? len l)) with true
    by (symmetry; apply andb_true_iff; split; [apply Z.leb_le|apply Z.ltb_lt]; lia).
  apply lookup_lt_is_Some. unfold len in Hi. lia.
Qed.

Lemma idx_Some_inv {A} (l : list A) i x :
  idx l i = Some x → 0 <= i < len l ∧ l !! Z.to_nat i = Some x.
Proof.
  unfold idx. destruct ((0 <=? i) && (i <? len l)) eqn:E; [|discriminate].
  apply andb_true_iff in E as [E1 E2].
  apply Z.leb_le in E1. apply Z.ltb_lt in E2. auto.
Qed.

Lemma idx_lookup {A} (l : list A) i :
  0 <= i < len l → idx l i = l !! Z.to_nat i.
Proof.
  intros Hi. unfold idx.
  replace ((0 <=? i) && (i <? len l)) with true
    by (symmetry; apply andb_true_iff; split; [apply Z.leb_le|apply Z.ltb_lt]; lia).
  reflexivity.
Qed.

Lemma byte_is_is_Some bs i ch : 0 <= i < len bs → is_Some (byte_is bs i ch).
Proof.
  intros Hi. unfold byte_is. destruct (idx_is_Some bs i Hi) as [c ->]. simpl. eauto.
Qed.

Lemma digit_at_is_Some bs i : 0 <= i < len bs → is_Some (digit_at bs i).
Proof.
  intros Hi. unfold digit_at. destruct (idx_is_Some bs i Hi) as [c ->]. simpl. eauto.
Qed.

Lemma andM_is_Some a b :
  is_Some a → (a = Some true → is_Some b) → is_Some (a &&& b).
Proof. intros [[|] ->] Hb; simpl; eauto. Qed.

Lemma andM_true a b : a &&& b = Some true ↔ a = Some true ∧ b = Some true.
Proof.
  unfold andM. destruct a as [[|]|]; split; try tauto; try (intros [? ?]; congruence);
    intros; discriminate.
Qed.

Lemma bv_range c : 0 <= bv c < 256.
Proof.
  unfold bv. pose proof (N_ascii_bounded c). lia.
Qed.

(** The wrap-around test [c - '0' < 10] holds exactly for ['0'..'9']. *)
Lemma is_digit_spec c : is_digit c = true ↔ 48 <= bv c <= 57.
Proof.
  unfold is_digit. pose proof (bv_range c) as Hc. rewrite Z.ltb_lt.
  destruct (Z_lt_le_dec (bv c) 48) as [Hlt|Hge].
  - replace ((bv c - 48) mod 256) with (bv c - 48 + 256).
    + lia.
    + apply Z.mod_unique with (q := -1); lia.
  - rewrite Z.mod_small by lia. lia.
Qed.

Lemma scan_down_spec p lo n :
  (∀ i, lo <= i < lo + Z.of_nat n → is_Some (p i)) →
  ∃ r, scan_down p lo n = Some r ∧
    match r with
    | Some i => lo <= i < lo + Z.of_nat n ∧ p i = Some true ∧
                ∀ j, i < j < lo + Z.of_nat n → p j = Some false
    | None => ∀ j, lo <= j < lo + Z.of_nat n → p j = Some false
    end.
Proof.
  induction n as [|n IH]; intros Hp.
  - exists None. split; [reflexivity|]. intros j Hj. lia.
  - cbn [scan_down].
    destruct (Hp (lo + Z.of_nat n)) as [b Hb]; [lia|]. rewrite Hb.
    destruct b.
    + exists (Some (lo + Z.of_nat n)). split; [reflexivity|].
      split; [lia|]. split; [exact Hb|]. intros j Hj. lia.
    + destruct IH as [r [Hr Hspec]]; [intros i Hi; apply Hp; lia|].
      exists r. split; [exact Hr|].
      destruct r as [i|].
      * destruct Hspec as (Hi & Hpi & Hlater). split; [lia|]. split; [exact Hpi|].
        intros j Hj. destruct (Z.eq_dec j (lo + Z.of_nat n)) as [->|Hne]; [exact Hb|].
        apply Hlater. lia.
      * intros j Hj. destruct (Z.eq_dec j (lo + Z.of_nat n)) as [->|Hne]; [exact Hb|].
        apply Hspec. lia.
Qed.

(** ** Soname *)

Lemma soname_at_is_Some bs i : 3 <= i <= len bs - 2 → is_Some (soname_at bs i).
Proof.
  intros Hi. unfold soname_at.
  repeat (apply andM_is_Some; [|intros _]);
    (apply byte_is_is_Some || apply digit_at_is_Some); lia.
Qed.

Lemma Soname_scan bs :
  ∃ r, scan_down (soname_at bs) 3 (Z.to_nat (len bs - 2 - 3 + 1)) = Some r ∧
    match r with
    | Some i => 3 <= i <= len bs - 2 ∧ soname_at bs i = Some true ∧
                ∀ j, i < j <= len bs - 2 → soname_at bs j = Some false
    | None => ∀ j, 3 <= j <= len bs - 2 → soname_at bs j = Some false
    end.
Proof.
  destruct (scan_down_spec (soname_at bs) 3 (Z.to_nat (len bs - 2 - 3 + 1)))
    as [r [Hr Hspec]].
  - intros i Hi. apply soname_at_is_Some. lia.
  - exists r. split; [exact Hr|]. destruct r as [i|].
    + destruct Hspec as (Hi & Hpi & Hl). split; [lia|]. split; [exact Hpi|].
      intros j Hj. apply Hl. lia.
    + intros j Hj. apply Hspec. lia.
Qed.

Lemma Soname_total bs : ∃ r, Soname bs = Some r ∧ 0 <= r <= len bs ∧ (0 < r → 3 <= r).
Proof.
  unfold Soname. destruct (Soname_scan bs) as [r [-> Hspec]]. simpl.
  destruct r as [i|].
  - exists i. split; [reflexivity|]. lia.
  - exists 0. split; [reflexivity|]. pose proof (len_nonneg bs). lia.
Qed.

(** ** Embedded *)

Lemma version_run_spec bs n dots :
  Z.of_nat n <= len bs →
  ∃ i dots', version_run bs n dots = Some (i, dots') ∧
    -1 <= i < Z.of_nat n ∧ dots <= dots' ∧ dots' - dots <= Z.of_nat n - 1 - i.
Proof.
  revert dots. induction n as [|n IH]; intros dots Hn.
  - exists (-1), dots. split; [reflexivity|]. lia.
  - cbn [version_run].
    destruct (idx_is_Some bs (Z.of_nat n)) as [c Hc]; [lia|]. rewrite Hc. simpl.
    destruct (is_digit c || Ascii.eqb c ".").
    + destruct (IH (if Ascii.eqb c "." then dots + 1 else dots)) as (i & d & Hr & Hi & Hd1 & Hd2);
        [lia|].
      exists i, d. split; [exact Hr|]. destruct (Ascii.eqb c "."); lia.
    + exists (Z.of_nat n), dots. split; [reflexivity|]. lia.
Qed.

Lemma Embedded_total bs :
  ∃ s e, Embedded bs = Some (s, e) ∧ 0 <= s <= len bs ∧ 0 <= e <= len bs ∧
         (0 < s → s < e ∧ e < len bs).
Proof.
  unfold Embedded. pose proof (len_nonneg bs) as Hlen.
  destruct (len bs <? 9) eqn:E9.
  { exists 0, 0. split; [reflexivity|]. lia. }
  apply Z.ltb_ge in E9.
  destruct (scan_down_spec (λ i, byte_is bs i ".") 1 (Z.to_nat (len bs - 1 - 1 + 1)))
    as [r [Hr Hspec]].
  { intros i Hi. apply byte_is_is_Some. lia. }
  rewrite Hr. simpl.
  set (ext := match r with Some i => i | None => -1 end).
  assert (Hext : -1 <= ext < len bs).
  { subst ext. destruct r as [i|]; [destruct Hspec as [? _]|]; lia. }
  destruct ((ext <? 6) || (ext =? len bs - 1)) eqn:Eext.
  { exists 0, 0. split; [reflexivity|]. lia. }
  apply orb_false_iff in Eext as [E6 El].
  apply Z.ltb_ge in E6. apply Z.eqb_neq in El.
  destruct (version_run_spec bs (Z.to_nat (ext - 1 + 1)) 0) as (i & dots & Hv & Hi & Hd1 & Hd2);
    [lia|].
  rewrite Hv. simpl.
  destruct (2 <=? dots) eqn:E2; simpl.
  2:{ exists 0, 0. split; [reflexivity|]. lia. }
  apply Z.leb_le in E2.
  destruct (0 <=? i) eqn:E0; simpl.
  2:{ exists 0, 0. split; [reflexivity|]. lia. }
  apply Z.leb_le in E0.
  destruct (byte_is_is_Some bs (i + 1) ".") as [b1 Hb1]; [lia|]. rewrite Hb1.
  destruct b1; simpl.
  2:{ exists 0, 0. split; [reflexivity|]. lia. }
  destruct (digit_at_is_Some bs (i + 2)) as [b2 Hb2]; [lia|]. rewrite Hb2.
  destruct b2; simpl.
  - exists (i + 1), ext. split; [reflexivity|]. lia.
  - exists 0, 0. split; [reflexivity|]. lia.
Qed.

(** ** Script *)

Lemma slice_is_Some {A} (l : list A) lo hi :
  0 <= lo <= hi → hi <= len l → is_Some (slice l lo hi).
Proof.
  intros H1 H2. unfold slice.
  replace ((0 <=? lo) && (lo <=? hi) && (hi <=? len l)) with true; [eauto|].
  symmetry. rewrite !andb_true_iff, !Z.leb_le. lia.
Qed.

Lemma script_start_spec bs sufs :
  Forall (λ s : bytes, 0 < len s) sufs →
  ∃ start, script_start bs sufs = Some start ∧
    (start = 0 ∨ (0 < start < len bs ∧ ∃ suffix, suffix ∈ sufs ∧
       start = len bs - len suffix ∧ slice bs start (len bs) = Some suffix)).
Proof.
  induction sufs as [|suffix rest IH]; intros Hpos.
  - exists 0. split; [reflexivity|]. left. reflexivity.
  - cbn [script_start]. apply Forall_cons in Hpos as [Hs Hrest].
    destruct (IH Hrest) as (st & Hst & Hcase).
    assert (Hweak : st = 0 ∨ (0 < st < len bs ∧ ∃ sf, sf ∈ suffix :: rest ∧
              st = len bs - len sf ∧ slice bs st (len bs) = Some sf)).
    { destruct Hcase as [->|[H1 (sf & Hin & H2 & H3)]]; [left; reflexivity|].
      right. split; [exact H1|]. exists sf. split; [right; exact Hin|auto]. }
    destruct (len suffix <? len bs) eqn:E; simpl.
    2:{ exists st. split; [exact Hst|exact Hweak]. }
    apply Z.ltb_lt in E.
    destruct (slice_is_Some bs (len bs - len suffix) (len bs)) as [tl Htl]; [lia|lia|].
    rewrite Htl. cbn [mbind option_bind andM ifM]. case_bool_decide as Eq.
    + subst tl.
      exists (len bs - len suffix). split; [reflexivity|]. right. split; [lia|].
      exists suffix. split; [left|auto].
    + exists st. split; [exact Hst|exact Hweak].
Qed.

Lemma suffixes_nonempty : Forall (λ s : bytes, 0 < len s) suffixes.
Proof. unfold suffixes. repeat constructor. Qed.

Lemma checksum_at_is_Some bs i : 0 <= i < len bs - 1 → is_Some (checksum_at bs i).
Proof.
  intros Hi. unfold checksum_at.
  apply andM_is_Some.
  - apply andM_is_Some.
    + apply andM_is_Some; [apply byte_is_is_Some; lia|intros _; eauto].
    + intros H. apply byte_is_is_Some. lia.
  - intros H. apply andM_true in H as [H _]. apply andM_true in H as [_ H].
    injection H as H. apply Z.ltb_lt in H. apply byte_is_is_Some. lia.
Qed.

Lemma version_at_is_Some bs cs i : 0 <= i → cs <= len bs → i < cs → is_Some (version_at bs cs i).
Proof.
  intros H0 Hcs Hi. unfold version_at.
  apply andM_is_Some.
  - apply andM_is_Some; [apply byte_is_is_Some; lia|intros _; eauto].
  - intros H. apply andM_true in H as [_ H].
    injection H as H. apply Z.ltb_lt in H. apply digit_at_is_Some. lia.
Qed.

Lemma Script_total bs :
  ∃ s e, Script bs = Some (s, e) ∧ 0 <= s <= len bs ∧ 0 <= e <= len bs ∧
         (0 < s → s < e ∧ e < len bs).
Proof.
  unfold Script. pose proof (len_nonneg bs) as Hlen.
  destruct (len bs <? 20) eqn:E20.
  { exists 0, 0. split; [reflexivity|]. lia. }
  destruct (script_start_spec bs suffixes suffixes_nonempty) as (start & Hst & Hcase).
  rewrite Hst. simpl.
  destruct (start =? 0) eqn:E0.
  { exists 0, 0. split; [reflexivity|]. lia. }
  apply Z.eqb_neq in E0. destruct Hcase as [?|[Hstart _]]; [contradiction|].
  destruct (scan_down_spec (checksum_at bs) 4 (Z.to_nat (start - 2 - 4 + 1)))
    as [r [Hr Hspec]].
  { intros i Hi. apply checksum_at_is_Some. lia. }
  rewrite Hr. simpl.
  set (cs := match r with Some i => i | None => -1 end).
  assert (Hcs : cs = -1 ∨ 4 <= cs <= start - 2).
  { subst cs. destruct r as [i|]; [destruct Hspec as [? _]; right|left]; lia. }
  destruct (cs <? 0) eqn:Ecs.
  { exists 0, 0. split; [reflexivity|]. lia. }
  apply Z.ltb_ge in Ecs.
  destruct (scan_down_spec (version_at bs cs) 1 (Z.to_nat (cs - 1 - 1 + 1)))
    as [r2 [Hr2 Hspec2]].
  { intros i Hi. apply version_at_is_Some; lia. }
  rewrite Hr2. simpl. destruct r2 as [i|].
  - destruct Hspec2 as [Hi _]. exists i, start. split; [reflexivity|]. lia.
  - exists 0, 0. split; [reflexivity|]. lia.
Qed.

(** ** Suffix *)

Lemma skip_digits_spec bs n :
  Z.of_nat n <= len bs → ∃ i, skip_digits bs n = Some i ∧ -1 <= i < Z.of_nat n.
Proof.
  induction n as [|n IH]; intros Hn.
  - exists (-1). split; [reflexivity|]. lia.
  - cbn [skip_digits].
    destruct (digit_at_is_Some bs (Z.of_nat n)) as [b Hb]; [lia|]. rewrite Hb.
    destruct b; simpl.
    + destruct IH as (i & Hi & Hr); [lia|]. exists i. split; [exact Hi|lia].
    + exists (Z.of_nat n). split; [reflexivity|lia].
Qed.

Lemma suffix_scan_spec bs n :
  Z.of_nat n <= len bs → ∃ r, suffix_scan bs n = Some r ∧ 0 <= r ∧ (0 < r → r < Z.of_nat n).
Proof.
  induction n as [|n IH]; intros Hn.
  - exists 0. split; [reflexivity|]. lia.
  - cbn [suffix_scan].
    destruct (idx_is_Some bs (Z.of_nat n)) as [c Hc]; [lia|]. rewrite Hc. simpl.
    assert (Hcont : ∃ r, (if version_char c then suffix_scan bs n else Some 0) = Some r ∧
                         0 <= r ∧ (0 < r → r < Z.of_nat (S n))).
    { destruct (version_char c).
      - destruct IH as (r & Hr & H0 & H1); [lia|]. exists r. split; [exact Hr|]. lia.
      - exists 0. split; [reflexivity|]. lia. }
    destruct (Ascii.eqb c "-"); simpl; [|exact Hcont].
    destruct (Z.of_nat n + 1 <? len bs) eqn:E; simpl; [|exact Hcont].
    apply Z.ltb_lt in E.
    destruct (digit_at_is_Some bs (Z.of_nat n + 1)) as [b Hb]; [lia|]. rewrite Hb.
    destruct b; simpl; [|exact Hcont].
    exists (Z.of_nat n). split; [reflexivity|]. lia.
Qed.

Lemma Suffix_total bs : ∃ r, Suffix bs = Some r ∧ 0 <= r ∧ (0 < r → r < len bs).
Proof.
  unfold Suffix. pose proof (len_nonneg bs) as Hlen.
  assert (Hi : ∃ i, ifM (Some (2 <? len bs - 1) &&& digit_at bs (len bs - 1))
        (i ← skip_digits bs (Z.to_nat (len bs - 1 + 1));
         ifM (Some (0 <? i) &&& byte_is bs i "r" &&& byte_is bs (i - 1) "-")
           (Some (i - 2))
           (Some i))
        (Some (len bs - 1)) = Some i ∧ -1 <= i < len bs).
  { destruct (2 <? len bs - 1) eqn:E2; simpl.
    2:{ exists (len bs - 1). split; [reflexivity|lia]. }
    apply Z.ltb_lt in E2.
    destruct (digit_at_is_Some bs (len bs - 1)) as [b Hb]; [lia|]. rewrite Hb.
    destruct b; simpl.
    2:{ exists (len bs - 1). split; [reflexivity|lia]. }
    destruct (skip_digits_spec bs (Z.to_nat (len bs - 1 + 1))) as (i & Hsk & Hir); [lia|].
    rewrite Hsk. simpl.
    destruct (0 <? i) eqn:E0; simpl.
    2:{ exists i. split; [reflexivity|lia]. }
    apply Z.ltb_lt in E0.
    destruct (byte_is_is_Some bs i "r") as [b1 Hb1]; [lia|]. rewrite Hb1.
    destruct b1; simpl.
    2:{ exists i. split; [reflexivity|lia]. }
    destruct (byte_is_is_Some bs (i - 1) "-") as [b2 Hb2]; [lia|]. rewrite Hb2.
    destruct b2; simpl.
    - exists (i - 2). split; [reflexivity|lia].
    - exists i. split; [reflexivity|lia]. }
  destruct Hi as (i & -> & Hir). simpl.
  destruct (suffix_scan_spec bs (Z.to_nat (i + 1))) as (r & Hr & H0 & H1); [lia|].
  exists r. split; [exact Hr|]. split; [exact H0|]. intros Hpos. specialize (H1 Hpos). lia.
Qed.

(** ** Spans, Equal and Hash *)

Lemma Spans_total bs :
  ∃ j s e, Spans bs = Some (j, s, e) ∧ 0 <= j <= len bs ∧
    ((s = 0 ∧ e = 0) ∨ (0 < j ∧ j < s ∧ s < e ∧ e = len bs)) ∧
    (len bs = 0 → j = 0 ∧ s = 0 ∧ e = 0).
Proof.
  unfold Spans. pose proof (len_nonneg bs) as Hlen.
  destruct (Soname_total bs) as (r & -> & Hr & _). simpl.
  destruct (0 <? r) eqn:E1.
  { apply Z.ltb_lt in E1. exists r, 0, 0. split; [reflexivity|]. lia. }
  destruct (Script_total bs) as (s1 & e1 & -> & Hs1 & He1 & Hse1). simpl.
  destruct (0 <? s1) eqn:E2.
  { apply Z.ltb_lt in E2. exists s1, e1, (len bs). split; [reflexivity|]. lia. }
  destruct (Embedded_total bs) as (s2 & e2 & -> & Hs2 & He2 & Hse2). simpl.
  destruct (0 <? s2) eqn:E3.
  { apply Z.ltb_lt in E3. exists s2, e2, (len bs). split; [reflexivity|]. lia. }
  destruct (Suffix_total bs) as (r3 & -> & Hr3 & Hr3'). simpl.
  destruct (0 <? r3) eqn:E4.
  { apply Z.ltb_lt in E4. exists r3, 0, 0. split; [reflexivity|]. lia. }
  exists (len bs), 0, 0. split; [reflexivity|]. lia.
Qed.

Lemma slice_full {A} (l : list A) : slice l 0 (len l) = Some l.
Proof.
  unfold slice. pose proof (len_nonneg l).
  replace ((0 <=? 0) && (0 <=? len l) && (len l <=? len l)) with true
    by (symmetry; rewrite !andb_true_iff, !Z.leb_le; lia).
  f_equal. rewrite Z.sub_0_r. unfold len. rewrite Nat2Z.id. simpl.
  apply firstn_all.
Qed.

Lemma slice_empty {A} (l : list A) : slice l 0 0 = Some [].
Proof.
  unfold slice. pose proof (len_nonneg l).
  replace ((0 <=? 0) && (0 <=? 0) && (0 <=? len l)) with true
    by (symmetry; rewrite !andb_true_iff, !Z.leb_le; lia).
  reflexivity.
Qed.

Section HashFacts.

Variable Seed : Type.
Variable maphash_Bytes : Seed → bytes → Z.

Abbreviation Hash := (Hash Seed maphash_Bytes).
Abbreviation hash64 := (hash64 Seed maphash_Bytes).
Abbreviation span_hash := (span_hash Seed maphash_Bytes).

Lemma Hash_Spans bs seed j s e :
  Spans bs = Some (j, s, e) →
  ∃ p q, slice bs 0 j = Some p ∧ slice bs s e = Some q ∧
    Hash bs seed = Some (span_hash seed p q (0 <? e - s), clear_flag (hash64 seed bs)).
Proof.
  unfold Spans, Hash. pose proof (len_nonneg bs) as Hlen.
  destruct (Soname_total bs) as (r & -> & Hr & _). simpl.
  destruct (Script_total bs) as (s1 & e1 & -> & Hs1 & He1 & Hse1). simpl.
  destruct (Embedded_total bs) as (s2 & e2 & -> & Hs2 & He2 & Hse2). simpl.
  destruct (Suffix_total bs) as (r3 & -> & Hr3 & Hr3'). simpl.
  destruct (len bs =? 0) eqn:E0.
  { apply Z.eqb_eq in E0.
    assert (r = 0) as -> by lia. assert (s1 = 0) as -> by lia.
    assert (s2 = 0) as -> by lia. assert (r3 = 0) as -> by lia. simpl.
    intros [= <- <- <-]. exists bs, []. rewrite slice_full, slice_empty.
    replace (0 <? 0 - 0) with false by reflexivity. auto. }
  destruct (0 <? r) eqn:E1.
  { apply Z.ltb_lt in E1. intros [= <- <- <-].
    destruct (slice_is_Some bs 0 r) as [p Hp]; [lia|lia|]. rewrite Hp.
    exists p, []. rewrite slice_empty. auto. }
  destruct (0 <? s1) eqn:E2.
  { apply Z.ltb_lt in E2. intros [= <- <- <-].
    destruct (slice_is_Some bs 0 s1) as [p Hp]; [lia|lia|].
    destruct (slice_is_Some bs e1 (len bs)) as [q Hq]; [lia|lia|].
    rewrite Hp, Hq. exists p, q. simpl.
    replace (0 <? len bs - e1) with true by (symmetry; apply Z.ltb_lt; lia). auto. }
  destruct (0 <? s2) eqn:E3.
  { apply Z.ltb_lt in E3. intros [= <- <- <-].
    destruct (slice_is_Some bs 0 s2) as [p Hp]; [lia|lia|].
    destruct (slice_is_Some bs e2 (len bs)) as [q Hq]; [lia|lia|].
    rewrite Hp, Hq. exists p, q. simpl.
    replace (0 <? len bs - e2) with true by (symmetry; apply Z.ltb_lt; lia). auto. }
  destruct (0 <? r3) eqn:E4.
  { apply Z.ltb_lt in E4. intros [= <- <- <-].
    destruct (slice_is_Some bs 0 r3) as [p Hp]; [lia|lia|]. rewrite Hp.
    exists p, []. rewrite slice_empty. auto. }
  intros [= <- <- <-]. exists bs, []. rewrite slice_full, slice_empty. auto.
Qed.

Lemma Hash_total bs seed : ∃ ih, Hash bs seed = Some (ih, clear_flag (hash64 seed bs)).
Proof.
  destruct (Spans_total bs) as (j & s & e & Hsp & _).
  destruct (Hash_Spans bs seed j s e Hsp) as (p & q & _ & _ & Hh). eauto.
Qed.

End HashFacts.

Lemma Equal_total a b : is_Some (Equal a b).
Proof.
  unfold Equal.
  destruct (Spans_total a) as (oj & os & oe & -> & Hoj & Hos & _).
  destruct (Spans_total b) as (cj & cs & ce & -> & Hcj & Hcs & _). simpl.
  destruct (negb (oj =? cj) || negb (oe - os =? ce - cs)); [eauto|].
  destruct (slice_is_Some a 0 oj) as [p1 ->]; [lia|lia|].
  destruct (slice_is_Some b 0 cj) as [p2 ->]; [lia|lia|].
  destruct (slice_is_Some a os oe) as [q1 ->]; [lia|lia|].
  destruct (slice_is_Some b cs ce) as [q2 ->]; [lia|lia|].
  simpl. destruct (bool_decide (p1 = p2)); simpl; eauto.
Qed.

(** [Equal a b] holds exactly when the spans have the same shape and the
    same contents. *)
Lemma Equal_true_iff a b :
  Equal a b = Some true ↔
  ∃ oj os oe cj cs ce p q,
    Spans a = Some (oj, os, oe) ∧ Spans b = Some (cj, cs, ce) ∧
    oj = cj ∧ oe - os = ce - cs ∧
    slice a 0 oj = Some p ∧ slice b 0 cj = Some p ∧
    slice a os oe = Some q ∧ slice b cs ce = Some q.
Proof.
  unfold Equal.
  destruct (Spans_total a) as (oj & os & oe & Ha & Hoj & Hos & _).
  destruct (Spans_total b) as (cj & cs & ce & Hb & Hcj & Hcs & _).
  rewrite Ha, Hb. simpl.
  destruct (slice_is_Some a 0 oj) as [p1 Hp1]; [lia|lia|].
  destruct (slice_is_Some b 0 cj) as [p2 Hp2]; [lia|lia|].
  destruct (slice_is_Some a os oe) as [q1 Hq1]; [lia|lia|].
  destruct (slice_is_Some b cs ce) as [q2 Hq2]; [lia|lia|].
  split.
  - destruct (negb (oj =? cj) || negb (oe - os =? ce - cs)) eqn:E; [discriminate|].
    apply orb_false_iff in E as [E1 E2].
    apply negb_false_iff in E1, E2. apply Z.eqb_eq in E1, E2.
    rewrite Hp1, Hp2, Hq1, Hq2. simpl.
    case_bool_decide as Ep; simpl; [|discriminate].
    case_bool_decide as Eq; [|discriminate]. intros _. subst p2 q2.
    exists oj, os, oe, cj, cs, ce, p1, q1. auto 10.
  - intros (oj' & os' & oe' & cj' & cs' & ce' & p & q & [= <- <- <-] & [= <- <- <-]
            & Ej & Ese & Hp1' & Hp2' & Hq1' & Hq2').
    replace (negb (oj =? cj) || negb (oe - os =? ce - cs)) with false.
    2:{ symmetry. apply orb_false_iff. rewrite !negb_false_iff, !Z.eqb_eq. auto. }
    rewrite Hp1', Hp2', Hq1', Hq2'. simpl.
    rewrite !bool_decide_eq_true_2 by reflexivity. reflexivity.
Qed.

(** ** The matchers against the specification *)

Lemma byte_is_true bs i ch :
  0 <= i → byte_is bs i ch = Some true ↔ bs !! Z.to_nat i = Some ch.
Proof.
  intros Hi. unfold byte_is. split.
  - destruct (idx bs i) as [c|] eqn:E; [|discriminate]. simpl.
    intros [= Hc]. apply Ascii.eqb_eq in Hc. subst c.
    apply idx_Some_inv in E as [_ E]. exact E.
  - intros Hl. rewrite idx_lookup.
    + rewrite Hl. simpl. rewrite Ascii.eqb_refl. reflexivity.
    + apply lookup_lt_Some in Hl. unfold len. lia.
Qed.

Lemma digit_at_true bs i :
  0 <= i → digit_at bs i = Some true ↔ ∃ d, bs !! Z.to_nat i = Some d ∧ 48 <= bv d <= 57.
Proof.
  intros Hi. unfold digit_at. split.
  - destruct (idx bs i) as [c|] eqn:E; [|discriminate]. simpl.
    intros [= Hc]. apply is_digit_spec in Hc.
    apply idx_Some_inv in E as [_ E]. eauto.
  - intros (d & Hl & Hd). rewrite idx_lookup.
    + rewrite Hl. simpl. apply is_digit_spec in Hd. rewrite Hd. reflexivity.
    + apply lookup_lt_Some in Hl. unfold len. lia.
Qed.

Lemma soname_at_pattern bs i :
  3 <= i → soname_at bs i = Some true ↔ soname_pattern bs i.
Proof.
  intros Hi. unfold soname_at, soname_pattern.
  rewrite !andM_true, !byte_is_true, digit_at_true by lia. tauto.
Qed.

(** C9: Soname returns the first index, scanning from [len - 2] down to
    [3], at which [bs[i]] is a dot followed by an ASCII digit and
    preceded by [.so], and 0 when there is no such index; on the three
    names of the specification it returns 9, 0 and 3. *)
Theorem Soname_meets_spec :
  (∀ bs, ∃ r, Soname bs = Some r ∧ Soname_spec bs r) ∧
  Soname (bytes_of "libfoo.so.1") = Some 9 ∧
  Soname (bytes_of "libfoo.so") = Some 0 ∧
  Soname (bytes_of ".so.1") = Some 3.
Proof.
  split; [|repeat split; reflexivity].
  intros bs. unfold Soname. destruct (Soname_scan bs) as [r [-> Hspec]]. simpl.
  destruct r as [i|].
  - exists i. split; [reflexivity|]. left.
    destruct Hspec as (Hi & Hpi & Hl). split; [exact Hi|]. split.
    + apply soname_at_pattern; [lia|exact Hpi].
    + intros j Hj Hpat. apply soname_at_pattern in Hpat; [|lia].
      rewrite (Hl j Hj) in Hpat. discriminate.
  - exists 0. split; [reflexivity|]. right. split; [reflexivity|].
    intros j Hj Hpat. apply soname_at_pattern in Hpat; [|lia].
    rewrite (Hspec j Hj) in Hpat. discriminate.
Qed.

(** C8: on every byte slice each of the four matchers returns without a
    fault, every returned index lies in [0, len], and a pair [(s, e)]
    with [s > 0] has [e > s]. *)
Theorem matchers_in_range (bs : bytes) :
  (∃ r, Soname bs = Some r ∧ 0 <= r <= len bs) ∧
  (∃ s e, Script bs = Some (s, e) ∧ 0 <= s <= len bs ∧ 0 <= e <= len bs ∧
          (0 < s → s < e)) ∧
  (∃ s e, Embedded bs = Some (s, e) ∧ 0 <= s <= len bs ∧ 0 <= e <= len bs ∧
          (0 < s → s < e)) ∧
  (∃ r, Suffix bs = Some r ∧ 0 <= r <= len bs).
Proof.
  pose proof (len_nonneg bs) as Hlen.
  split; [|split; [|split]].
  - destruct (Soname_total bs) as (r & Hr & Hb & _). eauto.
  - destruct (Script_total bs) as (s & e & Hr & Hs & He & Hse).
    exists s, e. split; [exact Hr|]. split; [exact Hs|]. split; [exact He|].
    intros H. apply Hse in H. lia.
  - destruct (Embedded_total bs) as (s & e & Hr & Hs & He & Hse).
    exists s, e. split; [exact Hr|]. split; [exact Hs|]. split; [exact He|].
    intros H. apply Hse in H. lia.
  - destruct (Suffix_total bs) as (r & Hr & H0 & H1).
    exists r. split; [exact Hr|]. split; [exact H0|].
    destruct (Z_lt_le_dec 0 r) as [Hp|Hn]; [specialize (H1 Hp)|]; lia.
Qed.

Lemma matchers_in_range_witness :
  (0 < 17 → 17 < 38) ∧
  Script (bytes_of "alpine-baselayout-3.6.8-r1.Q17OteNVXn9.post-install") = Some (17, 38).
Proof.
  destruct (matchers_in_range (bytes_of "alpine-baselayout-3.6.8-r1.Q17OteNVXn9.post-install"))
    as (_ & (s & e & Hr & _ & _ & Hse) & _).
  vm_compute in Hr. injection Hr as <- <-. split; [exact Hse|reflexivity].
Defined.

Lemma Equal_refl a : Equal a a = Some true.
Proof.
  apply Equal_true_iff.
  destruct (Spans_total a) as (j & s & e & Ha & Hj & Hs & _).
  destruct (slice_is_Some a 0 j) as [p Hp]; [lia|lia|].
  destruct (slice_is_Some a s e) as [q Hq]; [lia|lia|].
  exists j, s, e, j, s, e, p, q. auto 10.
Qed.

Lemma Equal_sym a b : Equal a b = Equal b a.
Proof.
  assert (Hiff : ∀ x y, Equal x y = Some true → Equal y x = Some true).
  { intros x y H. apply Equal_true_iff in H.
    destruct H as (oj & os & oe & cj & cs & ce & p & q & H1 & H2 & H3 & H4 & H5 & H6 & H7 & H8).
    apply Equal_true_iff. exists cj, cs, ce, oj, os, oe, p, q. auto 10. }
  destruct (Equal_total a b) as [x Hx], (Equal_total b a) as [y Hy].
  destruct x, y; try congruence.
  - apply Hiff in Hx. congruence.
  - apply Hiff in Hy. congruence.
Qed.

Lemma Equal_Hash Seed maphash_Bytes a b (seed : Seed) :
  Equal a b = Some true →
  ∃ h, Hash Seed maphash_Bytes a seed = Some (h, clear_flag (hash64 Seed maphash_Bytes seed a)) ∧
       Hash Seed maphash_Bytes b seed = Some (h, clear_flag (hash64 Seed maphash_Bytes seed b)).
Proof.
  intros H. apply Equal_true_iff in H.
  destruct H as (oj & os & oe & cj & cs & ce & p & q & Ha & Hb & Ej & Ese & Hp1 & Hp2 & Hq1 & Hq2).
  destruct (Hash_Spans Seed maphash_Bytes a seed _ _ _ Ha) as (p' & q' & Hp' & Hq' & Hh1).
  destruct (Hash_Spans Seed maphash_Bytes b seed _ _ _ Hb) as (p'' & q'' & Hp'' & Hq'' & Hh2).
  rewrite Hp1 in Hp'. rewrite Hq1 in Hq'. rewrite Hp2 in Hp''. rewrite Hq2 in Hq''.
  injection Hp' as <-. injection Hq' as <-. injection Hp'' as <-. injection Hq'' as <-.
  rewrite Ese in Hh1. eauto.
Qed.

(** C7: Equal is reflexive and symmetric, and two names that Equal
    accepts have the same identity hash under every seed. *)
Theorem Equal_laws (Seed : Type) (maphash_Bytes : Seed → bytes → Z) :
  (∀ a, Equal a a = Some true) ∧
  (∀ a b, Equal a b = Equal b a) ∧
  (∀ a b seed, Equal a b = Some true →
     ∃ ha hb, Hash Seed maphash_Bytes a seed = Some ha ∧
              Hash Seed maphash_Bytes b seed = Some hb ∧ ha.1 = hb.1).
Proof.
  split; [exact Equal_refl|]. split; [exact Equal_sym|].
  intros a b seed H.
  destruct (Equal_Hash Seed maphash_Bytes a b seed H) as (h & H1 & H2).
  eexists _, _. split; [exact H1|]. split; [exact H2|]. reflexivity.
Qed.

Example diffP_basic :
  (r ← diffP Z fnv1a 0 (names ["lib.so.1"; "bin/foo"; "doc.md"; "old.txt"])
         (names ["lib.so.2"; "bin/foo"; "doc.md"; "new.txt"]) 4 [] []; Some (C r))
  = Some [2; 1; 1; 1].
Proof. vm_compute. reflexivity. Qed.

(** ** Fork and join: ranges, tasks and traces *)

Lemma zrange_nil lo hi : hi <= lo → zrange lo hi = [].
Proof.
  intros H. unfold zrange. replace (Z.to_nat (hi - lo)) with O by lia. reflexivity.
Qed.

Lemma zrange_cons lo hi : lo < hi → zrange lo hi = lo :: zrange (lo + 1) hi.
Proof.
  intros H. unfold zrange.
  replace (Z.to_nat (hi - lo)) with (S (Z.to_nat (hi - (lo + 1)))) by lia.
  cbn [seq map]. f_equal; [lia|].
  rewrite <- seq_shift, map_map. apply map_ext. intros k. lia.
Qed.

Lemma elem_of_zrange i lo hi : i ∈ zrange lo hi ↔ lo <= i < hi.
Proof.
  unfold zrange. rewrite list_elem_of_fmap. split.
  - intros (k & -> & Hk). apply elem_of_seq in Hk. lia.
  - intros Hi. exists (Z.to_nat (i - lo)). split; [lia|]. apply elem_of_seq. lia.
Qed.

Lemma length_zrange lo hi : length (zrange lo hi) = Z.to_nat (hi - lo).
Proof. unfold zrange. rewrite length_map, length_seq. reflexivity. Qed.

Lemma zrange_app lo mid hi :
  lo <= mid <= hi → zrange lo mid ++ zrange mid hi = zrange lo hi.
Proof.
  intros H. remember (Z.to_nat (mid - lo)) as n eqn:Hn.
  revert lo H Hn. induction n as [|n IH]; intros lo H Hn.
  - assert (mid = lo) as -> by lia. rewrite (zrange_nil lo lo) by lia. reflexivity.
  - rewrite (zrange_cons lo mid), (zrange_cons lo hi) by lia. simpl. f_equal.
    apply IH; lia.
Qed.

Lemma run_of_nil w : run_of w [] = [].
Proof. reflexivity. Qed.

Lemma run_of_cons w p tr :
  run_of w (p :: tr) = if decide (p.1 = w) then p.2 :: run_of w tr else run_of w tr.
Proof.
  unfold run_of. rewrite filter_cons. destruct (decide (p.1 = w)); reflexivity.
Qed.

Lemma run_of_app w tr1 tr2 : run_of w (tr1 ++ tr2) = run_of w tr1 ++ run_of w tr2.
Proof. unfold run_of. rewrite filter_app, fmap_app. reflexivity. Qed.

Lemma run_of_own w (l : list Z) : run_of w (map (λ i, (w, i)) l) = l.
Proof.
  induction l as [|i l IH]; [reflexivity|].
  cbn [map]. rewrite run_of_cons. simpl. rewrite decide_True by reflexivity.
  rewrite IH. reflexivity.
Qed.

Lemma run_of_other w w' (l : list Z) : w' ≠ w → run_of w (map (λ i, (w', i)) l) = [].
Proof.
  intros Hne. induction l as [|i l IH]; [reflexivity|].
  cbn [map]. rewrite run_of_cons. simpl. rewrite decide_False by exact Hne. exact IH.
Qed.

Lemma run_of_elem w i tr : i ∈ run_of w tr ↔ (w, i) ∈ tr.
Proof.
  unfold run_of. rewrite list_elem_of_fmap. split.
  - intros ([w' i'] & -> & Hin). apply list_elem_of_filter in Hin as [Hw Hin].
    simpl in Hw. subst w'. exact Hin.
  - intros Hin. exists (w, i). split; [reflexivity|].
    apply list_elem_of_filter. split; [reflexivity|exact Hin].
Qed.

Lemma run_of_drain w k ts :
  run_of w (drain k ts) = if decide (k ≤ w)%nat then task_range (ts !! (w - k)%nat) else [].
Proof.
  revert k. induction ts as [|[next high] ts IH]; intros k.
  - simpl. rewrite run_of_nil. destruct (decide (k ≤ w)%nat); reflexivity.
  - cbn [drain]. rewrite run_of_app, IH.
    destruct (decide (k = w)) as [->|Hne].
    + rewrite run_of_own. rewrite decide_False by lia. rewrite decide_True by lia.
      replace (w - w)%nat with O by lia. simpl. apply app_nil_r.
    + rewrite run_of_other by exact Hne. simpl.
      destruct (decide (S k ≤ w)%nat).
      * rewrite decide_True by lia.
        replace (w - k)%nat with (S (w - S k)) by lia. reflexivity.
      * rewrite decide_False by lia. reflexivity.
Qed.

(** Whatever the schedule, goroutine [w] runs exactly the indices of its
    task, in ascending order. *)
Lemma run_of_interleave w sched ts :
  run_of w (interleave sched ts) = task_range (ts !! w).
Proof.
  revert ts. induction sched as [|w0 sched IH]; intros ts.
  - cbn [interleave]. rewrite run_of_drain. rewrite decide_True by lia.
    replace (w - 0)%nat with w by lia. reflexivity.
  - cbn [interleave]. destruct (ts !! w0) as [[next high]|] eqn:E; [|apply IH].
    destruct (next <? high) eqn:El; [|apply IH].
    apply Z.ltb_lt in El. rewrite run_of_cons. simpl.
    destruct (decide (w0 = w)) as [Heq|Hne].
    + subst w0. rewrite IH, E.
      rewrite list_lookup_insert_eq by (eapply lookup_lt_Some; exact E).
      simpl. symmetry. apply zrange_cons. exact El.
    + rewrite IH. rewrite list_lookup_insert_ne by exact Hne. reflexivity.
Qed.

Lemma interleave_elem w i sched ts :
  (w, i) ∈ interleave sched ts ↔ i ∈ task_range (ts !! w).
Proof. rewrite <- (run_of_interleave w sched ts). symmetry. apply run_of_elem. Qed.

(** The tasks that [spawn] starts. *)
Lemma spawn_lookup n worker chunk total k lo hi :
  1 <= chunk → 0 <= worker →
  spawn n worker chunk total !! k = Some (lo, hi) →
  lo = (worker + Z.of_nat k) * chunk ∧ hi = Z.min (lo + chunk) total ∧ lo < total ∧
  (k < n)%nat.
Proof.
  intros Hc. revert worker k. induction n as [|n IH]; intros worker k Hw; [discriminate|].
  cbn [spawn]. destruct (total <=? worker * chunk) eqn:E; [discriminate|].
  apply Z.leb_gt in E. destruct k as [|k]; simpl.
  - intros [= <- <-]. split; [lia|]. split; [reflexivity|]. split; [exact E|lia].
  - intros Hk. apply IH in Hk; [|lia]. destruct Hk as (H1 & H2 & H3 & H4).
    split; [lia|]. split; [exact H2|]. split; [exact H3|lia].
Qed.

Lemma length_spawn n worker chunk total : (length (spawn n worker chunk total) ≤ n)%nat.
Proof.
  revert worker. induction n as [|n IH]; intros worker; [simpl; lia|].
  cbn [spawn]. destruct (total <=? worker * chunk); simpl; [lia|].
  specialize (IH (worker + 1)). lia.
Qed.

(** Run one after the other, the spawned tasks cover a prefix of the
    index range: all of it when there are enough chunks. *)
Lemma spawn_ranges n worker chunk total :
  1 <= chunk → 0 <= worker → worker * chunk <= total →
  concat (map (λ t : task, zrange t.1 t.2) (spawn n worker chunk total))
  = zrange (worker * chunk) (Z.min total ((worker + Z.of_nat n) * chunk)).
Proof.
  intros Hc. revert worker. induction n as [|n IH]; intros worker Hw Hle.
  - simpl. symmetry. apply zrange_nil. lia.
  - cbn [spawn]. destruct (total <=? worker * chunk) eqn:E.
    + apply Z.leb_le in E. simpl. symmetry. apply zrange_nil. lia.
    + apply Z.leb_gt in E. cbn [map concat fst snd].
      destruct (Z_le_gt_dec ((worker + 1) * chunk) total) as [Hin|Hout].
      * rewrite IH by lia.
        replace (Z.min (worker * chunk + chunk) total) with ((worker + 1) * chunk) by lia.
        replace (worker + 1 + Z.of_nat n) with (worker + Z.of_nat (S n)) by lia.
        apply zrange_app. nia.
      * replace (Z.min (worker * chunk + chunk) total) with total by lia.
        replace (Z.min total ((worker + Z.of_nat (S n)) * chunk)) with total by nia.
        destruct n as [|n]; [simpl; apply app_nil_r|].
        cbn [spawn]. replace (total <=? (worker + 1) * chunk) with true
          by (symmetry; apply Z.leb_le; lia).
        simpl. apply app_nil_r.
Qed.

Lemma interleave_spawn_inv w i sched n chunk total :
  1 <= chunk →
  (w, i) ∈ interleave sched (spawn n 0 chunk total) →
  0 <= i < total ∧ (w < n)%nat ∧
  Z.of_nat w * chunk <= i < Z.of_nat w * chunk + chunk.
Proof.
  intros Hc Hin. apply interleave_elem in Hin.
  destruct (spawn n 0 chunk total !! w) as [[lo hi]|] eqn:E; simpl in Hin.
  - apply elem_of_zrange in Hin.
    apply spawn_lookup in E as (H1 & H2 & H3 & H4); [|lia|lia]. lia.
  - apply elem_of_nil in Hin. contradiction.
Qed.

Lemma interleave_spawn_covers i sched n chunk total :
  1 <= chunk → 0 <= i < Z.min total (Z.of_nat n * chunk) →
  ∃ w, (w, i) ∈ interleave sched (spawn n 0 chunk total).
Proof.
  intros Hc Hi.
  assert (Hin : In i (concat (map (λ t : task, zrange t.1 t.2) (spawn n 0 chunk total)))).
  { rewrite spawn_ranges by lia. apply list_elem_of_In, elem_of_zrange. lia. }
  apply in_concat in Hin as (r & Hr & Hir). apply in_map_iff in Hr as ([lo hi] & <- & Ht).
  apply list_elem_of_In, list_elem_of_lookup in Ht as [w Hw].
  exists w. apply interleave_elem. rewrite Hw. simpl. apply list_elem_of_In. exact Hir.
Qed.

(** The chunk size [max(1, (n + workers - 1) / workers)]. *)
Lemma chunk_size n workers :
  1 <= workers → 0 <= n →
  ∃ q, go_div (n + workers - 1) workers = Some q ∧
       1 <= Z.max 1 q ∧ n <= workers * Z.max 1 q ∧
       Z.max 1 q = Z.max 1 ((n + workers - 1) / workers).
Proof.
  intros Hw Hn. unfold go_div.
  replace (workers =? 0) with false by (symmetry; apply Z.eqb_neq; lia).
  eexists. split; [reflexivity|].
  rewrite Z.quot_div_nonneg by lia.
  split; [lia|]. split; [|reflexivity].
  pose proof (Z.mul_div_le (n + workers - 1) workers ltac:(lia)) as H1.
  pose proof (Z.mod_pos_bound (n + workers - 1) workers ltac:(lia)) as H2.
  pose proof (Z.div_mod (n + workers - 1) workers ltac:(lia)) as H3.
  nia.
Qed.

Lemma assign_is_Some {A} (l : list A) i x :
  0 <= i < len l → assign l i x = Some (<[Z.to_nat i := x]> l).
Proof.
  intros Hi. unfold assign.
  replace ((0 <=? i) && (i <? len l)) with true
    by (symmetry; apply andb_true_iff; split; [apply Z.leb_le|apply Z.ltb_lt]; lia).
  reflexivity.
Qed.

Lemma make_is_Some {A} n (x : A) : 0 <= n → make n x = Some (replicate (Z.to_nat n) x).
Proof.
  intros Hn. unfold make. replace (n <? 0) with false by (symmetry; apply Z.ltb_ge; lia).
  reflexivity.
Qed.

Lemma idx_of_nat {A} (l : list A) (k : nat) : idx l (Z.of_nat k) = l !! k.
Proof.
  unfold idx. destruct (l !! k) as [x|] eqn:E.
  - pose proof (lookup_lt_Some _ _ _ E) as Hk.
    replace ((0 <=? Z.of_nat k) && (Z.of_nat k <? len l)) with true.
    + rewrite Nat2Z.id. exact E.
    + symmetry. apply andb_true_iff. split; [apply Z.leb_le|apply Z.ltb_lt]; unfold len; lia.
  - destruct ((0 <=? Z.of_nat k) && (Z.of_nat k <? len l)); [|reflexivity].
    rewrite Nat2Z.id. exact E.
Qed.

(** ** HashAll *)

Section HashAllFacts.

Variable Seed : Type.
Variable maphash_Bytes : Seed → bytes → Z.
Variable seed : Seed.

Abbreviation Hash' := (Hash Seed maphash_Bytes).
Abbreviation idh := (id_hash Seed maphash_Bytes seed).
Abbreviation exh := (ex_hash Seed maphash_Bytes seed).

Lemma Hash_hashes f : Hash' f seed = Some (idh f, exh f).
Proof.
  unfold id_hash, ex_hash. destruct (Hash_total Seed maphash_Bytes f seed) as [h ->].
  reflexivity.
Qed.

Lemma hash_one_ok files w i a b :
  0 <= i < len files → length a = length files → length b = length files →
  ∃ f, idx files i = Some f ∧
    hash_one Seed maphash_Bytes files seed w i (a, b)
    = Some (<[Z.to_nat i := idh f]> a, <[Z.to_nat i := exh f]> b).
Proof.
  intros Hi Ha Hb. unfold hash_one.
  destruct (idx_is_Some files i Hi) as [f0 Hf0]. exists f0. split; [exact Hf0|].
  rewrite Hf0. cbn [mbind option_bind]. rewrite Hash_hashes. cbn [mbind option_bind fst snd].
  rewrite !assign_is_Some by (unfold len in *; lia). reflexivity.
Qed.

Lemma hash_fold files tr :
  ∀ a b,
  length a = length files → length b = length files →
  (∀ p, p ∈ tr → 0 <= p.2 < len files) →
  ∃ a' b',
    foldM (λ s wi, hash_one Seed maphash_Bytes files seed wi.1 wi.2 s) (a, b) tr
      = Some (a', b') ∧
    length a' = length files ∧ length b' = length files ∧
    ∀ (k : nat) f, files !! k = Some f →
      (Z.of_nat k ∈ tr.*2 → a' !! k = Some (idh f) ∧ b' !! k = Some (exh f)) ∧
      (Z.of_nat k ∉ tr.*2 → a' !! k = a !! k ∧ b' !! k = b !! k).
Proof.
  induction tr as [|[w i] tr IH]; intros a b Ha Hb Hr.
  - exists a, b. split; [reflexivity|]. split; [exact Ha|]. split; [exact Hb|].
    intros k f Hk. split; [|auto]. intros Hin. apply elem_of_nil in Hin. contradiction.
  - cbn [foldM fst snd].
    assert (Hi : 0 <= i < len files) by (apply (Hr (w, i)); left).
    destruct (hash_one_ok files w i a b Hi Ha Hb) as (f0 & Hf0 & ->).
    cbn [mbind option_bind].
    destruct (IH (<[Z.to_nat i := idh f0]> a) (<[Z.to_nat i := exh f0]> b))
      as (a' & b' & Hfold & Ha' & Hb' & Hspec).
    { rewrite length_insert. exact Ha. }
    { rewrite length_insert. exact Hb. }
    { intros p Hp. apply Hr. right. exact Hp. }
    exists a', b'. split; [exact Hfold|]. split; [exact Ha'|]. split; [exact Hb'|].
    intros k f Hk. destruct (Hspec k f Hk) as [Hin Hout].
    destruct (decide (Z.of_nat k ∈ tr.*2)) as [Hd|Hd].
    + split; [intros _; apply Hin, Hd|]. intros Hn. exfalso. apply Hn. right. exact Hd.
    + destruct (Hout Hd) as [E1 E2].
      destruct (decide (Z.of_nat k = i)) as [Heq|Hne].
      * subst i. split; [|intros Hn; exfalso; apply Hn; left].
        intros _. rewrite E1, E2. rewrite Nat2Z.id.
        pose proof (lookup_lt_Some _ _ _ Hk) as Hlt.
        rewrite !list_lookup_insert_eq by lia.
        rewrite idx_of_nat in Hf0. rewrite Hk in Hf0. injection Hf0 as <-. auto.
      * split.
        -- intros Hn. simpl in Hn. apply elem_of_cons in Hn as [Hn|Hn]; [lia|contradiction].
        -- intros _. rewrite E1, E2. rewrite !list_lookup_insert_ne by lia. auto.
Qed.

(** Whatever the schedule of its goroutines, the fan-out of [HashAll]
    fills the two slices with the hashes of the files: the goroutines
    write disjoint indices. *)
Lemma hash_par sched files n chunk :
  1 <= chunk → len files <= Z.of_nat n * chunk →
  go_par sched (spawn n 0 chunk (len files)) (hash_one Seed maphash_Bytes files seed)
    (replicate (Z.to_nat (len files)) 0, replicate (Z.to_nat (len files)) 0)
  = Some (idh <$> files, exh <$> files).
Proof.
  intros Hc Hreach. pose proof (len_nonneg files) as Hlen. unfold go_par.
  destruct (hash_fold files (interleave sched (spawn n 0 chunk (len files)))
              (replicate (Z.to_nat (len files)) 0) (replicate (Z.to_nat (len files)) 0))
    as (a' & b' & -> & Ha' & Hb' & Hspec).
  { rewrite length_replicate. unfold len. lia. }
  { rewrite length_replicate. unfold len. lia. }
  { intros [w i] Hp. apply interleave_spawn_inv in Hp; [|lia]. simpl. lia. }
  f_equal.
  assert (Hall : ∀ (k : nat) f, files !! k = Some f →
            a' !! k = Some (idh f) ∧ b' !! k = Some (exh f)).
  { intros k f Hk. apply (Hspec k f Hk).
    pose proof (lookup_lt_Some _ _ _ Hk) as Hlt.
    destruct (interleave_spawn_covers (Z.of_nat k) sched n chunk (len files))
      as [w Hwk]; [lia| unfold len in *; lia |].
    apply list_elem_of_fmap. exists (w, Z.of_nat k). split; [reflexivity|exact Hwk]. }
  f_equal; apply list_eq; intros k; rewrite list_lookup_fmap;
    destruct (files !! k) as [f|] eqn:Ek; simpl;
    try (apply (Hall k f Ek));
    apply lookup_ge_None; apply lookup_ge_None in Ek; lia.
Qed.

Lemma HashAll_hashes files workers :
  1 <= workers →
  HashAll Seed maphash_Bytes files workers seed = Some (idh <$> files, exh <$> files).
Proof.
  intros Hw. unfold HashAll. pose proof (len_nonneg files) as Hlen.
  destruct (len files =? 0) eqn:E0.
  { apply Z.eqb_eq in E0. destruct files; [reflexivity|]. unfold len in E0. simpl in E0. lia. }
  apply Z.eqb_neq in E0.
  rewrite !make_is_Some by lia. cbn [mbind option_bind].
  destruct (chunk_size (len files) workers Hw Hlen) as (q & -> & Hq1 & Hq2 & _).
  cbn [mbind option_bind].
  apply hash_par; [exact Hq1|]. rewrite Z2Nat.id by lia. exact Hq2.
Qed.

End HashAllFacts.

(** ** Bits: shard selection, the exact flag, the claim bitset *)

Lemma land_mask_range h : 0 <= Z.land h shardMask < 256.
Proof.
  change shardMask with (Z.ones 8). rewrite Z.land_ones by lia.
  change (2 ^ 8) with 256. apply Z.mod_pos_bound. lia.
Qed.

Lemma flag_bit : ∀ n, 0 <= n → Z.testbit ExactFlag n = (63 =? n).
Proof.
  intros n Hn. unfold ExactFlag. rewrite Z.shiftl_1_l. apply Z.pow2_bits_eqb. lia.
Qed.

Lemma clear_flag_bit x : Z.testbit (clear_flag x) 63 = false.
Proof.
  unfold clear_flag. rewrite Z.ldiff_spec, flag_bit by lia. simpl. apply andb_false_r.
Qed.

Lemma lor_flag_bit x : Z.testbit (Z.lor x ExactFlag) 63 = true.
Proof. rewrite Z.lor_spec, flag_bit by lia. simpl. apply orb_true_r. Qed.

Lemma clear_ne_flagged x y : clear_flag x ≠ Z.lor y ExactFlag.
Proof.
  intros H. pose proof (clear_flag_bit x) as H1. rewrite H, lor_flag_bit in H1. discriminate.
Qed.

Lemma lor_flag_inj x y :
  Z.lor (clear_flag x) ExactFlag = Z.lor (clear_flag y) ExactFlag →
  clear_flag x = clear_flag y.
Proof.
  intros H. apply Z.bits_inj'. intros n Hn.
  destruct (Z.eq_dec n 63) as [->|Hne]; [rewrite !clear_flag_bit; reflexivity|].
  assert (Hb : Z.testbit (Z.lor (clear_flag x) ExactFlag) n
               = Z.testbit (Z.lor (clear_flag y) ExactFlag) n) by (rewrite H; reflexivity).
  rewrite !Z.lor_spec, flag_bit in Hb by lia.
  replace (63 =? n) with false in Hb by (symmetry; apply Z.eqb_neq; lia).
  rewrite !orb_false_r in Hb. exact Hb.
Qed.

Section TableFacts.

Variable Seed : Type.
Variable maphash_Bytes : Seed → bytes → Z.
Variable seed : Seed.

Abbreviation idh2 := (id_hash Seed maphash_Bytes seed).
Abbreviation exh2 := (ex_hash Seed maphash_Bytes seed).
Abbreviation shard_of' := (shard_of Seed maphash_Bytes seed).
Abbreviation id_key' := (id_key Seed maphash_Bytes seed).
Abbreviation ex_key' := (ex_key Seed maphash_Bytes seed).
Abbreviation table_ok' := (table_ok Seed maphash_Bytes seed).
Abbreviation has_exact' := (has_exact Seed maphash_Bytes seed).

Lemma id_key_clear c : ∃ y, id_key' c = clear_flag y.
Proof.
  unfold id_key, id_hash.
  destruct (Spans_total c) as (j & s & e & Hsp & _).
  destruct (Hash_Spans Seed maphash_Bytes c seed j s e Hsp) as (p & q & _ & _ & ->).
  unfold span_hash. destruct (0 <? e - s); eauto.
Qed.

Lemma id_key_ne_ex_key c c' : id_key' c ≠ ex_key' c'.
Proof.
  destruct (id_key_clear c) as [y ->]. unfold ex_key. apply clear_ne_flagged.
Qed.

Lemma ex_key_inj c c' : ex_key' c = ex_key' c' → exh2 c = exh2 c'.
Proof. unfold ex_key, ex_hash. apply lor_flag_inj. Qed.

Lemma shard_of_range c : 0 <= shard_of' c < 256.
Proof. apply land_mask_range. Qed.

Lemma table_ok_empty cur : table_ok' cur (replicate 256 ∅).
Proof.
  split; [apply length_replicate|].
  intros k m key v Hk Hm. apply lookup_replicate in Hk as [-> _].
  rewrite lookup_empty in Hm. discriminate.
Qed.

(** One iteration of phase 2. *)
Lemma populate_ok cur shards w i :
  len cur <= 2 ^ 32 → table_ok' cur shards → 0 <= i < len cur →
  ∃ c shards',
    idx cur i = Some c ∧
    populate (idh2 <$> cur) (exh2 <$> cur) w i shards = Some shards' ∧
    table_ok' cur shards' ∧ has_exact' shards' c ∧
    (∀ c', has_exact' shards c' → has_exact' shards' c').
Proof.
  intros Hbound [Hlen Htab] Hi.
  destruct (idx_is_Some cur i Hi) as [c Hc]. exists c.
  assert (Hlook : cur !! Z.to_nat i = Some c) by (apply idx_Some_inv in Hc; tauto).
  pose proof (shard_of_range c) as Hsh.
  destruct (lookup_lt_is_Some_2 shards (Z.to_nat (shard_of' c))) as [m Hm]; [lia|].
  unfold populate.
  rewrite !idx_lookup by (unfold len in *; rewrite ?length_fmap; lia).
  rewrite !list_lookup_fmap, Hlook. cbn [fmap option_fmap option_map mbind option_bind].
  fold (shard_of' c). rewrite idx_lookup by (unfold len; lia). rewrite Hm.
  cbn [mbind option_bind]. rewrite assign_is_Some by (unfold len; lia).
  eexists. split; [reflexivity|]. split; [reflexivity|].
  assert (Hu : u32 i = i) by (unfold u32; apply Z.mod_small; lia).
  rewrite Hu. fold (ex_key' c). fold (id_key' c).
  set (m1 := match m !! id_key' c with Some _ => m | None => <[id_key' c := i]> m end).
  assert (Hm1 : ∀ key v, m1 !! key = Some v →
            m !! key = Some v ∨ (key = id_key' c ∧ v = i)).
  { intros key v. subst m1. destruct (m !! id_key' c) eqn:E; [auto|].
    rewrite lookup_insert. case_decide; [|auto]. intros [= <-]. auto. }
  assert (Hm1' : ∀ key, is_Some (m !! key) → is_Some (m1 !! key)).
  { intros key Hk. subst m1. destruct (m !! id_key' c) eqn:E; [exact Hk|].
    rewrite lookup_insert. case_decide; [eauto|exact Hk]. }
  split; [|split].
  - split; [rewrite length_insert; exact Hlen|].
    intros k m' key v Hk Hkey.
    destruct (decide (k = Z.to_nat (shard_of' c))) as [->|Hne].
    + rewrite list_lookup_insert_eq in Hk by lia. injection Hk as <-.
      rewrite lookup_insert in Hkey. case_decide as Hd.
      * injection Hkey as <-. subst key. exists c. split; [exact Hc|]. split; [lia|auto].
      * apply Hm1 in Hkey as [Hold|[-> ->]]; [eapply Htab; eauto|].
        exists c. split; [exact Hc|]. split; [lia|auto].
    + rewrite list_lookup_insert_ne in Hk by lia. eapply Htab; eauto.
  - exists (<[ex_key' c := i]> m1). split.
    + apply list_lookup_insert_eq. lia.
    + rewrite lookup_insert_eq. eauto.
  - intros c' (m' & Hm' & Hkey).
    destruct (decide (Z.to_nat (shard_of' c') = Z.to_nat (shard_of' c))) as [Heq|Hne].
    + exists (<[ex_key' c := i]> m1). split.
      * rewrite Heq. apply list_lookup_insert_eq. lia.
      * rewrite Heq, Hm in Hm'. injection Hm' as <-.
        rewrite lookup_insert. case_decide; [eauto|]. apply Hm1'. exact Hkey.
    + exists m'. split; [|exact Hkey]. rewrite list_lookup_insert_ne by lia. exact Hm'.
Qed.

Lemma populate_fold cur tr :
  len cur <= 2 ^ 32 →
  ∀ shards,
  table_ok' cur shards →
  (∀ p, p ∈ tr → 0 <= p.2 < len cur) →
  ∃ shards',
    foldM (λ s wi, populate (idh2 <$> cur) (exh2 <$> cur) wi.1 wi.2 s) shards tr
      = Some shards' ∧
    table_ok' cur shards' ∧
    (∀ c', has_exact' shards c' → has_exact' shards' c') ∧
    (∀ p c, p ∈ tr → idx cur p.2 = Some c → has_exact' shards' c).
Proof.
  intros Hbound. induction tr as [|[w i] tr IH]; intros shards Htab Hr.
  - exists shards. split; [reflexivity|]. split; [exact Htab|]. split; [auto|].
    intros p c Hp. apply elem_of_nil in Hp. contradiction.
  - cbn [foldM fst snd].
    destruct (populate_ok cur shards w i Hbound Htab) as (c & sh1 & Hc & -> & Htab1 & Hex1 & Hmono1).
    { apply (Hr (w, i)). left. }
    cbn [mbind option_bind].
    destruct (IH sh1 Htab1) as (sh2 & Hfold & Htab2 & Hmono2 & Hall).
    { intros p Hp. apply Hr. right. exact Hp. }
    exists sh2. split; [exact Hfold|]. split; [exact Htab2|]. split; [auto|].
    intros p c' Hp Hc'. apply elem_of_cons in Hp as [->|Hp].
    + simpl in Hc'. rewrite Hc in Hc'. injection Hc' as <-. auto.
    + eapply Hall; eauto.
Qed.

End TableFacts.

(** ** The claim bitset *)

Lemma pow2_land w b :
  0 <= b → Z.land w (2 ^ b) = if Z.testbit w b then 2 ^ b else 0.
Proof.
  intros Hb. apply Z.bits_inj'. intros n Hn.
  rewrite Z.land_spec, Z.pow2_bits_eqb by lia.
  destruct (Z.eqb_spec b n) as [->|Hne].
  - destruct (Z.testbit w n) eqn:E; simpl.
    + rewrite Z.pow2_bits_true by lia. reflexivity.
    + rewrite Z.bits_0. reflexivity.
  - rewrite andb_false_r. destruct (Z.testbit w b).
    + rewrite Z.pow2_bits_false by lia. reflexivity.
    + rewrite Z.bits_0. reflexivity.
Qed.

Lemma bit_mask j :
  0 <= j → u64 (Z.shiftl 1 (Z.land j 63)) = 2 ^ (j mod 64) ∧ 0 <= j mod 64 < 64.
Proof.
  intros Hj. change 63 with (Z.ones 6). rewrite Z.land_ones by lia.
  change (2 ^ 6) with 64.
  pose proof (Z.mod_pos_bound j 64 ltac:(lia)) as Hm. split; [|exact Hm].
  rewrite Z.shiftl_1_l. unfold u64. apply Z.mod_small. split; [lia|].
  apply Z.pow_lt_mono_r; lia.
Qed.

Lemma land_bit_test w b :
  0 <= b → negb (Z.land w (2 ^ b) =? 0) = Z.testbit w b.
Proof.
  intros Hb. rewrite pow2_land by exact Hb. destruct (Z.testbit w b).
  - assert (0 < 2 ^ b) by (apply Z.pow_pos_nonneg; lia).
    replace (2 ^ b =? 0) with false by (symmetry; apply Z.eqb_neq; lia). reflexivity.
  - reflexivity.
Qed.

Lemma IsMarked_spec v j :
  0 <= j → j / 64 < len v → IsMarked v j = Some (marked v j).
Proof.
  intros Hj Hr. unfold IsMarked, marked. rewrite Z.shiftr_div_pow2 by lia.
  change (2 ^ 6) with 64. pose proof (Z.div_pos j 64 Hj ltac:(lia)) as Hq.
  rewrite idx_lookup by lia.
  destruct (v !! Z.to_nat (j / 64)) as [w|] eqn:E.
  - cbn [mbind option_bind]. destruct (bit_mask j Hj) as [-> Hb].
    rewrite land_bit_test by lia. reflexivity.
  - apply lookup_ge_None in E. unfold len in Hr. lia.
Qed.

Lemma TryMark_spec v j :
  0 <= j → j / 64 < len v →
  ∃ v', TryMark v j = Some (negb (marked v j), v') ∧ length v' = length v ∧
        (marked v j = true → v' = v) ∧
        ∀ j', 0 <= j' → marked v' j' = marked v j' || (j' =? j).
Proof.
  intros Hj Hr. unfold TryMark. rewrite Z.shiftr_div_pow2 by lia.
  change (2 ^ 6) with 64. pose proof (Z.div_pos j 64 Hj ltac:(lia)) as Hq.
  rewrite idx_lookup by lia.
  destruct (v !! Z.to_nat (j / 64)) as [w|] eqn:E.
  2:{ apply lookup_ge_None in E. unfold len in Hr. lia. }
  cbn [mbind option_bind]. destruct (bit_mask j Hj) as [-> Hb].
  rewrite land_bit_test by lia.
  assert (Hmk : marked v j = Z.testbit w (j mod 64)) by (unfold marked; rewrite E; reflexivity).
  rewrite <- Hmk. destruct (marked v j) eqn:Em; cbn [negb].
  - exists v. split; [reflexivity|]. split; [reflexivity|]. split; [reflexivity|].
    intros j' Hj'. destruct (Z.eqb_spec j' j) as [->|Hne].
    + rewrite Em. reflexivity.
    + rewrite orb_false_r. reflexivity.
  - rewrite assign_is_Some by lia. cbn [mbind option_bind].
    eexists. split; [reflexivity|]. split; [apply length_insert|].
    split; [discriminate|].
    intros j' Hj'. unfold marked.
    pose proof (Z.div_pos j' 64 Hj' ltac:(lia)) as Hq'.
    destruct (decide (Z.to_nat (j' / 64) = Z.to_nat (j / 64))) as [Heq|Hne].
    + rewrite Heq, list_lookup_insert_eq by (unfold len in Hr; lia). rewrite E.
      rewrite Z.lor_spec, Z.pow2_bits_eqb by lia.
      pose proof (Z.div_mod j 64 ltac:(lia)) as D1.
      pose proof (Z.div_mod j' 64 ltac:(lia)) as D2.
      assert (Hqq : j' / 64 = j / 64) by lia.
      f_equal. destruct (Z.eqb_spec j' j) as [->|Hn].
      * apply Z.eqb_refl.
      * apply Z.eqb_neq. lia.
    + rewrite list_lookup_insert_ne by lia.
      replace (j' =? j) with false; [rewrite orb_false_r; reflexivity|].
      symmetry. apply Z.eqb_neq. intros ->. contradiction.
Qed.

Lemma marked_zero n j : marked (replicate n 0) j = false.
Proof.
  unfold marked. destruct (replicate n 0 !! Z.to_nat (j / 64)) as [w|] eqn:E; [|reflexivity].
  apply lookup_replicate in E as [-> _]. apply Z.bits_0.
Qed.

(** An index below [n] falls inside the [(n + 63) >> 6] words. *)
Lemma word_in_range n j : 0 <= j < n → j / 64 < Z.shiftr (n + 63) 6.
Proof.
  intros Hj. rewrite Z.shiftr_div_pow2 by lia. change (2 ^ 6) with 64.
  pose proof (Z.div_mod j 64 ltac:(lia)) as D1.
  pose proof (Z.mod_pos_bound j 64 ltac:(lia)) as M1.
  pose proof (Z.div_mod (n + 63) 64 ltac:(lia)) as D2.
  pose proof (Z.mod_pos_bound (n + 63) 64 ltac:(lia)) as M2.
  lia.
Qed.

(** ** Phase 3, one iteration *)

Section Classify.

Variable Seed : Type.
Variable maphash_Bytes : Seed → bytes → Z.
Variable seed : Seed.
Variables old cur : list bytes.
Variable shards : list (gmap Z Z).

Hypothesis old_bound : len old <= 2 ^ 32.
Hypothesis shards_ok : table_ok Seed maphash_Bytes seed cur shards.

Abbreviation idh3 := (id_hash Seed maphash_Bytes seed).
Abbreviation exh3 := (ex_hash Seed maphash_Bytes seed).
Abbreviation shard_of3 := (shard_of Seed maphash_Bytes seed).
Abbreviation id_key3 := (id_key Seed maphash_Bytes seed).
Abbreviation ex_key3 := (ex_key Seed maphash_Bytes seed).

Lemma probe_exact_ok tbl k key i o v :
  shards !! k = Some tbl → idx old i = Some o →
  len v = Z.shiftr (len cur + 63) 6 →
  ∃ r, probe_exact old cur tbl key i v = Some r ∧
    match r with
    | Some (m, v') =>
        tbl !! key = Some m ∧ idx cur m = Some o ∧ marked v m = false ∧
        length v' = length v ∧ ∀ j, 0 <= j → marked v' j = marked v j || (j =? m)
    | None =>
        ∀ m, tbl !! key = Some m → idx cur m = Some o → marked v m = true
    end.
Proof.
  intros Htbl Ho Hv. unfold probe_exact.
  destruct (tbl !! key) as [m|] eqn:Ekey.
  2:{ exists None. split; [reflexivity|]. intros m Hm. discriminate. }
  destruct shards_ok as [_ Htab].
  destruct (Htab k tbl key m Htbl Ekey) as (c & Hc & _ & _).
  rewrite Ho, Hc. cbn [mbind option_bind].
  case_bool_decide as Eoc.
  2:{ exists None. split; [reflexivity|]. intros m' [= <-] Hc'. congruence. }
  subst c. pose proof (idx_Some_inv _ _ _ Hc) as [Hm _].
  destruct (TryMark_spec v m) as (v' & Htm & Hlen & _ & Hbits);
    [lia|rewrite Hv; apply word_in_range; lia|].
  rewrite Htm. cbn [mbind option_bind].
  destruct (marked v m) eqn:Em; cbn [negb].
  - exists None. split; [reflexivity|]. intros m' [= <-] _. exact Em.
  - exists (Some (m, v')). split; [reflexivity|]. auto.
Qed.

Lemma probe_identity_ok tbl k key i o v :
  shards !! k = Some tbl → idx old i = Some o →
  len v = Z.shiftr (len cur + 63) 6 →
  ∃ r, probe_identity old cur tbl key i v = Some r ∧
    match r with
    | Some (m, v') =>
        tbl !! key = Some m ∧ (∃ c, idx cur m = Some c ∧ Equal o c = Some true) ∧
        marked v m = false ∧
        length v' = length v ∧ ∀ j, 0 <= j → marked v' j = marked v j || (j =? m)
    | None => True
    end.
Proof.
  intros Htbl Ho Hv. unfold probe_identity.
  destruct (tbl !! key) as [m|] eqn:Ekey.
  2:{ exists None. split; [reflexivity|exact I]. }
  destruct shards_ok as [_ Htab].
  destruct (Htab k tbl key m Htbl Ekey) as (c & Hc & _ & _).
  pose proof (idx_Some_inv _ _ _ Hc) as [Hm _].
  rewrite IsMarked_spec by (try rewrite Hv; try apply word_in_range; lia).
  cbn [mbind option_bind].
  destruct (marked v m) eqn:Em.
  { exists None. split; [reflexivity|exact I]. }
  rewrite Ho, Hc. cbn [mbind option_bind].
  destruct (Equal_total o c) as [b Hb]. rewrite Hb. cbn [mbind option_bind].
  destruct b.
  2:{ exists None. split; [reflexivity|exact I]. }
  destruct (TryMark_spec v m) as (v' & Htm & Hlen & _ & Hbits);
    [lia|rewrite Hv; apply word_in_range; lia|].
  rewrite Htm, Em. cbn [mbind option_bind negb].
  exists (Some (m, v')). split; [reflexivity|]. eauto 10.
Qed.

(** The classification of [old[i]] never fails; it yields one entry for
    index [i], whose status is not [Added], and it takes the exact match
    whenever the exact probe finds an unclaimed equal name. *)
Lemma classify_ok i v :
  0 <= i < len old → len v = Z.shiftr (len cur + 63) 6 →
  ∃ o tbl e s v',
    idx old i = Some o ∧ shards !! Z.to_nat (shard_of3 o) = Some tbl ∧
    classify old cur (idh3 <$> old) (exh3 <$> old) shards i v = Some (e, s, v') ∧
    length v' = length v ∧ Old e = i ∧ EStatus e = ord s ∧ entry_ok old cur e ∧
    ((s = Unchanged ∧ tbl !! ex_key3 o = Some (New e) ∧ marked v (New e) = false ∧
        ∀ j, 0 <= j → marked v' j = marked v j || (j =? New e)) ∨
     ((∀ m, tbl !! ex_key3 o = Some m → idx cur m = Some o → marked v m = true) ∧
      ((s = Updated ∧ marked v (New e) = false ∧
          ∀ j, 0 <= j → marked v' j = marked v j || (j =? New e)) ∨
       (s = Removed ∧ v' = v)))).
Proof.
  intros Hi Hv.
  destruct (idx_is_Some old i Hi) as [o Ho].
  assert (Hlook : old !! Z.to_nat i = Some o) by (apply idx_Some_inv in Ho; tauto).
  pose proof (shard_of_range Seed maphash_Bytes seed o) as Hsh.
  destruct shards_ok as [Hlen _].
  destruct (lookup_lt_is_Some_2 shards (Z.to_nat (shard_of3 o))) as [tbl Htbl]; [lia|].
  exists o, tbl. unfold classify.
  rewrite !idx_lookup by (unfold len in *; rewrite ?length_fmap; lia).
  rewrite !list_lookup_fmap, Hlook. cbn [fmap option_fmap option_map mbind option_bind].
  fold (shard_of3 o). rewrite idx_lookup by (unfold len; lia). rewrite Htbl.
  cbn [mbind option_bind].
  assert (Hu : u32 i = i) by (unfold u32; apply Z.mod_small; lia). rewrite Hu.
  fold (ex_key3 o). fold (id_key3 o).
  destruct (probe_exact_ok tbl _ (ex_key3 o) i o v Htbl Ho Hv) as (r & -> & Hr).
  cbn [mbind option_bind]. destruct r as [[m v']|].
  { destruct Hr as (Hkey & Hc & Hm & Hl & Hbits).
    eexists _, _, _. split; [reflexivity|]. split; [reflexivity|]. split; [reflexivity|].
    split; [exact Hl|]. split; [reflexivity|]. split; [reflexivity|]. split.
    - left. split; [reflexivity|]. exists o. simpl. auto.
    - left. simpl. auto. }
  destruct (probe_identity_ok tbl _ (id_key3 o) i o v Htbl Ho Hv) as (r & -> & Hr2).
  cbn [mbind option_bind]. destruct r as [[m v']|].
  - destruct Hr2 as (Hkey & (c & Hc & Heq) & Hm & Hl & Hbits).
    eexists _, _, _. split; [reflexivity|]. split; [reflexivity|]. split; [reflexivity|].
    split; [exact Hl|]. split; [reflexivity|]. split; [reflexivity|]. split.
    + right. left. split; [reflexivity|]. exists o, c. simpl. auto.
    + right. split; [exact Hr|]. left. simpl. auto.
  - eexists _, _, _. split; [reflexivity|]. split; [reflexivity|]. split; [reflexivity|].
    split; [reflexivity|]. split; [reflexivity|]. split; [reflexivity|]. split.
    + right. right. split; reflexivity.
    + right. split; [exact Hr|]. right. auto.
Qed.

End Classify.

Lemma tally_nil s : tally s [] = 0.
Proof. reflexivity. Qed.

Lemma tally_app s es1 es2 : tally s (es1 ++ es2) = tally s es1 + tally s es2.
Proof. unfold tally, len. rewrite filter_app, length_app. lia. Qed.

Lemma tally_one s e : tally s [e] = if decide (Z.land (EStatus e) 255 = s) then 1 else 0.
Proof.
  unfold tally. rewrite filter_cons, filter_nil.
  destruct (decide (Z.land (EStatus e) 255 = s)); reflexivity.
Qed.

Lemma tally_range s es : 0 <= tally s es <= len es.
Proof.
  unfold tally, len. pose proof (length_filter (λ e, Z.land (EStatus e) 255 = s) es). lia.
Qed.

Lemma u32_succ a : u32 (u32 a + 1) = u32 (a + 1).
Proof. unfold u32. apply Z.add_mod_idemp_l. lia. Qed.

Lemma emit_ok w e s v results counts es c :
  results !! w = Some es → counts !! w = Some c → worker_ok es c →
  EStatus e = ord s → s ≠ Added →
  ∃ c', emit w e s v results counts
          = Some (v, <[w := es ++ [e]]> results, <[w := c']> counts) ∧
        worker_ok (es ++ [e]) c'.
Proof.
  intros Hes Hc Hok Hst Hs. unfold emit. rewrite Hes, Hc. cbn [mbind option_bind].
  unfold worker_ok in *. subst c.
  destruct s; [| | |contradiction]; simpl in Hst;
    (eexists; split; [reflexivity|]);
    rewrite !tally_app, !tally_one, Hst; simpl;
    rewrite ?u32_succ, ?Z.add_0_r; reflexivity.
Qed.

(** ** Phase 3, all iterations *)

Section Phase3.

Variable Seed : Type.
Variable maphash_Bytes : Seed → bytes → Z.
Variable seed : Seed.
Variables old cur : list bytes.
Variable shards : list (gmap Z Z).

Hypothesis old_bound : len old <= 2 ^ 32.
Hypothesis shards_ok : table_ok Seed maphash_Bytes seed cur shards.

Abbreviation classify' :=
  (classify old cur (id_hash Seed maphash_Bytes seed <$> old)
     (ex_hash Seed maphash_Bytes seed <$> old) shards).
Abbreviation reconcile' :=
  (reconcile old cur (id_hash Seed maphash_Bytes seed <$> old)
     (ex_hash Seed maphash_Bytes seed <$> old) shards).

(** [J done v] is an invariant of the bitset [v] once the indices [done]
    have been classified; [P] is what it guarantees of every entry. *)
Variable J : list Z → list Z → Prop.
Variable P : Entry → Prop.

Hypothesis step :
  ∀ done i v e s v',
    J done v → i ∉ done → 0 <= i < len old →
    len v = Z.shiftr (len cur + 63) 6 →
    classify' i v = Some (e, s, v') → P e ∧ J (i :: done) v'.

Lemma reconcile_step w i v rs cs e s v1 :
  classify' i v = Some (e, s, v1) → reconcile' w i (v, rs, cs) = emit w e s v1 rs cs.
Proof. intros H. unfold reconcile. rewrite H. reflexivity. Qed.

Lemma reconcile_fold tr :
  ∀ done v rs cs,
    len v = Z.shiftr (len cur + 63) 6 → length cs = length rs →
    (∀ w es c, rs !! w = Some es → cs !! w = Some c → worker_ok es c) →
    (∀ p, p ∈ tr → 0 <= p.2 < len old ∧ (p.1 < length rs)%nat) →
    NoDup (tr.*2 ++ done) → J done v →
    ∃ v' rs' cs',
      foldM (λ s wi, reconcile' wi.1 wi.2 s) (v, rs, cs) tr = Some (v', rs', cs') ∧
      len v' = Z.shiftr (len cur + 63) 6 ∧
      length rs' = length rs ∧ length cs' = length rs ∧
      (∀ w es c, rs' !! w = Some es → cs' !! w = Some c → worker_ok es c) ∧
      J (rev tr.*2 ++ done) v' ∧
      ∀ w es, rs !! w = Some es →
        ∃ new, rs' !! w = Some (es ++ new) ∧ Old <$> new = run_of w tr ∧
               Forall (λ e, P e ∧ entry_ok old cur e) new.
Proof.
  induction tr as [|[w i] tr IH]; intros done v rs cs Hv Hcs Hwk Hr Hnd HJ.
  - exists v, rs, cs. split; [reflexivity|]. split; [exact Hv|]. split; [reflexivity|].
    split; [exact Hcs|]. split; [exact Hwk|]. split; [exact HJ|].
    intros w es Hes. exists []. rewrite app_nil_r. split; [exact Hes|]. split; constructor.
  - cbn [foldM fst snd].
    destruct (Hr (w, i)) as [Hi Hw]; [left|]. simpl in Hi, Hw.
    destruct (classify_ok Seed maphash_Bytes seed old cur shards old_bound shards_ok i v Hi Hv)
      as (o & tbl & e & s & v1 & Ho & Htbl & Hcl & Hl1 & Hold & Hst & Hok & Hcase).
    assert (Hs : s ≠ Added).
    { destruct Hcase as [[-> _]|[_ [[-> _]|[-> _]]]]; discriminate. }
    destruct (lookup_lt_is_Some_2 rs w Hw) as [es Hes].
    destruct (lookup_lt_is_Some_2 cs w) as [c Hc]; [lia|].
    destruct (emit_ok w e s v1 rs cs es c Hes Hc (Hwk w es c Hes Hc) Hst Hs) as (c' & Hem & Hok').
    rewrite (reconcile_step w i v rs cs e s v1 Hcl), Hem.
    cbn [mbind option_bind].
    rewrite fmap_cons in Hnd. cbn [snd app] in Hnd.
    apply NoDup_cons in Hnd as [Hnotin Hnd'].
    destruct (step done i v e s v1 HJ) as [HP HJ1]; [| exact Hi | exact Hv | exact Hcl |].
    { intros Hin. apply Hnotin. apply elem_of_app. right. exact Hin. }
    destruct (IH (i :: done) v1 (<[w := es ++ [e]]> rs) (<[w := c']> cs))
      as (v' & rs' & cs' & Hfold & Hv' & Hlr & Hlc & Hwk' & HJ' & Hnew).
    { unfold len in *. rewrite Hl1. exact Hv. }
    { rewrite !length_insert. exact Hcs. }
    { intros w0 es0 c0 H1 H2. destruct (decide (w0 = w)) as [->|Hne].
      - rewrite list_lookup_insert_eq in H1 by lia.
        rewrite list_lookup_insert_eq in H2 by lia. congruence.
      - rewrite list_lookup_insert_ne in H1 by lia.
        rewrite list_lookup_insert_ne in H2 by lia. eauto. }
    { intros p Hp. rewrite length_insert. apply Hr. right. exact Hp. }
    { apply NoDup_app. split; [apply NoDup_app in Hnd'; tauto|]. split.
      - intros x Hx Hx'. apply elem_of_cons in Hx' as [->|Hx'].
        + apply Hnotin. apply elem_of_app. left. exact Hx.
        + apply NoDup_app in Hnd' as (_ & Hd & _). exact (Hd x Hx Hx').
      - apply NoDup_cons. split.
        + intros Hin. apply Hnotin. apply elem_of_app. right. exact Hin.
        + apply NoDup_app in Hnd'; tauto. }
    { exact HJ1. }
    exists v', rs', cs'. split; [exact Hfold|]. split; [exact Hv'|].
    rewrite length_insert in Hlr, Hlc.
    split; [exact Hlr|]. split; [exact Hlc|]. split; [exact Hwk'|]. split.
    { cbn [fmap list_fmap rev]. cbn [snd]. rewrite <- app_assoc. exact HJ'. }
    intros w0 es0 Hes0. rewrite run_of_cons. cbn [fst snd].
    destruct (decide (w = w0)) as [<-|Hne].
    + destruct (Hnew w (es ++ [e])) as (new & Hrs' & Hold' & Hall).
      { apply list_lookup_insert_eq. lia. }
      rewrite Hes in Hes0. injection Hes0 as <-.
      exists (e :: new). rewrite <- app_assoc in Hrs'. split; [exact Hrs'|]. split.
      * cbn [fmap list_fmap]. f_equal; [exact Hold|exact Hold'].
      * constructor; [split; [exact HP|exact Hok]|exact Hall].
    + destruct (Hnew w0 es0) as (new & Hrs' & Hold' & Hall).
      { rewrite list_lookup_insert_ne by exact Hne. exact Hes0. }
      exists new. auto.
Qed.

End Phase3.

(** ** No index is run twice *)

Lemma NoDup_zrange lo hi : NoDup (zrange lo hi).
Proof.
  unfold zrange. apply NoDup_fmap_2; [|apply NoDup_seq].
  intros a b H. lia.
Qed.

Lemma NoDup_by_runs (tr : list (nat * Z)) :
  (∀ w, NoDup (run_of w tr)) →
  (∀ w w' i, (w, i) ∈ tr → (w', i) ∈ tr → w = w') →
  NoDup tr.*2.
Proof.
  induction tr as [|[w i] tr IH]; intros Hruns Hown; [constructor|].
  rewrite fmap_cons. cbn [snd]. apply NoDup_cons. split.
  - intros Hin. apply list_elem_of_fmap in Hin as ([w' i'] & Hi' & Hin). simpl in Hi'. subst i'.
    assert (w = w') as <- by (apply (Hown w w' i); [left|right; exact Hin]).
    specialize (Hruns w). rewrite run_of_cons in Hruns. simpl in Hruns.
    rewrite decide_True in Hruns by reflexivity.
    apply NoDup_cons in Hruns as [Hn _]. apply Hn. apply run_of_elem. exact Hin.
  - apply IH.
    + intros w0. specialize (Hruns w0). rewrite run_of_cons in Hruns.
      destruct (decide ((w, i).1 = w0)); [apply NoDup_cons in Hruns; tauto|exact Hruns].
    + intros w1 w2 j H1 H2. apply (Hown w1 w2 j); right; assumption.
Qed.

Lemma interleave_spawn_NoDup sched n chunk total :
  1 <= chunk → NoDup (interleave sched (spawn n 0 chunk total)).*2.
Proof.
  intros Hc. apply NoDup_by_runs.
  - intros w. rewrite run_of_interleave.
    destruct (spawn n 0 chunk total !! w) as [[lo hi]|]; simpl;
      [apply NoDup_zrange|constructor].
  - intros w w' i H1 H2.
    apply interleave_spawn_inv in H1 as (_ & _ & H1); [|exact Hc].
    apply interleave_spawn_inv in H2 as (_ & _ & H2); [|exact Hc].
    nia.
Qed.

(** ** Phase 4 *)

Lemma unclaimed_cons v i l :
  unclaimed v (i :: l) = if marked v i then unclaimed v l else i :: unclaimed v l.
Proof.
  unfold unclaimed. rewrite filter_cons.
  destruct (marked v i); [rewrite decide_False by discriminate|rewrite decide_True by reflexivity];
    reflexivity.
Qed.

Lemma detect_fold (cur : list bytes) v tr :
  len cur <= 2 ^ 32 → len v = Z.shiftr (len cur + 63) 6 →
  ∀ adds,
    (∀ p, p ∈ tr → 0 <= p.2 < len cur ∧ (p.1 < length adds)%nat) →
    ∃ adds',
      foldM (λ s wi, detect v wi.1 wi.2 s) adds tr = Some adds' ∧
      length adds' = length adds ∧
      ∀ w es, adds !! w = Some es →
        adds' !! w = Some (es ++ (added_entry <$> unclaimed v (run_of w tr))).
Proof.
  intros Hb Hv. induction tr as [|[w i] tr IH]; intros adds Hr.
  - exists adds. split; [reflexivity|]. split; [reflexivity|].
    intros w es Hes. rewrite run_of_nil. simpl. rewrite app_nil_r. exact Hes.
  - cbn [foldM fst snd].
    destruct (Hr (w, i)) as [Hi Hw]; [left|]. simpl in Hi, Hw.
    assert (Hu : u32 i = i) by (unfold u32; apply Z.mod_small; lia).
    assert (Hstep : detect v w i adds =
              Some (if marked v i then adds
                    else match adds !! w with
                         | Some es => <[w := es ++ [added_entry i]]> adds
                         | None => adds
                         end)).
    { unfold detect. rewrite Hu.
      rewrite IsMarked_spec by (try rewrite Hv; try apply word_in_range; lia).
      cbn [mbind option_bind]. destruct (marked v i); [reflexivity|].
      destruct (lookup_lt_is_Some_2 adds w Hw) as [es ->]. reflexivity. }
    rewrite Hstep. cbn [mbind option_bind].
    destruct (lookup_lt_is_Some_2 adds w Hw) as [es0 Hes0]. rewrite Hes0.
    set (adds1 := if marked v i then adds else <[w := es0 ++ [added_entry i]]> adds).
    assert (Hl1 : length adds1 = length adds).
    { subst adds1. destruct (marked v i); [reflexivity|apply length_insert]. }
    destruct (IH adds1) as (adds' & Hfold & Hlen & Hspec).
    { intros p Hp. rewrite Hl1. apply Hr. right. exact Hp. }
    exists adds'. split; [exact Hfold|]. split; [lia|].
    intros w0 es Hes. rewrite run_of_cons. cbn [fst snd].
    destruct (decide (w = w0)) as [<-|Hne].
    + rewrite Hes0 in Hes. injection Hes as <-. rewrite unclaimed_cons.
      subst adds1. destruct (marked v i).
      * apply Hspec. exact Hes0.
      * rewrite (Hspec w (es0 ++ [added_entry i])) by (apply list_lookup_insert_eq; lia).
        rewrite <- app_assoc. reflexivity.
    + apply Hspec. subst adds1. destruct (marked v i); [exact Hes|].
      rewrite list_lookup_insert_ne by exact Hne. exact Hes.
Qed.

(** The result of phase 4 does not depend on the order in which its
    goroutines run: they only read the bitset and write their own
    buffer. *)
Lemma detect_par_any_schedule (cur : list bytes) v sched n chunk (W : nat) :
  len cur <= 2 ^ 32 → len v = Z.shiftr (len cur + 63) 6 → 1 <= chunk → (n ≤ W)%nat →
  go_par sched (spawn n 0 chunk (len cur)) (detect v) (replicate W [])
  = go_par [] (spawn n 0 chunk (len cur)) (detect v) (replicate W []).
Proof.
  intros Hb Hv Hc Hn. unfold go_par.
  assert (Hvalid : ∀ s p, p ∈ interleave s (spawn n 0 chunk (len cur)) →
            0 <= p.2 < len cur ∧ (p.1 < length (replicate W ([] : list Entry)))%nat).
  { intros s [w i] Hp. apply interleave_spawn_inv in Hp; [|exact Hc].
    rewrite length_replicate. simpl. lia. }
  destruct (detect_fold cur v (interleave sched (spawn n 0 chunk (len cur))) Hb Hv
              (replicate W []) (Hvalid sched)) as (a1 & -> & Hl1 & H1).
  destruct (detect_fold cur v (interleave [] (spawn n 0 chunk (len cur))) Hb Hv
              (replicate W []) (Hvalid [])) as (a2 & -> & Hl2 & H2).
  f_equal. apply list_eq. intros w.
  rewrite length_replicate in Hl1, Hl2.
  destruct (decide (w < W)%nat) as [Hw|Hw].
  - rewrite (H1 w []), (H2 w []) by (apply lookup_replicate; split; [reflexivity|exact Hw]).
    rewrite !run_of_interleave. reflexivity.
  - rewrite !(proj2 (lookup_ge_None _ _)) by lia. reflexivity.
Qed.

(** ** Phase 5 *)

Lemma u32_add a b : u32 (u32 a + u32 b) = u32 (a + b).
Proof. unfold u32. symmetry. apply Z.add_mod. lia. Qed.

Lemma u32_add_r a b : u32 (u32 a + b) = u32 (a + b).
Proof. unfold u32. apply Z.add_mod_idemp_l. lia. Qed.

Lemma merge_results_ok results :
  ∀ counts E0 a0 a1 a2 a3 (k : nat),
    (∀ j es, results !! j = Some es →
       ∃ c, counts !! (k + j)%nat = Some c ∧ worker_ok es c) →
    merge_results {| E := E0; C := [u32 a0; u32 a1; u32 a2; a3] |} results counts
      (Z.of_nat k)
    = Some {| E := E0 ++ concat results;
              C := [u32 (a0 + tally 0 (concat results));
                    u32 (a1 + tally 1 (concat results));
                    u32 (a2 + tally 2 (concat results)); a3] |}.
Proof.
  induction results as [|es results IH]; intros counts E0 a0 a1 a2 a3 k Hc.
  - simpl. rewrite app_nil_r, !tally_nil, !Z.add_0_r. reflexivity.
  - cbn [merge_results]. destruct (Hc O es) as (c & Hck & Hok); [reflexivity|].
    rewrite idx_of_nat. replace (k + 0)%nat with k in Hck by lia. rewrite Hck.
    cbn [mbind option_bind]. unfold worker_ok in Hok. subst c.
    change (add_counts (C {| E := E0; C := [u32 a0; u32 a1; u32 a2; a3] |})
              [u32 (tally 0 es); u32 (tally 1 es); u32 (tally 2 es)])
      with (Some [u32 (u32 a0 + u32 (tally 0 es)); u32 (u32 a1 + u32 (tally 1 es));
                  u32 (u32 a2 + u32 (tally 2 es)); a3]).
    cbn [mbind option_bind E]. rewrite !u32_add.
    replace (Z.of_nat k + 1) with (Z.of_nat (S k)) by lia.
    rewrite IH.
    + cbn [concat]. rewrite !tally_app, <- app_assoc, !Z.add_assoc. reflexivity.
    + intros j es' Hj. destruct (Hc (S j) es' Hj) as (c & Hcj & Hcok).
      exists c. split; [|exact Hcok]. replace (S k + j)%nat with (k + S j)%nat by lia. exact Hcj.
Qed.

Lemma merge_additions_ok additions :
  ∀ E0 c0 c1 c2 a3,
    merge_additions {| E := E0; C := [c0; c1; c2; u32 a3] |} additions
    = Some {| E := E0 ++ concat additions;
              C := [c0; c1; c2; u32 (a3 + len (concat additions))] |}.
Proof.
  induction additions as [|es additions IH]; intros E0 c0 c1 c2 a3.
  - simpl. rewrite app_nil_r, Z.add_0_r. reflexivity.
  - cbn [merge_additions].
    change (idx (C {| E := E0; C := [c0; c1; c2; u32 a3] |}) (ord Added)) with (Some (u32 a3)).
    cbn [mbind option_bind].
    change (assign (C {| E := E0; C := [c0; c1; c2; u32 a3] |}) (ord Added)
              (u32 (u32 a3 + u32 (len es))))
      with (Some [c0; c1; c2; u32 (u32 a3 + u32 (len es))]).
    cbn [mbind option_bind E]. rewrite u32_add, IH.
    cbn [concat]. unfold len. rewrite length_app, <- app_assoc.
    rewrite Nat2Z.inj_add, Z.add_assoc. reflexivity.
Qed.

(** ** The whole run *)

Lemma concat_workers {A} (g : list Z → list A) (ls : list (list A)) :
  g [] = [] → (∀ a b, g (a ++ b) = g a ++ g b) →
  ∀ ts : list task,
    (length ts ≤ length ls)%nat →
    (∀ w l, ls !! w = Some l → l = g (task_range (ts !! w))) →
    concat ls = g (concat (map (λ t : task, zrange t.1 t.2) ts)).
Proof.
  intros Hnil Happ. induction ls as [|l ls IH]; intros ts Hlen Hl.
  - destruct ts; [|simpl in Hlen; lia]. simpl. symmetry. exact Hnil.
  - destruct ts as [|[lo hi] ts].
    + cbn [map concat].
      rewrite (Hl O l eq_refl). cbn [lookup list_lookup task_range].
      rewrite (IH []); [simpl; rewrite !Hnil; reflexivity|simpl; lia|].
      intros w l' Hw. rewrite (Hl (S w) l' Hw). reflexivity.
    + cbn [map concat fst snd]. rewrite Happ.
      rewrite (Hl O l eq_refl). cbn [lookup list_lookup task_range]. f_equal.
      apply IH; [simpl in Hlen; lia|].
      intros w l' Hw. rewrite (Hl (S w) l' Hw). reflexivity.
Qed.

Lemma u32_small x : 0 <= x < 2 ^ 32 → u32 x = x.
Proof. intros H. unfold u32. apply Z.mod_small. exact H. Qed.

Lemma lor_lengths_nonzero (a b : Z) : 0 <= a → 0 <= b → 0 < a + b → (Z.lor a b =? 0) = false.
Proof.
  intros Ha Hb Hab. apply Z.eqb_neq. intros H. apply Z.lor_eq_0_iff in H. lia.
Qed.

Section Run.

Variable Seed : Type.
Variable maphash_Bytes : Seed → bytes → Z.
Variable seed : Seed.
Variables old cur : list bytes.
Variable workers : Z.
Variables sched2 sched3 : list nat.

Hypothesis workers_pos : 1 <= workers.
Hypothesis old_bound : len old < 2 ^ 32.
Hypothesis cur_bound : len cur < 2 ^ 32.

Variable J : list Z → list Z → Prop.
Variable P : Entry → Prop.

Hypothesis step :
  ∀ shards,
    table_ok Seed maphash_Bytes seed cur shards →
    (∀ i c, idx cur i = Some c → has_exact Seed maphash_Bytes seed shards c) →
    ∀ done i v e s v',
      J done v → i ∉ done → 0 <= i < len old →
      len v = Z.shiftr (len cur + 63) 6 →
      classify old cur (id_hash Seed maphash_Bytes seed <$> old)
        (ex_hash Seed maphash_Bytes seed <$> old) shards i v = Some (e, s, v') →
      P e ∧ J (i :: done) v'.

Hypothesis J_init : J [] (replicate (Z.to_nat (Z.shiftr (len cur + 63) 6)) 0).

Lemma diffP_run :
  0 < len old + len cur →
  ∃ r rs adds v,
    diffP Seed maphash_Bytes seed old cur workers sched2 sched3 = Some r ∧
    E r = concat rs ++ concat adds ∧
    C r = [tally 0 (concat rs); tally 1 (concat rs); tally 2 (concat rs);
           len (concat adds)] ∧
    length rs = Z.to_nat workers ∧ length adds = Z.to_nat workers ∧
    (∀ w es, rs !! w = Some es →
       Old <$> es = task_range (tasks3 old cur workers !! w) ∧
       Forall (λ e, P e ∧ entry_ok old cur e) es) ∧
    (∀ w es, adds !! w = Some es →
       es = added_entry <$> unclaimed v (task_range (tasks4 cur workers !! w))) ∧
    Old <$> concat rs = zrange 0 (visited old cur workers) ∧
    concat adds = added_entry <$> unclaimed v (zrange 0 (len cur)) ∧
    J (rev (interleave sched3 (tasks3 old cur workers)).*2) v.
Proof.
  intros not_both_empty.
  pose proof (len_nonneg old) as Hold0. pose proof (len_nonneg cur) as Hcur0.
  unfold diffP. rewrite lor_lengths_nonzero by lia.
  rewrite !HashAll_hashes by exact workers_pos. cbn [mbind option_bind].
  rewrite (make_is_Some numShards) by (vm_compute; discriminate).
  cbn [mbind option_bind].
  destruct (chunk_size (len cur) workers workers_pos Hcur0) as (q & Hq & Hq1 & Hq2 & Hq3).
  rewrite Hq. cbn [mbind option_bind]. fold (chunk_of (len cur) workers) in Hq3.
  rewrite Hq3 in *. clear Hq3.
  fold (tasks3 old cur workers). fold (tasks4 cur workers).
  set (chunk := chunk_of (len cur) workers) in *.
  (* phase 2 *)
  unfold go_par.
  destruct (populate_fold Seed maphash_Bytes seed cur (interleave sched2 (tasks4 cur workers))
              ltac:(lia) (replicate 256 ∅) (table_ok_empty Seed maphash_Bytes seed cur))
    as (shards & Hpop & Htab & _ & Hex).
  { intros [w i] Hp. apply interleave_spawn_inv in Hp; [|exact Hq1]. simpl. lia. }
  change (Z.to_nat numShards) with 256%nat. rewrite Hpop. cbn [mbind option_bind].
  assert (Hexact : ∀ i c, idx cur i = Some c → has_exact Seed maphash_Bytes seed shards c).
  { intros i c Hc. pose proof (idx_Some_inv _ _ _ Hc) as [Hi _].
    destruct (interleave_spawn_covers i sched2 (Z.to_nat workers) chunk (len cur)) as [w Hw];
      [exact Hq1|lia|].
    apply (Hex (w, i) c Hw). exact Hc. }
  (* the slices of phase 3 *)
  assert (Hwords : 0 <= Z.shiftr (len cur + 63) 6) by (apply Z.shiftr_nonneg; lia).
  rewrite (make_is_Some (Z.shiftr (len cur + 63) 6)) by exact Hwords.
  rewrite !(make_is_Some workers) by lia. cbn [mbind option_bind].
  (* phase 3 *)
  destruct (reconcile_fold Seed maphash_Bytes seed old cur shards ltac:(lia) Htab J P
              (step shards Htab Hexact)
              (interleave sched3 (tasks3 old cur workers)) []
              (replicate (Z.to_nat (Z.shiftr (len cur + 63) 6)) 0)
              (replicate (Z.to_nat workers) []) (replicate (Z.to_nat workers) [0; 0; 0]))
    as (v & rs & cs & Hrec & Hv & Hlrs & Hlcs & Hwk & HJ & Hnew).
  { unfold len in *. rewrite length_replicate. lia. }
  { rewrite !length_replicate. reflexivity. }
  { intros w es c H1 H2. apply lookup_replicate in H1 as [-> _].
    apply lookup_replicate in H2 as [-> _]. reflexivity. }
  { intros [w i] Hp. apply interleave_spawn_inv in Hp; [|exact Hq1].
    rewrite length_replicate. simpl. lia. }
  { rewrite app_nil_r. apply interleave_spawn_NoDup. exact Hq1. }
  { exact J_init. }
  rewrite Hrec. cbn [mbind option_bind]. rewrite app_nil_r in HJ.
  rewrite length_replicate in Hlrs, Hlcs.
  assert (Hrs : ∀ w es, rs !! w = Some es →
            Old <$> es = task_range (tasks3 old cur workers !! w) ∧
            Forall (λ e, P e ∧ entry_ok old cur e) es).
  { intros w es Hes. pose proof (lookup_lt_Some _ _ _ Hes) as Hw.
    destruct (Hnew w []) as (new & Hrs' & Hon & Hall).
    { apply lookup_replicate. split; [reflexivity|lia]. }
    rewrite Hrs' in Hes. injection Hes as <-. simpl.
    rewrite Hon, run_of_interleave. auto. }
  (* phase 4 *)
  destruct (detect_fold cur v (interleave [] (tasks4 cur workers)) ltac:(lia) Hv
              (replicate (Z.to_nat workers) []))
    as (adds & Hdet & Hladds & Hadds).
  { intros [w i] Hp. apply interleave_spawn_inv in Hp; [|exact Hq1].
    rewrite length_replicate. simpl. lia. }
  rewrite Hdet. cbn [mbind option_bind]. rewrite length_replicate in Hladds.
  assert (Hadds' : ∀ w es, adds !! w = Some es →
            es = added_entry <$> unclaimed v (task_range (tasks4 cur workers !! w))).
  { intros w es Hes. pose proof (lookup_lt_Some _ _ _ Hes) as Hw.
    rewrite (Hadds w []) in Hes.
    - injection Hes as <-. cbn [app].
      rewrite <- (run_of_interleave w [] (tasks4 cur workers)). reflexivity.
    - apply lookup_replicate. split; [reflexivity|lia]. }
  (* phase 5 *)
  assert (Hm : merge_results {| E := []; C := [0; 0; 0; 0] |} rs cs 0
               = Some {| E := concat rs;
                         C := [u32 (tally 0 (concat rs)); u32 (tally 1 (concat rs));
                               u32 (tally 2 (concat rs)); u32 0] |}).
  { apply (merge_results_ok rs cs [] 0 0 0 0 0).
    intros j es Hes. pose proof (lookup_lt_Some _ _ _ Hes) as Hj.
    destruct (lookup_lt_is_Some_2 cs j) as [c Hc]; [lia|].
    exists c. split; [exact Hc|]. eapply Hwk; eauto. }
  rewrite Hm. cbn [mbind option_bind].
  rewrite merge_additions_ok. rewrite Z.add_0_l.
  (* the shape of the result *)
  assert (Hconcat : Old <$> concat rs = zrange 0 (visited old cur workers)).
  { replace (zrange 0 (visited old cur workers))
      with (concat (map (λ t : task, zrange t.1 t.2) (tasks3 old cur workers))).
    - change (list_fmap Entry Z Old (concat rs)) with (map Old (concat rs)).
      rewrite concat_map.
      apply (concat_workers (λ l, l) (map (map Old) rs)); [reflexivity|reflexivity| |].
      + rewrite length_map, Hlrs. apply length_spawn.
      + intros w l Hl. change (map (map Old) rs) with (fmap (map Old) rs) in Hl.
        rewrite list_lookup_fmap in Hl. destruct (rs !! w) as [es|] eqn:Ees; [|discriminate].
        injection Hl as <-. apply (Hrs w es Ees).
    - unfold tasks3, visited. fold chunk. rewrite spawn_ranges by lia. f_equal.
      rewrite Z2Nat.id by lia. lia. }
  assert (Hca : concat adds = added_entry <$> unclaimed v (zrange 0 (len cur))).
  { replace (zrange 0 (len cur))
      with (concat (map (λ t : task, zrange t.1 t.2) (tasks4 cur workers))).
    - apply (concat_workers (λ l, added_entry <$> unclaimed v l) adds).
      + reflexivity.
      + intros a b. unfold unclaimed. rewrite filter_app, fmap_app. reflexivity.
      + rewrite Hladds. apply length_spawn.
      + exact Hadds'.
    - unfold tasks4. fold chunk. rewrite spawn_ranges by lia. f_equal.
      rewrite Z2Nat.id by lia. lia. }
  assert (Hlen_rs : len (concat rs) <= len old).
  { assert (Hl : length (Old <$> concat rs) = length (zrange 0 (visited old cur workers)))
      by (rewrite Hconcat; reflexivity).
    rewrite length_fmap, length_zrange in Hl. unfold visited in Hl. unfold len in *. lia. }
  assert (Hlen_adds : len (concat adds) <= len cur).
  { rewrite Hca. unfold len at 1. rewrite length_fmap. unfold unclaimed.
    pose proof (length_filter (λ i, marked v i = false) (zrange 0 (len cur))) as Hf.
    rewrite length_zrange in Hf. unfold len in *. lia. }
  exists {| E := concat rs ++ concat adds;
            C := [u32 (tally 0 (concat rs)); u32 (tally 1 (concat rs));
                  u32 (tally 2 (concat rs)); u32 (len (concat adds))] |}, rs, adds, v.
  split; [reflexivity|]. split; [reflexivity|]. split.
  { cbn [C].
    pose proof (tally_range 0 (concat rs)). pose proof (tally_range 1 (concat rs)).
    pose proof (tally_range 2 (concat rs)). pose proof (len_nonneg (concat adds)).
    rewrite !u32_small by lia. reflexivity. }
  split; [exact Hlrs|]. split; [exact Hladds|]. split; [exact Hrs|].
  split; [exact Hadds'|]. split; [exact Hconcat|]. split; [exact Hca|exact HJ].
Qed.

Lemma interleave_nil sched : interleave sched [] = [].
Proof. induction sched as [|w sched IH]; [reflexivity|exact IH]. Qed.

Lemma spawn_none n chunk : spawn n 0 chunk 0 = [].
Proof. destruct n; reflexivity. Qed.

(** The shape of every result of [diffP]: the buffers of phase 3 in
    goroutine order, then those of phase 4, and the four counters. *)
Lemma diffP_shape :
  ∃ r rs adds v,
    diffP Seed maphash_Bytes seed old cur workers sched2 sched3 = Some r ∧
    E r = concat rs ++ concat adds ∧
    C r = [tally 0 (concat rs); tally 1 (concat rs); tally 2 (concat rs);
           len (concat adds)] ∧
    length rs = Z.to_nat workers ∧ length adds = Z.to_nat workers ∧
    (∀ w es, rs !! w = Some es →
       Old <$> es = task_range (tasks3 old cur workers !! w) ∧
       Forall (λ e, P e ∧ entry_ok old cur e) es) ∧
    (∀ w es, adds !! w = Some es →
       es = added_entry <$> unclaimed v (task_range (tasks4 cur workers !! w))) ∧
    Old <$> concat rs = zrange 0 (visited old cur workers) ∧
    concat adds = added_entry <$> unclaimed v (zrange 0 (len cur)) ∧
    J (rev (interleave sched3 (tasks3 old cur workers)).*2) v.
Proof.
  pose proof (len_nonneg old) as Hold0. pose proof (len_nonneg cur) as Hcur0.
  destruct (Z_lt_le_dec 0 (len old + len cur)) as [Hne|He]; [exact (diffP_run Hne)|].
  assert (Ho : old = []) by (destruct old; [reflexivity|unfold len in *; simpl in *; lia]).
  assert (Hc : cur = []) by (destruct cur; [reflexivity|unfold len in *; simpl in *; lia]).
  assert (Hcat : ∀ A n, concat (replicate n ([] : list A)) = []).
  { intros A n. induction n as [|n IH]; [reflexivity|exact IH]. }
  exists {| E := []; C := [0; 0; 0; 0] |}, (replicate (Z.to_nat workers) []),
         (replicate (Z.to_nat workers) []), [].
  unfold tasks3, tasks4, visited. rewrite !Hcat.
  pose proof J_init as HJ. revert HJ. rewrite Ho, Hc.
  change (len []) with 0. rewrite !spawn_none, interleave_nil. intros HJ.
  split; [reflexivity|]. split; [reflexivity|]. split; [reflexivity|].
  split; [apply length_replicate|]. split; [apply length_replicate|]. split.
  { intros w es Hes. apply lookup_replicate in Hes as [-> _]. split; constructor. }
  split.
  { intros w es Hes. apply lookup_replicate in Hes as [-> _]. reflexivity. }
  split.
  { rewrite zrange_nil by lia. reflexivity. }
  split; [reflexivity|exact HJ].
Qed.

End Run.

(** ** Statuses and counters of a result *)

Lemma entry_ok_status old cur e :
  entry_ok old cur e →
  EStatus e = ord Unchanged ∨ EStatus e = ord Updated ∨ EStatus e = ord Removed.
Proof. intros [[H _]|[[H _]|[H _]]]; auto. Qed.

Lemma tally_entry_ok old cur es :
  Forall (entry_ok old cur) es →
  tally 0 es + tally 1 es + tally 2 es = len es ∧ tally 3 es = 0.
Proof.
  induction es as [|e es IH]; intros Hall; [split; reflexivity|].
  apply Forall_cons in Hall as [He Hes]. destruct (IH Hes) as [IH1 IH2].
  change (e :: es) with ([e] ++ es). rewrite !tally_app, !tally_one.
  unfold len in *. rewrite length_app. simpl length.
  apply entry_ok_status in He as [H|[H|H]]; rewrite H; simpl; lia.
Qed.

Lemma tally_added s (l : list Z) :
  tally s (added_entry <$> l) = if decide (s = 3) then len l else 0.
Proof.
  induction l as [|i l IH].
  - destruct (decide (s = 3)); reflexivity.
  - rewrite fmap_cons. change (added_entry i :: (added_entry <$> l))
      with ([added_entry i] ++ (added_entry <$> l)).
    rewrite tally_app, tally_one, IH. simpl.
    unfold len. simpl length.
    change (Z.land 3 255) with 3.
    destruct (decide (3 = s)), (decide (s = 3)); lia.
Qed.

Lemma Forall_concat_lookup {A} (Q : A → Prop) (ls : list (list A)) :
  (∀ w l, ls !! w = Some l → Forall Q l) → Forall Q (concat ls).
Proof.
  induction ls as [|l ls IH]; intros H; [constructor|].
  cbn [concat]. apply Forall_app. split; [apply (H O l eq_refl)|].
  apply IH. intros w l' Hw. apply (H (S w) l' Hw).
Qed.

Lemma StronglySorted_zrange lo hi : StronglySorted Z.lt (zrange lo hi).
Proof.
  remember (Z.to_nat (hi - lo)) as n eqn:Hn. revert lo Hn.
  induction n as [|n IH]; intros lo Hn.
  - rewrite zrange_nil by lia. constructor.
  - rewrite zrange_cons by lia. constructor; [apply IH; lia|].
    apply Forall_forall. intros x Hx. apply elem_of_zrange in Hx. lia.
Qed.

Lemma StronglySorted_filter_lt (Q : Z → Prop) `{∀ x, Decision (Q x)} (l : list Z) :
  StronglySorted Z.lt l → StronglySorted Z.lt (filter Q l).
Proof.
  induction 1 as [|x l Hs IH Hx]; [constructor|].
  rewrite filter_cons. destruct (decide (Q x)); [|exact IH].
  constructor; [exact IH|]. apply Forall_forall. intros y Hy.
  apply list_elem_of_filter in Hy as [_ Hy]. rewrite Forall_forall in Hx. apply Hx, Hy.
Qed.

(** The shape of a result, with nothing assumed of the inputs but their
    sizes. *)
Lemma diffP_plain Seed (maphash_Bytes : Seed → bytes → Z) seed old cur workers sched2 sched3 :
  1 <= workers → len old < 2 ^ 32 → len cur < 2 ^ 32 →
  ∃ r rs adds v,
    diffP Seed maphash_Bytes seed old cur workers sched2 sched3 = Some r ∧
    E r = concat rs ++ concat adds ∧
    C r = [tally 0 (concat rs); tally 1 (concat rs); tally 2 (concat rs);
           len (concat adds)] ∧
    length rs = Z.to_nat workers ∧ length adds = Z.to_nat workers ∧
    (∀ w es, rs !! w = Some es →
       Old <$> es = task_range (tasks3 old cur workers !! w) ∧
       Forall (entry_ok old cur) es) ∧
    (∀ w es, adds !! w = Some es →
       es = added_entry <$> unclaimed v (task_range (tasks4 cur workers !! w))) ∧
    Old <$> concat rs = zrange 0 (visited old cur workers) ∧
    concat adds = added_entry <$> unclaimed v (zrange 0 (len cur)).
Proof.
  intros Hw Ho Hc.
  destruct (diffP_shape Seed maphash_Bytes seed old cur workers sched2 sched3 Hw Ho Hc
              (λ _ _, True) (λ _, True))
    as (r & rs & adds & v & Hr & HE & HC & Hlr & Hla & Hrs & Hadds & Hold & Hcat & _).
  { intros; split; exact I. }
  { exact I. }
  exists r, rs, adds, v. repeat (split; [assumption|]). split.
  - intros w es Hes. destruct (Hrs w es Hes) as [H1 H2]. split; [exact H1|].
    eapply Forall_impl; [exact H2|]. intros e [_ He]. exact He.
  - auto.
Qed.

Lemma concat_entries_ok old cur (rs : list (list Entry)) :
  (∀ w es, rs !! w = Some es → Forall (entry_ok old cur) es) →
  Forall (entry_ok old cur) (concat rs).
Proof. apply Forall_concat_lookup. Qed.

(** The counters of a result and the lengths they add up to. *)
Lemma diffP_counts Seed (maphash_Bytes : Seed → bytes → Z) seed old cur workers sched2 sched3 :
  1 <= workers → len old < 2 ^ 32 → len cur < 2 ^ 32 →
  ∃ r R A u p d,
    diffP Seed maphash_Bytes seed old cur workers sched2 sched3 = Some r ∧
    E r = R ++ A ∧ C r = [u; p; d; len A] ∧
    Forall (entry_ok old cur) R ∧ (∃ l, A = added_entry <$> l) ∧
    u = tally 0 R ∧ p = tally 1 R ∧ d = tally 2 R ∧
    u + p + d = len R ∧ len R = visited old cur workers.
Proof.
  intros Hw Ho Hc.
  destruct (diffP_plain Seed maphash_Bytes seed old cur workers sched2 sched3 Hw Ho Hc)
    as (r & rs & adds & v & Hr & HE & HC & Hlr & Hla & Hrs & Hadds & Hold & Hcat).
  assert (Hok : Forall (entry_ok old cur) (concat rs)).
  { apply concat_entries_ok. intros w es Hes. apply (Hrs w es Hes). }
  destruct (tally_entry_ok old cur (concat rs) Hok) as [Hsum _].
  exists r, (concat rs), (concat adds), (tally 0 (concat rs)), (tally 1 (concat rs)),
         (tally 2 (concat rs)).
  split; [exact Hr|]. split; [exact HE|]. split; [exact HC|]. split; [exact Hok|].
  split; [eauto|]. split; [reflexivity|]. split; [reflexivity|]. split; [reflexivity|].
  split; [exact Hsum|].
  assert (Hl : length (Old <$> concat rs) = length (zrange 0 (visited old cur workers)))
    by (rewrite Hold; reflexivity).
  rewrite length_fmap, length_zrange in Hl. unfold len.
  assert (0 <= visited old cur workers).
  { unfold visited, chunk_of. pose proof (len_nonneg old). lia. }
  lia.
Qed.

(** ** The invariants of a result *)

Lemma Count_of r u p d a :
  C r = [u; p; d; a] →
  Count r Unchanged = Some u ∧ Count r Updated = Some p ∧
  Count r Removed = Some d ∧ Count r Added = Some a.
Proof. intros H. unfold Count. rewrite H. repeat split; reflexivity. Qed.

Lemma basic_sizes : 1 <= 4 ∧ len basic_old < 2 ^ 32 ∧ len basic_cur < 2 ^ 32.
Proof. repeat split; vm_compute; congruence. Qed.

(** C5: the four status counters of a result add up to the number of its
    entries. *)
Theorem counts_sum_to_entries Seed (maphash_Bytes : Seed → bytes → Z) seed
    old cur workers sched2 sched3 :
  1 <= workers → len old < 2 ^ 32 → len cur < 2 ^ 32 →
  ∃ r u p d a,
    diffP Seed maphash_Bytes seed old cur workers sched2 sched3 = Some r ∧
    Count r Unchanged = Some u ∧ Count r Updated = Some p ∧
    Count r Removed = Some d ∧ Count r Added = Some a ∧
    u + p + d + a = len (E r).
Proof.
  intros Hw Ho Hc.
  destruct (diffP_counts Seed maphash_Bytes seed old cur workers sched2 sched3 Hw Ho Hc)
    as (r & R & A & u & p & d & Hr & HE & HC & _ & _ & _ & _ & _ & Hsum & _).
  destruct (Count_of r u p d (len A) HC) as (C0 & C1 & C2 & C3).
  exists r, u, p, d, (len A). repeat (split; [assumption|]).
  rewrite HE. unfold len in *. rewrite length_app. lia.
Qed.

Lemma counts_sum_to_entries_witness :
  1 <= 4 ∧ len basic_old < 2 ^ 32 ∧ len basic_cur < 2 ^ 32 ∧
  ∃ r u p d a,
    diffP Z fnv1a 0 basic_old basic_cur 4 [1%nat; 0%nat] [2%nat] = Some r ∧
    Count r Unchanged = Some u ∧ Count r Updated = Some p ∧
    Count r Removed = Some d ∧ Count r Added = Some a ∧
    u + p + d + a = len (E r).
Proof.
  destruct basic_sizes as (H1 & H2 & H3).
  split; [exact H1|]. split; [exact H2|]. split; [exact H3|].
  exact (counts_sum_to_entries Z fnv1a 0 basic_old basic_cur 4 [1%nat; 0%nat] [2%nat] H1 H2 H3).
Defined.

(** C10: for each status, [Count] is the number of entries whose decoded
    status is that status, which is the number of entries that [Filter]
    yields; and the stored status of every entry is a plain ordinal. *)
Theorem counts_match_filter Seed (maphash_Bytes : Seed → bytes → Z) seed
    old cur workers sched2 sched3 :
  1 <= workers → len old < 2 ^ 32 → len cur < 2 ^ 32 →
  ∃ r,
    diffP Seed maphash_Bytes seed old cur workers sched2 sched3 = Some r ∧
    (∀ s, Count r s = Some (len (Filter r s))) ∧
    Forall (λ e, ∃ s, EStatus e = ord s) (E r).
Proof.
  intros Hw Ho Hc.
  destruct (diffP_counts Seed maphash_Bytes seed old cur workers sched2 sched3 Hw Ho Hc)
    as (r & R & A & u & p & d & Hr & HE & HC & Hok & (l & HA) & Hu & Hp & Hd & _ & _).
  destruct (Count_of r u p d (len A) HC) as (C0 & C1 & C2 & C3).
  destruct (tally_entry_ok old cur R Hok) as [_ H3].
  exists r. split; [exact Hr|]. split.
  - intros s.
    assert (HF : len (Filter r s) = tally (ord s) R + tally (ord s) A).
    { unfold Filter. rewrite HE. apply tally_app. }
    rewrite HF, HA, tally_added.
    destruct s; simpl.
    + rewrite C0, Hu. f_equal. lia.
    + rewrite C1, Hp. f_equal. lia.
    + rewrite C2, Hd. f_equal. lia.
    + rewrite C3, H3, HA. unfold len. rewrite length_fmap. f_equal.
  - rewrite HE. apply Forall_app. split.
    + eapply Forall_impl; [exact Hok|]. intros e He.
      apply entry_ok_status in He as [H|[H|H]]; eauto.
    + rewrite HA. apply Forall_fmap, Forall_forall. intros i _. exists Added. reflexivity.
Qed.

Lemma counts_match_filter_witness :
  1 <= 4 ∧ len basic_old < 2 ^ 32 ∧ len basic_cur < 2 ^ 32 ∧
  ∃ r,
    diffP Z fnv1a 0 basic_old basic_cur 4 [] [3%nat; 1%nat] = Some r ∧
    (∀ s, Count r s = Some (len (Filter r s))) ∧
    Forall (λ e, ∃ s, EStatus e = ord s) (E r).
Proof.
  destruct basic_sizes as (H1 & H2 & H3).
  split; [exact H1|]. split; [exact H2|]. split; [exact H3|].
  exact (counts_match_filter Z fnv1a 0 basic_old basic_cur 4 [] [3%nat; 1%nat] H1 H2 H3).
Defined.

(** The counters of the statuses that come from [old] add up to the
    number of indices of [old] that phase 3 reaches. *)
Lemma old_counts_visited Seed (maphash_Bytes : Seed → bytes → Z) seed
    old cur workers sched2 sched3 :
  1 <= workers → len old < 2 ^ 32 → len cur < 2 ^ 32 →
  ∃ r u p d,
    diffP Seed maphash_Bytes seed old cur workers sched2 sched3 = Some r ∧
    Count r Unchanged = Some u ∧ Count r Updated = Some p ∧
    Count r Removed = Some d ∧
    u + p + d = visited old cur workers.
Proof.
  intros Hw Ho Hc.
  destruct (diffP_counts Seed maphash_Bytes seed old cur workers sched2 sched3 Hw Ho Hc)
    as (r & R & A & u & p & d & Hr & HE & HC & _ & _ & _ & _ & _ & Hsum & Hvis).
  destruct (Count_of r u p d (len A) HC) as (C0 & C1 & C2 & C3).
  exists r, u, p, d. repeat (split; [assumption|]). lia.
Qed.

(** C1, on the code: with one worker, two old names and no current name,
    phase 3 cuts [old] into chunks whose size is computed from the length
    of [cur]; it reaches one old index only, and the three counters add
    up to 1 although [old] has 2 names. *)
Theorem old_counts_fall_short Seed (maphash_Bytes : Seed → bytes → Z) seed sched2 sched3 :
  ∃ r u p d,
    diffP Seed maphash_Bytes seed (names ["a"; "b"]) [] 1 sched2 sched3 = Some r ∧
    Count r Unchanged = Some u ∧ Count r Updated = Some p ∧
    Count r Removed = Some d ∧
    u + p + d = 1 ∧ len (names ["a"; "b"]) = 2.
Proof.
  assert (H1 : 1 <= 1) by lia.
  assert (H2 : len (names ["a"; "b"]) < 2 ^ 32) by reflexivity.
  assert (H3 : len ([] : list bytes) < 2 ^ 32) by reflexivity.
  destruct (old_counts_visited Seed maphash_Bytes seed (names ["a"; "b"]) [] 1 sched2 sched3
              H1 H2 H3)
    as (r & u & p & d & Hr & C0 & C1 & C2 & Hsum).
  exists r, u, p, d. split; [exact Hr|]. split; [exact C0|]. split; [exact C1|].
  split; [exact C2|]. split; [exact Hsum|reflexivity].
Qed.

(** C2, as the code has it: every entry whose status is Updated pairs an
    old name and a current name that [Equal] accepts, and the two names
    are different strings unless [cur] holds, at another index, a name
    with the exact hash of the current name: the same name once more, or
    a name that collides with it.  In particular they are different when
    no two indices of [cur] hold names of the same exact hash. *)
Theorem updated_entries_equal Seed (maphash_Bytes : Seed → bytes → Z) seed
    old cur workers sched2 sched3 :
  1 <= workers → len old < 2 ^ 32 → len cur < 2 ^ 32 →
  ∃ r,
    diffP Seed maphash_Bytes seed old cur workers sched2 sched3 = Some r ∧
    ∀ e, e ∈ E r → Z.land (EStatus e) 255 = ord Updated →
      ∃ o c, idx old (Old e) = Some o ∧ idx cur (New e) = Some c ∧
             Equal o c = Some true ∧
             ((∀ j c', idx cur j = Some c' →
                 ex_hash Seed maphash_Bytes seed c' = ex_hash Seed maphash_Bytes seed c →
                 j = New e) →
              o ≠ c).
Proof.
  intros Hw Ho Hc.
  destruct (diffP_shape Seed maphash_Bytes seed old cur workers sched2 sched3 Hw Ho Hc
              (λ _ _, True)
              (λ e, EStatus e = ord Updated → ∀ o c,
                 idx old (Old e) = Some o → idx cur (New e) = Some c →
                 (∀ j c', idx cur j = Some c' →
                    ex_hash Seed maphash_Bytes seed c' = ex_hash Seed maphash_Bytes seed c →
                    j = New e) →
                 o ≠ c))
    as (r & rs & adds & v & Hr & HE & _ & _ & _ & Hrs & _ & _ & Hcat & _).
  { intros shards Htab Hexact done i v e s v' _ _ Hi Hv Hcl. split; [|exact I].
    destruct (classify_ok Seed maphash_Bytes seed old cur shards ltac:(lia) Htab i v Hi Hv)
      as (o & tbl & e0 & s0 & v0 & Hoi & Htbl & Hcl0 & _ & Hold & Hst & _ & Hcase).
    rewrite Hcl in Hcl0. injection Hcl0 as <- <- <-.
    intros Hupd o' c Ho' Hc' Honly Heq. subst o'.
    rewrite Hold, Hoi in Ho'. injection Ho' as ->.
    (* the exact key of the name is present, and holds the index [New e] *)
    destruct (Hexact (New e) c Hc') as (tbl' & Htbl' & [m Hm]).
    rewrite Htbl in Htbl'. injection Htbl' as <-.
    assert (Hmi : m = New e).
    { destruct Htab as [_ Htab].
      destruct (Htab _ _ _ _ Htbl Hm) as (c' & Hc'' & _ & [Hk|Hk]).
      - exfalso. symmetry in Hk. exact (id_key_ne_ex_key Seed maphash_Bytes seed c' c Hk).
      - apply ex_key_inj in Hk. apply (Honly m c' Hc''). symmetry. exact Hk. }
    subst m.
    destruct Hcase as [(-> & _)|[Hno [(_ & Hfree & _)|(-> & _)]]].
    - rewrite Hst in Hupd. discriminate.
    - rewrite (Hno (New e) Hm Hc') in Hfree. discriminate.
    - rewrite Hst in Hupd. discriminate. }
  { exact I. }
  exists r. split; [exact Hr|]. intros e He Hst.
  rewrite HE in He. apply elem_of_app in He as [He|He].
  - assert (Hall : Forall (λ e, (EStatus e = ord Updated → ∀ o c,
                      idx old (Old e) = Some o → idx cur (New e) = Some c →
                      (∀ j c', idx cur j = Some c' →
                         ex_hash Seed maphash_Bytes seed c'
                         = ex_hash Seed maphash_Bytes seed c → j = New e) →
                      o ≠ c) ∧ entry_ok old cur e) (concat rs)).
    { apply Forall_concat_lookup. intros w es Hes. apply (Hrs w es Hes). }
    rewrite Forall_forall in Hall. destruct (Hall e He) as [Hdiff Hok].
    destruct Hok as [[H _]|[[Hu (o & c & Hoe & Hce & Heq)]|[H _]]];
      [rewrite H in Hst; discriminate| |rewrite H in Hst; discriminate].
    exists o, c. split; [exact Hoe|]. split; [exact Hce|]. split; [exact Heq|].
    intros Honly. exact (Hdiff Hu o c Hoe Hce Honly).
  - rewrite Hcat in He. apply list_elem_of_fmap in He as (i & -> & _). discriminate.
Qed.

Lemma updated_entries_equal_witness :
  1 <= 4 ∧ len basic_old < 2 ^ 32 ∧ len basic_cur < 2 ^ 32 ∧
  ∃ r,
    diffP Z fnv1a 0 basic_old basic_cur 4 [2%nat] [] = Some r ∧
    ∀ e, e ∈ E r → Z.land (EStatus e) 255 = ord Updated →
      ∃ o c, idx basic_old (Old e) = Some o ∧ idx basic_cur (New e) = Some c ∧
             Equal o c = Some true ∧
             ((∀ j c', idx basic_cur j = Some c' →
                 ex_hash Z fnv1a 0 c' = ex_hash Z fnv1a 0 c → j = New e) →
              o ≠ c).
Proof.
  destruct basic_sizes as (H1 & H2 & H3).
  split; [exact H1|]. split; [exact H2|]. split; [exact H3|].
  exact (updated_entries_equal Z fnv1a 0 basic_old basic_cur 4 [2%nat] [] H1 H2 H3).
Defined.

(** C2, the counterexample: when a name occurs twice in both lists, the
    exact key of the table holds the last occurrence only; the second old
    occurrence loses the exact probe and is matched through its identity,
    so an Updated entry pairs two byte-equal names. *)
Lemma updated_pair_may_be_equal :
  diffP Z fnv1a 0 (names ["a"; "a"]) (names ["a"; "a"]) 1 [] []
  = Some {| E := [ {| Old := 0; New := 1; EStatus := ord Unchanged |};
                   {| Old := 1; New := 0; EStatus := ord Updated |} ];
            C := [1; 1; 0; 0] |} ∧
  idx (names ["a"; "a"]) 1 = Some (bytes_of "a") ∧
  idx (names ["a"; "a"]) 0 = Some (bytes_of "a").
Proof. vm_compute. auto. Qed.

Lemma HashAll_zero_workers Seed (maphash_Bytes : Seed → bytes → Z) seed files :
  files ≠ [] → HashAll Seed maphash_Bytes files 0 seed = None.
Proof.
  intros Hne. unfold HashAll. pose proof (len_nonneg files) as Hlen.
  destruct (len files =? 0) eqn:E0.
  { apply Z.eqb_eq in E0. destruct files; [contradiction|]. unfold len in E0. simpl in E0. lia. }
  rewrite !make_is_Some by lia. reflexivity.
Qed.

Lemma HashAll_negative_workers Seed (maphash_Bytes : Seed → bytes → Z) seed files workers :
  workers < 0 → is_Some (HashAll Seed maphash_Bytes files workers seed).
Proof.
  intros Hw. unfold HashAll. pose proof (len_nonneg files) as Hlen.
  destruct (len files =? 0); [eauto|].
  rewrite !make_is_Some by lia. cbn [mbind option_bind].
  unfold go_div. replace (workers =? 0) with false by (symmetry; apply Z.eqb_neq; lia).
  cbn [mbind option_bind]. replace (Z.to_nat workers) with O by lia.
  unfold go_par. simpl. eauto.
Qed.

(** Without a positive worker count [diffP] fails on every input that is
    not empty, whatever the hash function. *)
Lemma diffP_needs_workers Seed (maphash_Bytes : Seed → bytes → Z) seed
    old cur workers sched2 sched3 :
  workers <= 0 → 0 < len old + len cur →
  diffP Seed maphash_Bytes seed old cur workers sched2 sched3 = None.
Proof.
  intros Hw Hne. pose proof (len_nonneg old) as Ho. pose proof (len_nonneg cur) as Hc.
  unfold diffP. rewrite lor_lengths_nonzero by lia.
  destruct (Z.eq_dec workers 0) as [->|Hneg].
  - destruct old as [|o old].
    + change (HashAll Seed maphash_Bytes [] 0 seed) with (Some (@nil Z, @nil Z)).
      cbn [mbind option_bind]. rewrite (HashAll_zero_workers _ _ _ cur); [reflexivity|].
      intros ->. unfold len in Hne. simpl in Hne. lia.
    + rewrite (HashAll_zero_workers _ _ _ (o :: old)) by (intros H; discriminate H).
      reflexivity.
  - destruct (HashAll_negative_workers Seed maphash_Bytes seed old workers) as [[a b] ->]; [lia|].
    destruct (HashAll_negative_workers Seed maphash_Bytes seed cur workers) as [[c d] ->]; [lia|].
    cbn [mbind option_bind].
    rewrite (make_is_Some numShards) by (vm_compute; discriminate).
    cbn [mbind option_bind]. unfold go_div.
    replace (workers =? 0) with false by (symmetry; apply Z.eqb_neq; lia).
    cbn [mbind option_bind]. replace (Z.to_nat workers) with O by lia.
    unfold go_par. cbn [spawn]. rewrite !interleave_nil. cbn [foldM mbind option_bind].
    rewrite (make_is_Some (Z.shiftr (len cur + 63) 6)) by (apply Z.shiftr_nonneg; lia).
    cbn [mbind option_bind].
    assert (Hmk : ∀ A (x : A), make workers x = None).
    { intros A x. unfold make.
      replace (workers <? 0) with true by (symmetry; apply Z.ltb_lt; lia). reflexivity. }
    rewrite !Hmk. reflexivity.
Qed.

(** C4, as the code has it: [diffP] does not clamp its worker count.
    With two empty lists it returns the empty result for any count.
    Otherwise it returns a result for every count from 1 up to 2^32, for
    which the per-worker slices stay within what [make] accepts, and it
    fails for every count below 1.  [Diff], which raises its count to 1
    when it is smaller, returns a result for every value of GOMAXPROCS
    below 2^32. *)
Theorem diffP_returns Seed (maphash_Bytes : Seed → bytes → Z) seed
    old cur sched2 sched3 :
  len old < 2 ^ 32 → len cur < 2 ^ 32 →
  (∀ workers, diffP Seed maphash_Bytes seed [] [] workers sched2 sched3
              = Some {| E := []; C := [0; 0; 0; 0] |}) ∧
  (∀ workers, 1 <= workers < 2 ^ 32 →
     is_Some (diffP Seed maphash_Bytes seed old cur workers sched2 sched3)) ∧
  (∀ workers, workers <= 0 → 0 < len old + len cur →
     diffP Seed maphash_Bytes seed old cur workers sched2 sched3 = None) ∧
  (∀ gomaxprocs, gomaxprocs < 2 ^ 32 →
     is_Some (Diff Seed maphash_Bytes seed gomaxprocs old cur sched2 sched3)).
Proof.
  intros Ho Hc.
  assert (H : ∀ workers, 1 <= workers < 2 ^ 32 →
            is_Some (diffP Seed maphash_Bytes seed old cur workers sched2 sched3)).
  { intros workers [Hw _].
    destruct (diffP_counts Seed maphash_Bytes seed old cur workers sched2 sched3 Hw Ho Hc)
      as (r & R & A & u & p & d & Hr & _). rewrite Hr. eauto. }
  split; [reflexivity|]. split; [exact H|]. split.
  - intros workers Hw Hne. apply diffP_needs_workers; assumption.
  - intros g Hg. unfold Diff. apply H. lia.
Qed.

Lemma diffP_returns_witness :
  len basic_old < 2 ^ 32 ∧ len basic_cur < 2 ^ 32 ∧
  diffP Z fnv1a 0 [] [] (-2) [] [] = Some {| E := []; C := [0; 0; 0; 0] |} ∧
  is_Some (diffP Z fnv1a 0 basic_old basic_cur 3 [] []) ∧
  diffP Z fnv1a 0 basic_old basic_cur 0 [] [] = None ∧
  is_Some (Diff Z fnv1a 0 (-2) basic_old basic_cur [] []).
Proof.
  destruct basic_sizes as (_ & H2 & H3).
  split; [exact H2|]. split; [exact H3|].
  destruct (diffP_returns Z fnv1a 0 basic_old basic_cur [] [] H2 H3)
    as (Ha & Hb & Hc & Hd).
  split; [exact (Ha (-2))|]. split; [apply (Hb 3); lia|].
  split; [apply (Hc 0); [lia|reflexivity]|apply (Hd (-2)); lia].
Defined.

(** C4, the counterexample: [diffP] does not clamp its worker count.
    With 0 workers the chunk size of [HashAll] divides by zero, and with
    a negative count [make([][]Entry, workers)] panics. *)
Lemma diffP_fails_without_workers :
  diffP Z fnv1a 0 (names ["a"]) (names ["a"]) 0 [] [] = None ∧
  diffP Z fnv1a 0 (names ["a"]) (names ["a"]) (-1) [] [] = None.
Proof. vm_compute. auto. Qed.

(** ** The order of the entries *)

Lemma chunk_of_pos n workers : 1 <= chunk_of n workers.
Proof. unfold chunk_of. lia. Qed.

Lemma task_range_owner n chunk total w i :
  1 <= chunk → i ∈ task_range (spawn n 0 chunk total !! w) →
  Z.of_nat w * chunk <= i < (Z.of_nat w + 1) * chunk.
Proof.
  intros Hc Hi. destruct (spawn n 0 chunk total !! w) as [[lo hi]|] eqn:E; simpl in Hi.
  - apply elem_of_zrange in Hi.
    apply spawn_lookup in E as (H1 & H2 & H3 & H4); [|lia|lia]. lia.
  - apply elem_of_nil in Hi. contradiction.
Qed.

Lemma StronglySorted_task_range t : StronglySorted Z.lt (task_range t).
Proof. destruct t as [[lo hi]|]; simpl; [apply StronglySorted_zrange|constructor]. Qed.

(** C6: the entries of a result are the phase-3 buffers of the workers,
    in ascending worker id, followed by their phase-4 buffers, in
    ascending worker id.  No entry of the first group is Added and every
    entry of the second is; the entries of worker [w] are those whose
    input index lies in the chunk of [w], in ascending index. *)
Theorem entries_order Seed (maphash_Bytes : Seed → bytes → Z) seed
    old cur workers sched2 sched3 :
  1 <= workers → len old < 2 ^ 32 → len cur < 2 ^ 32 →
  ∃ r rs adds,
    diffP Seed maphash_Bytes seed old cur workers sched2 sched3 = Some r ∧
    E r = concat rs ++ concat adds ∧
    length rs = Z.to_nat workers ∧ length adds = Z.to_nat workers ∧
    (∀ (w : nat) es, rs !! w = Some es →
       StronglySorted Z.lt (Old <$> es) ∧
       Forall (λ e, EStatus e ≠ ord Added ∧
                    Z.of_nat w * chunk_of (len cur) workers <= Old e
                      < (Z.of_nat w + 1) * chunk_of (len cur) workers) es) ∧
    (∀ (w : nat) es, adds !! w = Some es →
       StronglySorted Z.lt (New <$> es) ∧
       Forall (λ e, EStatus e = ord Added ∧
                    Z.of_nat w * chunk_of (len cur) workers <= New e
                      < (Z.of_nat w + 1) * chunk_of (len cur) workers) es).
Proof.
  intros Hw Ho Hc.
  destruct (diffP_plain Seed maphash_Bytes seed old cur workers sched2 sched3 Hw Ho Hc)
    as (r & rs & adds & v & Hr & HE & HC & Hlr & Hla & Hrs & Hadds & _ & _).
  pose proof (chunk_of_pos (len cur) workers) as Hchunk.
  exists r, rs, adds. split; [exact Hr|]. split; [exact HE|].
  split; [exact Hlr|]. split; [exact Hla|]. split.
  - intros w es Hes. destruct (Hrs w es Hes) as [Hold Hok]. split.
    + rewrite Hold. apply StronglySorted_task_range.
    + apply Forall_forall. intros e He. split.
      * rewrite Forall_forall in Hok. specialize (Hok e He).
        apply entry_ok_status in Hok as [H|[H|H]]; rewrite H; discriminate.
      * apply (task_range_owner (Z.to_nat workers) _ (len old)); [exact Hchunk|].
        fold (tasks3 old cur workers). rewrite <- Hold.
        apply list_elem_of_fmap. exists e. auto.
  - intros w es Hes. rewrite (Hadds w es Hes). split.
    + rewrite <- list_fmap_compose.
      assert (Hid : (New ∘ added_entry <$> unclaimed v (task_range (tasks4 cur workers !! w)))
                    = unclaimed v (task_range (tasks4 cur workers !! w))).
      { rewrite <- (list_fmap_id (unclaimed v _)) at 2. apply list_fmap_ext.
        intros _ i _. reflexivity. }
      rewrite Hid. unfold unclaimed. apply StronglySorted_filter_lt.
      apply StronglySorted_task_range.
    + apply Forall_fmap, Forall_forall. intros i Hi. split; [reflexivity|].
      apply list_elem_of_filter in Hi as [_ Hi].
      apply (task_range_owner (Z.to_nat workers) _ (len cur)); [exact Hchunk|exact Hi].
Qed.

Lemma entries_order_witness :
  1 <= 4 ∧ len basic_old < 2 ^ 32 ∧ len basic_cur < 2 ^ 32 ∧
  ∃ r rs adds,
    diffP Z fnv1a 0 basic_old basic_cur 4 [3%nat; 0%nat] [1%nat; 3%nat] = Some r ∧
    E r = concat rs ++ concat adds ∧
    length rs = Z.to_nat 4 ∧ length adds = Z.to_nat 4 ∧
    (∀ (w : nat) es, rs !! w = Some es →
       StronglySorted Z.lt (Old <$> es) ∧
       Forall (λ e, EStatus e ≠ ord Added ∧
                    Z.of_nat w * chunk_of (len basic_cur) 4 <= Old e
                      < (Z.of_nat w + 1) * chunk_of (len basic_cur) 4) es) ∧
    (∀ (w : nat) es, adds !! w = Some es →
       StronglySorted Z.lt (New <$> es) ∧
       Forall (λ e, EStatus e = ord Added ∧
                    Z.of_nat w * chunk_of (len basic_cur) 4 <= New e
                      < (Z.of_nat w + 1) * chunk_of (len basic_cur) 4) es).
Proof.
  destruct basic_sizes as (H1 & H2 & H3).
  split; [exact H1|]. split; [exact H2|]. split; [exact H3|].
  exact (entries_order Z fnv1a 0 basic_old basic_cur 4 [3%nat; 0%nat] [1%nat; 3%nat] H1 H2 H3).
Defined.

(** ** Degenerate inputs *)

Lemma idx_elem_of {A} (l : list A) i x : idx l i = Some x → x ∈ l.
Proof.
  intros H. apply idx_Some_inv in H as [_ H]. eapply list_elem_of_lookup_2. exact H.
Qed.

Lemma ord_inj s s' : ord s = ord s' → s = s'.
Proof. destruct s, s'; simpl; intros H; congruence. Qed.

Lemma tally_all (st : Status) s es :
  Forall (λ e, EStatus e = ord st) es →
  tally s es = if decide (s = ord st) then len es else 0.
Proof.
  induction es as [|e es IH]; intros Hall.
  - destruct (decide (s = ord st)); reflexivity.
  - apply Forall_cons in Hall as [He Hes].
    change (e :: es) with ([e] ++ es). rewrite tally_app, tally_one, (IH Hes), He.
    unfold len. rewrite length_app. simpl length.
    replace (Z.land (ord st) 255) with (ord st) by (destruct st; reflexivity).
    destruct (decide (ord st = s)), (decide (s = ord st)); lia.
Qed.

Lemma unclaimed_none v l : (∀ j, j ∈ l → marked v j = false) → unclaimed v l = l.
Proof.
  induction l as [|i l IH]; intros H; [reflexivity|].
  rewrite unclaimed_cons, (H i) by left. f_equal. apply IH. intros j Hj. apply H. right. exact Hj.
Qed.

Lemma unclaimed_all v l : (∀ j, j ∈ l → marked v j = true) → unclaimed v l = [].
Proof.
  induction l as [|i l IH]; intros H; [reflexivity|].
  rewrite unclaimed_cons, (H i) by left. apply IH. intros j Hj. apply H. right. exact Hj.
Qed.

Lemma chunks_reach n workers :
  1 <= workers → 0 <= n → Z.max n workers <= workers * chunk_of n workers.
Proof.
  intros Hw Hn. destruct (chunk_size n workers Hw Hn) as (q & _ & H1 & H2 & H3).
  unfold chunk_of. rewrite <- H3. nia.
Qed.

Section Degenerate.

Variable Seed : Type.
Variable maphash_Bytes : Seed → bytes → Z.
Variable seed : Seed.
Variables sched2 sched3 : list nat.

(** No old name is accepted by [Equal] with any current name: every old
    name that phase 3 reaches is Removed, every current name is Added. *)
Lemma diffP_all_distinct old cur workers :
  1 <= workers → len old < 2 ^ 32 → len cur < 2 ^ 32 →
  (∀ o c, o ∈ old → c ∈ cur → Equal o c ≠ Some true) →
  ∃ r,
    diffP Seed maphash_Bytes seed old cur workers sched2 sched3 = Some r ∧
    C r = [0; 0; visited old cur workers; len cur] ∧
    len (E r) = visited old cur workers + len cur.
Proof.
  intros Hw Ho Hc Hdist.
  set (zeros := replicate (Z.to_nat (Z.shiftr (len cur + 63) 6)) 0).
  destruct (diffP_shape Seed maphash_Bytes seed old cur workers sched2 sched3 Hw Ho Hc
              (λ _ v, v = zeros) (λ e, EStatus e = ord Removed))
    as (r & rs & adds & v & Hr & HE & HC & Hlr & Hla & Hrs & Hadds & Hold & Hcat & HJ).
  { intros shards Htab _ done i v e s v' HJ _ Hi Hv Hcl.
    destruct (classify_ok Seed maphash_Bytes seed old cur shards ltac:(lia) Htab i v Hi Hv)
      as (o & tbl & e0 & s0 & v0 & Hoi & Htbl & Hcl0 & Hl & Hold & Hst & Hok & Hcase).
    rewrite Hcl in Hcl0. injection Hcl0 as <- <- <-.
    assert (Hrem : s = Removed).
    { destruct Hok as [[_ (o' & H1 & H2)]|[[_ (o' & c' & H1 & H2 & H3)]|[H _]]].
      - exfalso. apply (Hdist o' o' (idx_elem_of _ _ _ H1) (idx_elem_of _ _ _ H2)).
        apply Equal_refl.
      - exfalso. exact (Hdist o' c' (idx_elem_of _ _ _ H1) (idx_elem_of _ _ _ H2) H3).
      - apply ord_inj. congruence. }
    subst s. split; [exact Hst|].
    destruct Hcase as [[Hs _]|[_ [[Hs _]|[_ Hv']]]]; [discriminate|discriminate|].
    subst v'. exact HJ. }
  { reflexivity. }
  subst v.
  assert (Hall : Forall (λ e, EStatus e = ord Removed) (concat rs)).
  { apply Forall_concat_lookup. intros w es Hes. destruct (Hrs w es Hes) as [_ H].
    eapply Forall_impl; [exact H|]. intros e [He _]. exact He. }
  assert (Hlen : len (concat rs) = visited old cur workers).
  { assert (Hl : length (Old <$> concat rs) = length (zrange 0 (visited old cur workers)))
      by (rewrite Hold; reflexivity).
    rewrite length_fmap, length_zrange in Hl. unfold len.
    assert (0 <= visited old cur workers)
      by (unfold visited, chunk_of; pose proof (len_nonneg old); lia).
    lia. }
  assert (Hadd : len (concat adds) = len cur).
  { rewrite Hcat, unclaimed_none by (intros j _; apply marked_zero).
    unfold len. rewrite length_fmap, length_zrange. lia. }
  exists r. split; [exact Hr|]. split.
  - rewrite HC, !(tally_all Removed _ _ Hall), Hlen, Hadd. reflexivity.
  - rewrite HE. unfold len in *. rewrite length_app. lia.
Qed.

(** The two lists are the same list, without a repeated name and without
    two names of the same exact hash: every name is Unchanged and nothing
    else is reported. *)
Lemma diffP_identical l workers :
  1 <= workers → len l < 2 ^ 32 → NoDup l →
  (∀ a b, a ∈ l → b ∈ l →
     ex_hash Seed maphash_Bytes seed a = ex_hash Seed maphash_Bytes seed b → a = b) →
  ∃ r,
    diffP Seed maphash_Bytes seed l l workers sched2 sched3 = Some r ∧
    C r = [len l; 0; 0; 0] ∧ len (E r) = len l.
Proof.
  intros Hw Hl Hnd Hinj. pose proof (len_nonneg l) as Hl0.
  destruct (diffP_shape Seed maphash_Bytes seed l l workers sched2 sched3 Hw Hl Hl
              (λ done v, ∀ j, 0 <= j → marked v j = true ↔ j ∈ done)
              (λ e, EStatus e = ord Unchanged))
    as (r & rs & adds & v & Hr & HE & HC & Hlr & Hla & Hrs & Hadds & Hold & Hcat & HJ).
  { intros shards Htab Hexact done i v e s v' HJ Hnotin Hi Hv Hcl.
    destruct (classify_ok Seed maphash_Bytes seed l l shards ltac:(lia) Htab i v Hi Hv)
      as (o & tbl & e0 & s0 & v0 & Hoi & Htbl & Hcl0 & Hlen & Hold & Hst & Hok & Hcase).
    rewrite Hcl in Hcl0. injection Hcl0 as <- <- <-.
    (* the exact key of [l[i]] is present and holds [i] *)
    destruct (Hexact i o Hoi) as (tbl' & Htbl' & [m Hm]).
    rewrite Htbl in Htbl'. injection Htbl' as <-.
    assert (Hmi : m = i).
    { destruct Htab as [_ Htab].
      destruct (Htab _ _ _ _ Htbl Hm) as (c & Hc & _ & [Hk|Hk]).
      - exfalso. symmetry in Hk. exact (id_key_ne_ex_key Seed maphash_Bytes seed c o Hk).
      - apply ex_key_inj in Hk.
        assert (o = c) by (apply Hinj; eauto using idx_elem_of). subst c.
        apply idx_Some_inv in Hc as [Hm0 Hc]. apply idx_Some_inv in Hoi as [_ Hoi].
        pose proof (NoDup_lookup l _ _ o Hnd Hc Hoi). lia. }
    subst m.
    assert (Hfree : marked v i = false).
    { destruct (marked v i) eqn:Em; [|reflexivity].
      exfalso. apply Hnotin. apply HJ; [lia|exact Em]. }
    destruct Hcase as [(-> & Hnew & _ & Hbits)|[Hno _]].
    - split; [exact Hst|]. rewrite Hm in Hnew. injection Hnew as Hnew.
      intros j Hj. rewrite (Hbits j Hj), <- Hnew, orb_true_iff, (HJ j Hj), Z.eqb_eq.
      rewrite elem_of_cons. tauto.
    - rewrite (Hno i Hm Hoi) in Hfree. discriminate. }
  { intros j Hj. rewrite marked_zero. split; [discriminate|].
    intros H. apply elem_of_nil in H. contradiction. }
  assert (Hall : Forall (λ e, EStatus e = ord Unchanged) (concat rs)).
  { apply Forall_concat_lookup. intros w es Hes. destruct (Hrs w es Hes) as [_ H].
    eapply Forall_impl; [exact H|]. intros e [He _]. exact He. }
  pose proof (chunks_reach (len l) workers Hw Hl0) as Hreach.
  assert (Hvis : visited l l workers = len l) by (unfold visited; lia).
  assert (Hlen : len (concat rs) = len l).
  { assert (Hlz : length (Old <$> concat rs) = length (zrange 0 (visited l l workers)))
      by (rewrite Hold; reflexivity).
    rewrite length_fmap, length_zrange, Hvis in Hlz. unfold len in *. lia. }
  assert (Hadd : concat adds = []).
  { rewrite Hcat, unclaimed_all; [reflexivity|].
    intros j Hj. apply elem_of_zrange in Hj. apply HJ; [lia|].
    apply list_elem_of_In, (proj1 (in_rev _ j)), list_elem_of_In.
    destruct (interleave_spawn_covers j sched3 (Z.to_nat workers)
                (chunk_of (len l) workers) (len l)) as [w Hwj].
    { apply chunk_of_pos. }
    { rewrite Z2Nat.id by lia. lia. }
    apply list_elem_of_fmap. exists (w, j). split; [reflexivity|exact Hwj]. }
  exists r. split; [exact Hr|]. split.
  - rewrite HC, !(tally_all Unchanged _ _ Hall), Hlen, Hadd. reflexivity.
  - rewrite HE, Hadd, app_nil_r. exact Hlen.
Qed.

End Degenerate.

Lemma pairwise_Forall {A B} (Q : A → B → Prop) (l1 : list A) (l2 : list B) :
  Forall (λ a, Forall (Q a) l2) l1 → ∀ a b, a ∈ l1 → b ∈ l2 → Q a b.
Proof.
  intros H a b Ha Hb. rewrite Forall_forall in H. specialize (H a Ha).
  rewrite Forall_forall in H. exact (H b Hb).
Qed.

(** C3, as the code has it, for [Diff] under any value of GOMAXPROCS.
    Two empty lists give the empty result.  When [Equal] accepts no pair
    of an old and a current name (so that no two are the same string
    either) and [old] is not longer than [cur] or than the worker count,
    the result has |old| Removed and |cur| Added entries.  When the two
    lists are the same list, without a repeated name and without two
    names of the same exact hash, the result has |old| Unchanged entries
    and no other. *)
Theorem Diff_degenerate Seed (maphash_Bytes : Seed → bytes → Z) seed
    gomaxprocs sched2 sched3 :
  Diff Seed maphash_Bytes seed gomaxprocs [] [] sched2 sched3
    = Some {| E := []; C := [0; 0; 0; 0] |} ∧
  (∀ old cur,
     len old < 2 ^ 32 → len cur < 2 ^ 32 →
     (∀ o c, o ∈ old → c ∈ cur → Equal o c ≠ Some true) →
     len old <= Z.max (len cur) gomaxprocs →
     ∃ r, Diff Seed maphash_Bytes seed gomaxprocs old cur sched2 sched3 = Some r ∧
          Count r Unchanged = Some 0 ∧ Count r Updated = Some 0 ∧
          Count r Removed = Some (len old) ∧ Count r Added = Some (len cur) ∧
          len (E r) = len old + len cur) ∧
  (∀ l,
     len l < 2 ^ 32 → NoDup l →
     (∀ a b, a ∈ l → b ∈ l →
        ex_hash Seed maphash_Bytes seed a = ex_hash Seed maphash_Bytes seed b → a = b) →
     ∃ r, Diff Seed maphash_Bytes seed gomaxprocs l l sched2 sched3 = Some r ∧
          Count r Unchanged = Some (len l) ∧ Count r Updated = Some 0 ∧
          Count r Removed = Some 0 ∧ Count r Added = Some 0 ∧
          len (E r) = len l).
Proof.
  split; [reflexivity|]. split.
  - intros old cur Ho Hc Hdist Hreach. unfold Diff.
    assert (Hw : 1 <= Z.max 1 gomaxprocs) by lia.
    destruct (diffP_all_distinct Seed maphash_Bytes seed sched2 sched3 old cur
                (Z.max 1 gomaxprocs) Hw Ho Hc Hdist) as (r & Hr & HC & HE).
    pose proof (chunks_reach (len cur) (Z.max 1 gomaxprocs) Hw (len_nonneg cur)) as Hch.
    assert (Hvis : visited old cur (Z.max 1 gomaxprocs) = len old) by (unfold visited; lia).
    rewrite Hvis in HC, HE.
    destruct (Count_of r _ _ _ _ HC) as (C0 & C1 & C2 & C3).
    exists r. auto 10.
  - intros l Hl Hnd Hinj. unfold Diff.
    assert (Hw : 1 <= Z.max 1 gomaxprocs) by lia.
    destruct (diffP_identical Seed maphash_Bytes seed sched2 sched3 l
                (Z.max 1 gomaxprocs) Hw Hl Hnd Hinj) as (r & Hr & HC & HE).
    destruct (Count_of r _ _ _ _ HC) as (C0 & C1 & C2 & C3).
    exists r. auto 10.
Qed.

Lemma Diff_degenerate_witness :
  (len distinct_old < 2 ^ 32 ∧ len distinct_cur < 2 ^ 32 ∧
   (∀ o c, o ∈ distinct_old → c ∈ distinct_cur → Equal o c ≠ Some true) ∧
   len distinct_old <= Z.max (len distinct_cur) 2 ∧
   ∃ r, Diff Z fnv1a 0 2 distinct_old distinct_cur [1%nat] [] = Some r ∧
        Count r Unchanged = Some 0 ∧ Count r Updated = Some 0 ∧
        Count r Removed = Some (len distinct_old) ∧
        Count r Added = Some (len distinct_cur) ∧
        len (E r) = len distinct_old + len distinct_cur) ∧
  (len same_names < 2 ^ 32 ∧ NoDup same_names ∧
   (∀ a b, a ∈ same_names → b ∈ same_names →
      ex_hash Z fnv1a 0 a = ex_hash Z fnv1a 0 b → a = b) ∧
   ∃ r, Diff Z fnv1a 0 2 same_names same_names [1%nat] [] = Some r ∧
        Count r Unchanged = Some (len same_names) ∧ Count r Updated = Some 0 ∧
        Count r Removed = Some 0 ∧ Count r Added = Some 0 ∧
        len (E r) = len same_names).
Proof.
  destruct (Diff_degenerate Z fnv1a 0 2 [1%nat] []) as (_ & Hb & Hc).
  assert (H1 : len distinct_old < 2 ^ 32) by reflexivity.
  assert (H2 : len distinct_cur < 2 ^ 32) by reflexivity.
  assert (H3 : ∀ o c, o ∈ distinct_old → c ∈ distinct_cur → Equal o c ≠ Some true).
  { apply pairwise_Forall. apply (bool_decide_unpack _). vm_compute. exact I. }
  assert (H4 : len distinct_old <= Z.max (len distinct_cur) 2) by (vm_compute; congruence).
  assert (H5 : len same_names < 2 ^ 32) by reflexivity.
  assert (H6 : NoDup same_names) by (apply (bool_decide_unpack _); vm_compute; exact I).
  assert (H7 : ∀ a b, a ∈ same_names → b ∈ same_names →
                 ex_hash Z fnv1a 0 a = ex_hash Z fnv1a 0 b → a = b).
  { apply (pairwise_Forall (λ a b, ex_hash Z fnv1a 0 a = ex_hash Z fnv1a 0 b → a = b)).
    apply (bool_decide_unpack _). vm_compute. exact I. }
  split.
  - split; [exact H1|]. split; [exact H2|]. split; [exact H3|]. split; [exact H4|].
    exact (Hb distinct_old distinct_cur H1 H2 H3 H4).
  - split; [exact H5|]. split; [exact H6|]. split; [exact H7|].
    exact (Hc same_names H5 H6 H7).
Defined.

(** C3, the counterexample: two identical lists in which a name is
    repeated.  Whatever the worker count, one occurrence is Unchanged and
    the other Updated. *)
Lemma identical_lists_with_a_repeat :
  C <$> Diff Z fnv1a 0 1 (names ["x"; "x"]) (names ["x"; "x"]) [] [] = Some [1; 1; 0; 0] ∧
  C <$> Diff Z fnv1a 0 8 (names ["x"; "x"]) (names ["x"; "x"]) [] [] = Some [1; 1; 0; 0] ∧
  len (names ["x"; "x"]) = 2.
Proof. vm_compute. auto. Qed.

Lemma Equal_laws_witness :
  Equal (bytes_of "libfoo.so.1.0.0") (bytes_of "libfoo.so.2.0.0") = Some true ∧
  ∃ ha hb, Hash Z fnv1a (bytes_of "libfoo.so.1.0.0") 0 = Some ha ∧
           Hash Z fnv1a (bytes_of "libfoo.so.2.0.0") 0 = Some hb ∧ ha.1 = hb.1.
Proof.
  assert (H : Equal (bytes_of "libfoo.so.1.0.0") (bytes_of "libfoo.so.2.0.0") = Some true)
    by (vm_compute; reflexivity).
  split; [exact H|].
  exact (proj2 (proj2 (Equal_laws Z fnv1a)) _ _ 0 H).
Defined.

(** * Further properties of the code *)

(** ** The claim bitset *)

(** X1: on a bit inside the bitset, [TryMark] returns true exactly when
    [IsMarked] was false; afterwards [IsMarked] is true on that bit, a
    second [TryMark] returns false and changes nothing, and no other bit
    has changed. *)
Theorem TryMark_claims_once v j :
  0 <= j → j / 64 < len v →
  ∃ b v',
    IsMarked v j = Some b ∧ TryMark v j = Some (negb b, v') ∧
    IsMarked v' j = Some true ∧ TryMark v' j = Some (false, v') ∧
    length v' = length v ∧
    ∀ j', 0 <= j' → j' / 64 < len v → j' ≠ j → IsMarked v' j' = IsMarked v j'.
Proof.
  intros Hj Hr.
  destruct (TryMark_spec v j Hj Hr) as (v' & Htm & Hlen & _ & Hbits).
  assert (Hr' : j / 64 < len v') by (unfold len in *; lia).
  assert (Hset : marked v' j = true) by (rewrite (Hbits j Hj), Z.eqb_refl; apply orb_true_r).
  exists (marked v j), v'. split; [apply IsMarked_spec; assumption|].
  split; [exact Htm|]. split.
  { rewrite IsMarked_spec, Hset by assumption. reflexivity. }
  split.
  { destruct (TryMark_spec v' j Hj Hr') as (v'' & Htm' & _ & Hsame & _).
    rewrite Htm', Hset, (Hsame Hset). reflexivity. }
  split; [exact Hlen|].
  intros j' Hj' Hr2 Hne.
  rewrite !IsMarked_spec by (unfold len in *; lia).
  rewrite (Hbits j' Hj').
  replace (j' =? j) with false by (symmetry; apply Z.eqb_neq; exact Hne).
  rewrite orb_false_r. reflexivity.
Qed.

Lemma TryMark_claims_once_witness :
  0 <= 70 ∧ 70 / 64 < len two_words ∧
  ∃ b v',
    IsMarked two_words 70 = Some b ∧ TryMark two_words 70 = Some (negb b, v') ∧
    IsMarked v' 70 = Some true ∧ TryMark v' 70 = Some (false, v') ∧
    length v' = length two_words ∧
    ∀ j', 0 <= j' → j' / 64 < len two_words → j' ≠ 70 →
          IsMarked v' j' = IsMarked two_words j'.
Proof.
  assert (H1 : 0 <= 70) by lia.
  assert (H2 : 70 / 64 < len two_words) by reflexivity.
  split; [exact H1|]. split; [exact H2|].
  exact (TryMark_claims_once two_words 70 H1 H2).
Defined.

(** ** Hash *)

Lemma bits_above x n m : 0 <= x < 2 ^ n → n <= m → Z.testbit x m = false.
Proof.
  intros Hx Hm. destruct (Z.eq_dec x 0) as [->|Hne]; [apply Z.bits_0|].
  apply Z.bits_above_log2; [lia|].
  assert (Z.log2 x < n) by (apply Z.log2_lt_pow2; lia). lia.
Qed.

Lemma below_pow2 x n :
  0 <= n → 0 <= x → (∀ m, n <= m → Z.testbit x m = false) → x < 2 ^ n.
Proof.
  intros Hn Hx Hbits. destruct (Z_lt_le_dec x (2 ^ n)) as [Hlt|Hge]; [exact Hlt|].
  assert (Hpos : 0 < x) by (pose proof (Z.pow_pos_nonneg 2 n ltac:(lia) Hn); lia).
  apply Z.log2_le_pow2 in Hge; [|exact Hpos].
  pose proof (Z.bit_log2 x Hpos) as Hb. rewrite (Hbits _ Hge) in Hb. discriminate.
Qed.

Lemma clear_flag_range x : 0 <= x < 2 ^ 64 → 0 <= clear_flag x < 2 ^ 63.
Proof.
  intros Hx. split.
  - unfold clear_flag. apply Z.ldiff_nonneg. left. lia.
  - apply below_pow2; [lia|unfold clear_flag; apply Z.ldiff_nonneg; left; lia|].
    intros m Hm. destruct (Z.eq_dec m 63) as [->|Hne]; [apply clear_flag_bit|].
    unfold clear_flag. rewrite Z.ldiff_spec, (bits_above x 64 m) by lia. reflexivity.
Qed.

Lemma lxor_range a b : 0 <= a < 2 ^ 64 → 0 <= b < 2 ^ 64 → 0 <= Z.lxor a b < 2 ^ 64.
Proof.
  intros Ha Hb. assert (H0 : 0 <= Z.lxor a b) by (apply Z.lxor_nonneg; lia).
  split; [exact H0|]. apply below_pow2; [lia|exact H0|].
  intros m Hm. rewrite Z.lxor_spec, (bits_above a 64 m), (bits_above b 64 m) by lia.
  reflexivity.
Qed.

Lemma land_flag_clear x : Z.land (clear_flag x) ExactFlag = 0.
Proof.
  unfold ExactFlag. rewrite Z.shiftl_1_l, pow2_land by lia.
  rewrite clear_flag_bit. reflexivity.
Qed.

(** X2: [Hash] never fails.  Its exact hash is the hash of the whole name
    with the flag bit cleared; both hashes lie in [0, 2^63), so the flag
    bit is clear in both, and an identity hash is never equal to a key
    that carries the flag. *)
Theorem Hash_clears_flag Seed (maphash_Bytes : Seed → bytes → Z) s seed :
  ∃ h x,
    Hash Seed maphash_Bytes s seed = Some (h, x) ∧
    x = Z.ldiff (maphash_Bytes seed s mod 2 ^ 64) ExactFlag ∧
    0 <= h < 2 ^ 63 ∧ 0 <= x < 2 ^ 63 ∧
    Z.land h ExactFlag = 0 ∧ Z.land x ExactFlag = 0 ∧
    ∀ y, h ≠ Z.lor y ExactFlag.
Proof.
  destruct (Spans_total s) as (j & sp & e & Hsp & _).
  destruct (Hash_Spans Seed maphash_Bytes s seed j sp e Hsp) as (p & q & _ & _ & Hh).
  assert (Hr : ∀ bs, 0 <= hash64 Seed maphash_Bytes seed bs < 2 ^ 64).
  { intros bs. unfold hash64. apply Z.mod_pos_bound. lia. }
  assert (Hid : ∃ y, 0 <= y < 2 ^ 64 ∧
            span_hash Seed maphash_Bytes seed p q (0 <? e - sp) = clear_flag y).
  { unfold span_hash. destruct (0 <? e - sp).
    - eexists. split; [|reflexivity]. apply lxor_range; apply Hr.
    - eexists. split; [|reflexivity]. apply Hr. }
  destruct Hid as (y & Hy & Hid). rewrite Hid in Hh.
  exists (clear_flag y), (clear_flag (hash64 Seed maphash_Bytes seed s)).
  split; [exact Hh|]. split; [reflexivity|].
  split; [apply clear_flag_range, Hy|]. split; [apply clear_flag_range, Hr|].
  split; [apply land_flag_clear|]. split; [apply land_flag_clear|].
  intros y'. apply clear_ne_flagged.
Qed.

(** ** HashAll *)

(** X3: with at least one worker [HashAll] returns two slices as long as
    its input, which hold at every index the two hashes that [Hash]
    computes for the name at that index. *)
Theorem HashAll_agrees_with_Hash Seed (maphash_Bytes : Seed → bytes → Z) files workers seed :
  1 <= workers →
  ∃ ids exs,
    HashAll Seed maphash_Bytes files workers seed = Some (ids, exs) ∧
    length ids = length files ∧ length exs = length files ∧
    ∀ i f, idx files i = Some f →
      ∃ h x, Hash Seed maphash_Bytes f seed = Some (h, x) ∧
             idx ids i = Some h ∧ idx exs i = Some x.
Proof.
  intros Hw. eexists _, _. split; [apply HashAll_hashes; exact Hw|].
  split; [apply length_fmap|]. split; [apply length_fmap|].
  intros i f Hf. apply idx_Some_inv in Hf as [Hi Hf].
  exists (id_hash Seed maphash_Bytes seed f), (ex_hash Seed maphash_Bytes seed f).
  split; [apply Hash_hashes|].
  rewrite !idx_lookup by (unfold len in *; rewrite length_fmap; exact Hi).
  rewrite !list_lookup_fmap, Hf. split; reflexivity.
Qed.

Lemma HashAll_agrees_with_Hash_witness :
  1 <= 2 ∧
  ∃ ids exs,
    HashAll Z fnv1a three_libs 2 0 = Some (ids, exs) ∧
    length ids = length three_libs ∧ length exs = length three_libs ∧
    ∀ i f, idx three_libs i = Some f →
      ∃ h x, Hash Z fnv1a f 0 = Some (h, x) ∧ idx ids i = Some h ∧ idx exs i = Some x.
Proof.
  assert (H1 : 1 <= 2) by lia. split; [exact H1|].
  exact (HashAll_agrees_with_Hash Z fnv1a three_libs 2 0 H1).
Defined.

(** X4: the edge cases of [HashAll].  On the empty list it returns two
    empty slices whatever the worker count.  On a list that is not empty
    it fails with 0 workers (the chunk size divides by zero), and with a
    negative worker count it starts no goroutine and returns slices of
    zeros, which are not the hashes. *)
Theorem HashAll_without_workers Seed (maphash_Bytes : Seed → bytes → Z) seed :
  (∀ workers, HashAll Seed maphash_Bytes [] workers seed = Some ([], [])) ∧
  (∀ files, files ≠ [] → HashAll Seed maphash_Bytes files 0 seed = None) ∧
  (∀ files workers, files ≠ [] → workers < 0 →
     HashAll Seed maphash_Bytes files workers seed
     = Some (replicate (length files) 0, replicate (length files) 0)).
Proof.
  split; [reflexivity|]. split; [apply HashAll_zero_workers|].
  intros files workers Hne Hw. unfold HashAll. pose proof (len_nonneg files) as Hlen.
  destruct (len files =? 0) eqn:E0.
  { apply Z.eqb_eq in E0. destruct files; [contradiction|]. unfold len in E0. simpl in E0. lia. }
  rewrite !make_is_Some by lia. cbn [mbind option_bind].
  unfold go_div. replace (workers =? 0) with false by (symmetry; apply Z.eqb_neq; lia).
  cbn [mbind option_bind]. replace (Z.to_nat workers) with O by lia.
  unfold go_par, len. rewrite Nat2Z.id. reflexivity.
Qed.

Lemma HashAll_without_workers_witness :
  three_libs ≠ [] ∧ -3 < 0 ∧
  HashAll Z fnv1a three_libs 0 0 = None ∧
  HashAll Z fnv1a three_libs (-3) 0
  = Some (replicate (length three_libs) 0, replicate (length three_libs) 0).
Proof.
  assert (H1 : three_libs ≠ []) by (intros H; discriminate H).
  assert (H2 : -3 < 0) by lia.
  destruct (HashAll_without_workers Z fnv1a 0) as (_ & Hz & Hn).
  split; [exact H1|]. split; [exact H2|].
  split; [exact (Hz three_libs H1)|exact (Hn three_libs (-3) H1 H2)].
Defined.

(** ** Spans and Equal *)

(** X5: [Spans] never fails.  The first span [[0, j)] lies inside the
    name; the second span is either absent ([s = e = 0]) or lies after
    the first one, is not empty and runs to the end of the name. *)
Theorem Spans_shape bs :
  ∃ j s e,
    Spans bs = Some (j, s, e) ∧ 0 <= j <= len bs ∧
    ((s = 0 ∧ e = 0) ∨ (0 < j ∧ j < s ∧ s < e ∧ e = len bs)).
Proof.
  destruct (Spans_total bs) as (j & s & e & H & Hj & Hse & _). eauto 10.
Qed.

(** X6: [Equal] is transitive; with reflexivity and symmetry it is an
    equivalence on names. *)
Theorem Equal_trans a b c :
  Equal a b = Some true → Equal b c = Some true → Equal a c = Some true.
Proof.
  intros Hab Hbc. apply Equal_true_iff in Hab, Hbc. apply Equal_true_iff.
  destruct Hab as (aj & as_ & ae & bj & bs & be & p & q & Ha & Hb & Ej & Ese & P1 & P2 & Q1 & Q2).
  destruct Hbc as (bj' & bs' & be' & cj & cs & ce & p' & q' & Hb' & Hc & Ej' & Ese' & P1' & P2' & Q1' & Q2').
  rewrite Hb in Hb'. injection Hb' as <- <- <-.
  rewrite P2 in P1'. injection P1' as <-. rewrite Q2 in Q1'. injection Q1' as <-.
  exists aj, as_, ae, cj, cs, ce, p, q.
  split; [exact Ha|]. split; [exact Hc|]. split; [congruence|]. split; [congruence|].
  auto.
Qed.

Lemma Equal_trans_witness :
  Equal (bytes_of "lib.so.1") (bytes_of "lib.so.2.5") = Some true ∧
  Equal (bytes_of "lib.so.2.5") (bytes_of "lib.so.30") = Some true ∧
  Equal (bytes_of "lib.so.1") (bytes_of "lib.so.30") = Some true.
Proof.
  assert (H1 : Equal (bytes_of "lib.so.1") (bytes_of "lib.so.2.5") = Some true)
    by (vm_compute; reflexivity).
  assert (H2 : Equal (bytes_of "lib.so.2.5") (bytes_of "lib.so.30") = Some true)
    by (vm_compute; reflexivity).
  split; [exact H1|]. split; [exact H2|].
  exact (Equal_trans _ _ _ H1 H2).
Defined.

(** ** The entries of a result *)

Lemma visited_le old cur workers : visited old cur workers <= len old.
Proof. unfold visited. lia. Qed.

Lemma elem_of_concat_lookup {A} (x : A) (ls : list (list A)) :
  x ∈ concat ls → ∃ w l, ls !! w = Some l ∧ x ∈ l.
Proof.
  induction ls as [|l ls IH]; intros H; [apply elem_of_nil in H; contradiction|].
  cbn [concat] in H. apply elem_of_app in H as [H|H].
  - exists O, l. auto.
  - destruct (IH H) as (w & l' & Hw & Hl). exists (S w), l'. auto.
Qed.

(** X7: the indices of every entry are valid for its status.  An
    Unchanged or Updated entry holds an index into [old] and an index
    into [cur]; a Removed entry holds an index into [old] and the null
    sentinel instead of a current index; an Added entry holds the null
    sentinel instead of an old index and an index into [cur].  An index
    into a list is never the null sentinel. *)
Theorem entries_indices_valid Seed (maphash_Bytes : Seed → bytes → Z) seed
    old cur workers sched2 sched3 :
  1 <= workers → len old < 2 ^ 32 → len cur < 2 ^ 32 →
  ∃ r,
    diffP Seed maphash_Bytes seed old cur workers sched2 sched3 = Some r ∧
    ∀ e, e ∈ E r →
      (EStatus e = ord Unchanged ∨ EStatus e = ord Updated →
         0 <= Old e < len old ∧ 0 <= New e < len cur ∧ Old e ≠ null ∧ New e ≠ null) ∧
      (EStatus e = ord Removed → 0 <= Old e < len old ∧ Old e ≠ null ∧ New e = null) ∧
      (EStatus e = ord Added → Old e = null ∧ 0 <= New e < len cur ∧ New e ≠ null).
Proof.
  intros Hw Ho Hc.
  destruct (diffP_plain Seed maphash_Bytes seed old cur workers sched2 sched3 Hw Ho Hc)
    as (r & rs & adds & v & Hr & HE & HC & Hlr & Hla & Hrs & Hadds & Hold & Hcat).
  pose proof (visited_le old cur workers) as Hvis.
  assert (Hnull : null = 2 ^ 32 - 1) by reflexivity.
  exists r. split; [exact Hr|]. intros e He.
  rewrite HE in He. apply elem_of_app in He as [He|He].
  - assert (HO : 0 <= Old e < len old).
    { assert (Hin : Old e ∈ Old <$> concat rs) by (apply list_elem_of_fmap; eauto).
      rewrite Hold in Hin. apply elem_of_zrange in Hin. lia. }
    destruct (elem_of_concat_lookup e rs He) as (w & es & Hes & Hin).
    destruct (Hrs w es Hes) as [_ Hok]. rewrite Forall_forall in Hok.
    specialize (Hok e Hin). split; [|split].
    + intros Hst. destruct Hok as [[_ (o & _ & Hn)]|[[_ (o & c & _ & Hn & _)]|[H _]]].
      * apply idx_Some_inv in Hn as [Hn _]. lia.
      * apply idx_Some_inv in Hn as [Hn _]. lia.
      * rewrite H in Hst. destruct Hst; discriminate.
    + intros Hst. destruct Hok as [[H _]|[[H _]|[_ Hn]]];
        [rewrite H in Hst; discriminate|rewrite H in Hst; discriminate|].
      split; [exact HO|]. split; [lia|exact Hn].
    + intros Hst. apply entry_ok_status in Hok as [H|[H|H]]; rewrite H in Hst; discriminate.
  - rewrite Hcat in He. apply list_elem_of_fmap in He as (i & -> & Hi).
    apply list_elem_of_filter in Hi as [_ Hi]. apply elem_of_zrange in Hi.
    split; [|split].
    + intros [H|H]; discriminate H.
    + intros H. discriminate H.
    + intros _. simpl. split; [reflexivity|]. split; [lia|lia].
Qed.

Lemma entries_indices_valid_witness :
  1 <= 4 ∧ len basic_old < 2 ^ 32 ∧ len basic_cur < 2 ^ 32 ∧
  ∃ r,
    diffP Z fnv1a 0 basic_old basic_cur 4 [0%nat] [1%nat] = Some r ∧
    ∀ e, e ∈ E r →
      (EStatus e = ord Unchanged ∨ EStatus e = ord Updated →
         0 <= Old e < len basic_old ∧ 0 <= New e < len basic_cur ∧
         Old e ≠ null ∧ New e ≠ null) ∧
      (EStatus e = ord Removed → 0 <= Old e < len basic_old ∧ Old e ≠ null ∧ New e = null) ∧
      (EStatus e = ord Added → Old e = null ∧ 0 <= New e < len basic_cur ∧ New e ≠ null).
Proof.
  destruct basic_sizes as (H1 & H2 & H3).
  split; [exact H1|]. split; [exact H2|]. split; [exact H3|].
  exact (entries_indices_valid Z fnv1a 0 basic_old basic_cur 4 [0%nat] [1%nat] H1 H2 H3).
Defined.

(** X8: an Unchanged entry pairs an old name and a current name that are
    the same string. *)
Theorem unchanged_entries_same_string Seed (maphash_Bytes : Seed → bytes → Z) seed
    old cur workers sched2 sched3 :
  1 <= workers → len old < 2 ^ 32 → len cur < 2 ^ 32 →
  ∃ r,
    diffP Seed maphash_Bytes seed old cur workers sched2 sched3 = Some r ∧
    ∀ e, e ∈ E r → Z.land (EStatus e) 255 = ord Unchanged →
      ∃ o, idx old (Old e) = Some o ∧ idx cur (New e) = Some o.
Proof.
  intros Hw Ho Hc.
  destruct (diffP_counts Seed maphash_Bytes seed old cur workers sched2 sched3 Hw Ho Hc)
    as (r & R & A & u & p & d & Hr & HE & HC & Hok & (l & HA) & _).
  exists r. split; [exact Hr|]. intros e He Hst.
  rewrite HE in He. apply elem_of_app in He as [He|He].
  - rewrite Forall_forall in Hok.
    destruct (Hok e He) as [[_ H]|[[H _]|[H _]]];
      [exact H|rewrite H in Hst; discriminate|rewrite H in Hst; discriminate].
  - rewrite HA in He. apply list_elem_of_fmap in He as (i & -> & _). discriminate.
Qed.

Lemma unchanged_entries_same_string_witness :
  1 <= 4 ∧ len basic_old < 2 ^ 32 ∧ len basic_cur < 2 ^ 32 ∧
  ∃ r,
    diffP Z fnv1a 0 basic_old basic_cur 4 [] [2%nat; 2%nat] = Some r ∧
    ∀ e, e ∈ E r → Z.land (EStatus e) 255 = ord Unchanged →
      ∃ o, idx basic_old (Old e) = Some o ∧ idx basic_cur (New e) = Some o.
Proof.
  destruct basic_sizes as (H1 & H2 & H3).
  split; [exact H1|]. split; [exact H2|]. split; [exact H3|].
  exact (unchanged_entries_same_string Z fnv1a 0 basic_old basic_cur 4 [] [2%nat; 2%nat]
           H1 H2 H3).
Defined.

(** X9: when [old] is not longer than [cur] or than the worker count,
    every index of [old] is reported exactly once: the entries that are
    not Added come first, and their old indices are 0, 1, ..., |old|-1 in
    this order; the entries after them are Added and hold no old index. *)
Theorem old_indices_once Seed (maphash_Bytes : Seed → bytes → Z) seed
    old cur workers sched2 sched3 :
  1 <= workers → len old < 2 ^ 32 → len cur < 2 ^ 32 →
  len old <= Z.max (len cur) workers →
  ∃ r R A,
    diffP Seed maphash_Bytes seed old cur workers sched2 sched3 = Some r ∧
    E r = R ++ A ∧ Old <$> R = zrange 0 (len old) ∧
    Forall (λ e, EStatus e ≠ ord Added) R ∧
    Forall (λ e, EStatus e = ord Added ∧ Old e = null) A.
Proof.
  intros Hw Ho Hc Hreach.
  destruct (diffP_plain Seed maphash_Bytes seed old cur workers sched2 sched3 Hw Ho Hc)
    as (r & rs & adds & v & Hr & HE & HC & Hlr & Hla & Hrs & Hadds & Hold & Hcat).
  pose proof (chunks_reach (len cur) workers Hw (len_nonneg cur)) as Hch.
  assert (Hvis : visited old cur workers = len old) by (unfold visited; lia).
  rewrite Hvis in Hold.
  exists r, (concat rs), (concat adds). split; [exact Hr|]. split; [exact HE|].
  split; [exact Hold|]. split.
  - apply Forall_concat_lookup. intros w es Hes. destruct (Hrs w es Hes) as [_ Hok].
    eapply Forall_impl; [exact Hok|]. intros e He.
    apply entry_ok_status in He as [H|[H|H]]; rewrite H; discriminate.
  - rewrite Hcat. apply Forall_fmap, Forall_forall. intros i _. split; reflexivity.
Qed.

Lemma old_indices_once_witness :
  1 <= 4 ∧ len basic_old < 2 ^ 32 ∧ len basic_cur < 2 ^ 32 ∧
  len basic_old <= Z.max (len basic_cur) 4 ∧
  ∃ r R A,
    diffP Z fnv1a 0 basic_old basic_cur 4 [3%nat] [0%nat; 3%nat] = Some r ∧
    E r = R ++ A ∧ Old <$> R = zrange 0 (len basic_old) ∧
    Forall (λ e, EStatus e ≠ ord Added) R ∧
    Forall (λ e, EStatus e = ord Added ∧ Old e = null) A.
Proof.
  destruct basic_sizes as (H1 & H2 & H3).
  assert (H4 : len basic_old <= Z.max (len basic_cur) 4) by (vm_compute; congruence).
  split; [exact H1|]. split; [exact H2|]. split; [exact H3|]. split; [exact H4|].
  exact (old_indices_once Z fnv1a 0 basic_old basic_cur 4 [3%nat] [0%nat; 3%nat]
           H1 H2 H3 H4).
Defined.

(** X10: with no old name, the result is one Added entry for every index
    of [cur], in ascending index, and nothing else. *)
Theorem diffP_no_old_names Seed (maphash_Bytes : Seed → bytes → Z) seed
    cur workers sched2 sched3 :
  1 <= workers → len cur < 2 ^ 32 →
  diffP Seed maphash_Bytes seed [] cur workers sched2 sched3
  = Some {| E := added_entry <$> zrange 0 (len cur); C := [0; 0; 0; len cur] |}.
Proof.
  intros Hw Hc.
  set (zeros := replicate (Z.to_nat (Z.shiftr (len cur + 63) 6)) 0).
  destruct (diffP_shape Seed maphash_Bytes seed [] cur workers sched2 sched3 Hw
              ltac:(reflexivity) Hc (λ _ v, v = zeros) (λ _, True))
    as (r & rs & adds & v & Hr & HE & HC & _ & _ & _ & _ & Hold & Hcat & HJ).
  { intros shards _ _ done i v e s v' _ _ Hi. change (len []) with 0 in Hi. lia. }
  { reflexivity. }
  subst v. rewrite unclaimed_none in Hcat by (intros j _; apply marked_zero).
  assert (Hrs : concat rs = []).
  { unfold visited in Hold. change (len []) with 0 in Hold.
    rewrite zrange_nil in Hold by (pose proof (chunk_of_pos (len cur) workers); lia).
    apply fmap_nil_inv in Hold. exact Hold. }
  rewrite Hrs in HE, HC. rewrite Hcat in HE, HC.
  rewrite Hr. f_equal. destruct r as [Er Cr]. simpl in HE, HC. subst Er Cr.
  f_equal. simpl. unfold len at 1. rewrite length_fmap, length_zrange.
  rewrite !tally_nil. do 3 f_equal. f_equal. pose proof (len_nonneg cur). lia.
Qed.

Lemma diffP_no_old_names_witness :
  1 <= 2 ∧ len basic_cur < 2 ^ 32 ∧
  diffP Z fnv1a 0 [] basic_cur 2 [1%nat] []
  = Some {| E := added_entry <$> zrange 0 (len basic_cur); C := [0; 0; 0; len basic_cur] |}.
Proof.
  assert (H1 : 1 <= 2) by lia.
  assert (H2 : len basic_cur < 2 ^ 32) by reflexivity.
  split; [exact H1|]. split; [exact H2|].
  exact (diffP_no_old_names Z fnv1a 0 basic_cur 2 [1%nat] [] H1 H2).
Defined.

(** ** One worker *)

Lemma interleave_single sched (t : task) : interleave sched [t] = drain 0 [t].
Proof.
  revert t. induction sched as [|w sched IH]; intros [next high]; [reflexivity|].
  cbn [interleave]. destruct w as [|w]; cbn [lookup list_lookup]; [|apply IH].
  destruct (next <? high) eqn:E; [|apply IH].
  apply Z.ltb_lt in E. cbn [insert list_insert]. rewrite IH. cbn [drain].
  rewrite (zrange_cons next high) by exact E. reflexivity.
Qed.

Lemma go_par_single {S} sched (ts : list task) (body : nat → Z → S → option S) s :
  (length ts ≤ 1)%nat → go_par sched ts body s = go_par [] ts body s.
Proof.
  intros Hl. unfold go_par. destruct ts as [|t [|t' ts]]; [| |simpl in Hl; lia].
  - rewrite !interleave_nil. reflexivity.
  - rewrite interleave_single. reflexivity.
Qed.

(** X11: with one worker the result does not depend on the schedule:
    every run of [diffP] on the same lists gives the same result. *)
Theorem diffP_one_worker_deterministic Seed (maphash_Bytes : Seed → bytes → Z) seed
    old cur sched2 sched3 :
  diffP Seed maphash_Bytes seed old cur 1 sched2 sched3
  = diffP Seed maphash_Bytes seed old cur 1 [] [].
Proof.
  unfold diffP. destruct (Z.lor (len old) (len cur) =? 0); [reflexivity|].
  destruct (HashAll Seed maphash_Bytes old 1 seed) as [[oh oe]|]; [|reflexivity].
  cbn [mbind option_bind].
  destruct (HashAll Seed maphash_Bytes cur 1 seed) as [[ch ce]|]; [|reflexivity].
  cbn [mbind option_bind].
  destruct (make numShards (∅ : gmap Z Z)) as [sh|]; [|reflexivity].
  cbn [mbind option_bind].
  destruct (go_div (len cur + 1 - 1) 1) as [q|]; [|reflexivity].
  cbn [mbind option_bind].
  rewrite (go_par_single sched2) by apply length_spawn.
  destruct (go_par [] (spawn (Z.to_nat 1) 0 (Z.max 1 q) (len cur)) (populate ch ce) sh)
    as [shards|]; [|reflexivity].
  cbn [mbind option_bind].
  destruct (make (Z.shiftr (len cur + 63) 6) 0) as [matches|]; [|reflexivity].
  cbn [mbind option_bind].
  destruct (make 1 ([] : list Entry)) as [results|]; [|reflexivity].
  cbn [mbind option_bind].
  destruct (make 1 [0; 0; 0]) as [counts|]; [|reflexivity].
  cbn [mbind option_bind].
  rewrite (go_par_single sched3) by apply length_spawn. reflexivity.
Qed.

(** ** Every current file is reported once *)

Lemma emit_inv w e s v results counts st :
  emit w e s v results counts = Some st →
  ∃ es c, results !! w = Some es ∧ st = (v, <[w := es ++ [e]]> results, c).
Proof.
  unfold emit. destruct (results !! w) as [es|]; [|discriminate].
  destruct (counts !! w) as [status|]; [|discriminate]. cbn [mbind option_bind].
  destruct (idx status (ord s)) as [c|]; [|discriminate]. cbn [mbind option_bind].
  destruct (assign status (ord s) (u32 (c + 1))) as [status'|]; [|discriminate].
  cbn [mbind option_bind]. intros [= <-]. eauto.
Qed.

Lemma concat_insert_snoc {A} (ls : list (list A)) w l x :
  ls !! w = Some l → concat (<[w := l ++ [x]]> ls) ≡ₚ x :: concat ls.
Proof.
  revert w. induction ls as [|l0 ls IH]; intros w Hw; [discriminate|].
  destruct w as [|w]; cbn [insert list_insert concat].
  - injection Hw as ->. rewrite <- app_assoc. cbn [app].
    symmetry. apply Permutation_middle.
  - rewrite (IH w Hw). symmetry. apply Permutation_middle.
Qed.

Lemma cur_indices_cons e es :
  cur_indices (e :: es)
  = if decide (EStatus e ≠ ord Removed) then New e :: cur_indices es else cur_indices es.
Proof.
  unfold cur_indices. rewrite filter_cons.
  destruct (decide (EStatus e ≠ ord Removed)); reflexivity.
Qed.

Lemma cur_indices_perm es es' : es ≡ₚ es' → cur_indices es ≡ₚ cur_indices es'.
Proof. intros H. unfold cur_indices. rewrite H. reflexivity. Qed.

Lemma cur_indices_app es1 es2 : cur_indices (es1 ++ es2) = cur_indices es1 ++ cur_indices es2.
Proof. unfold cur_indices. rewrite filter_app, fmap_app. reflexivity. Qed.

Section CurSide.

Variable Seed : Type.
Variable maphash_Bytes : Seed → bytes → Z.
Variable seed : Seed.
Variables old cur : list bytes.
Variable shards : list (gmap Z Z).

Hypothesis old_bound : len old <= 2 ^ 32.
Hypothesis shards_ok : table_ok Seed maphash_Bytes seed cur shards.

(** Through phase 3 the bits that are set in the bitset are the current
    indices of the entries appended so far, and no such index occurs
    twice. *)
Lemma reconcile_fold_claimed tr :
  ∀ v rs cs v' rs' cs',
    len v = Z.shiftr (len cur + 63) 6 →
    (∀ p, p ∈ tr → 0 <= p.2 < len old) →
    NoDup (cur_indices (concat rs)) →
    (∀ j, 0 <= j → marked v j = true ↔ j ∈ cur_indices (concat rs)) →
    foldM (λ s wi, reconcile old cur (id_hash Seed maphash_Bytes seed <$> old)
                     (ex_hash Seed maphash_Bytes seed <$> old) shards wi.1 wi.2 s)
      (v, rs, cs) tr = Some (v', rs', cs') →
    NoDup (cur_indices (concat rs')) ∧
    (∀ j, 0 <= j → marked v' j = true ↔ j ∈ cur_indices (concat rs')).
Proof.
  induction tr as [|[w i] tr IH]; intros v rs cs v' rs' cs' Hv Hr Hnd Hbits Hfold.
  - injection Hfold as <- <- <-. auto.
  - cbn [foldM fst snd] in Hfold.
    assert (Hi : 0 <= i < len old) by (apply (Hr (w, i)); left).
    destruct (classify_ok Seed maphash_Bytes seed old cur shards old_bound shards_ok i v Hi Hv)
      as (o & tbl & e & s & v1 & Ho & Htbl & Hcl & Hl1 & Hold & Hst & Hok & Hcase).
    rewrite (reconcile_step Seed maphash_Bytes seed old cur shards w i v rs cs e s v1 Hcl)
      in Hfold.
    destruct (emit w e s v1 rs cs) as [st1|] eqn:Hem; [|discriminate].
    cbn [mbind option_bind] in Hfold.
    destruct (emit_inv _ _ _ _ _ _ _ Hem) as (es & c & Hes & ->).
    assert (Hperm : cur_indices (concat (<[w := es ++ [e]]> rs))
                    ≡ₚ cur_indices (e :: concat rs)).
    { apply cur_indices_perm, concat_insert_snoc. exact Hes. }
    rewrite cur_indices_cons in Hperm.
    apply (IH v1 (<[w := es ++ [e]]> rs) c v' rs' cs'); [unfold len in *; lia| | | |exact Hfold].
    + intros p Hp. apply Hr. right. exact Hp.
    + rewrite Hperm. destruct (decide (EStatus e ≠ ord Removed)) as [Hm|Hm]; [|exact Hnd].
      apply NoDup_cons. split; [|exact Hnd].
      assert (Hfree : marked v (New e) = false).
      { destruct Hcase as [(_ & _ & H & _)|[_ [(_ & H & _)|[-> _]]]]; [exact H|exact H|].
        rewrite Hst in Hm. contradiction. }
      assert (Hn0 : 0 <= New e).
      { destruct Hok as [[_ (o' & _ & H)]|[[_ (o' & c' & _ & H & _)]|[H _]]];
          [apply idx_Some_inv in H; lia|apply idx_Some_inv in H; lia|contradiction]. }
      intros Hin. apply (Hbits _ Hn0) in Hin. congruence.
    + intros j Hj. rewrite Hperm.
      destruct Hcase as [(-> & _ & _ & Hb)|[_ [(-> & _ & Hb)|[-> ->]]]].
      * rewrite decide_True by (rewrite Hst; discriminate).
        rewrite (Hb j Hj), orb_true_iff, (Hbits j Hj), Z.eqb_eq, elem_of_cons. tauto.
      * rewrite decide_True by (rewrite Hst; discriminate).
        rewrite (Hb j Hj), orb_true_iff, (Hbits j Hj), Z.eqb_eq, elem_of_cons. tauto.
      * rewrite decide_False by (rewrite Hst; intros H; apply H; reflexivity).
        apply Hbits. exact Hj.
Qed.

End CurSide.

(** The run of [diffP] with the final state of phase 3 in view. *)
Lemma diffP_trace Seed (maphash_Bytes : Seed → bytes → Z) seed old cur workers sched2 sched3 :
  1 <= workers → len old < 2 ^ 32 → len cur < 2 ^ 32 → 0 < len old + len cur →
  ∃ r shards v rs cs adds,
    diffP Seed maphash_Bytes seed old cur workers sched2 sched3 = Some r ∧
    table_ok Seed maphash_Bytes seed cur shards ∧
    foldM (λ s wi, reconcile old cur (id_hash Seed maphash_Bytes seed <$> old)
                     (ex_hash Seed maphash_Bytes seed <$> old) shards wi.1 wi.2 s)
      (replicate (Z.to_nat (Z.shiftr (len cur + 63) 6)) 0,
       replicate (Z.to_nat workers) [], replicate (Z.to_nat workers) [0; 0; 0])
      (interleave sched3 (tasks3 old cur workers)) = Some (v, rs, cs) ∧
    E r = concat rs ++ concat adds ∧
    C r = [tally 0 (concat rs); tally 1 (concat rs); tally 2 (concat rs);
           len (concat adds)] ∧
    Forall (entry_ok old cur) (concat rs) ∧
    concat adds = added_entry <$> unclaimed v (zrange 0 (len cur)).
Proof.
  intros workers_pos old_bound cur_bound not_both_empty.
  pose proof (len_nonneg old) as Hold0. pose proof (len_nonneg cur) as Hcur0.
  unfold diffP. rewrite lor_lengths_nonzero by lia.
  rewrite !HashAll_hashes by exact workers_pos. cbn [mbind option_bind].
  rewrite (make_is_Some numShards) by (vm_compute; discriminate).
  cbn [mbind option_bind].
  destruct (chunk_size (len cur) workers workers_pos Hcur0) as (q & Hq & Hq1 & Hq2 & Hq3).
  rewrite Hq. cbn [mbind option_bind]. fold (chunk_of (len cur) workers) in Hq3.
  rewrite Hq3 in *. clear Hq3.
  fold (tasks3 old cur workers). fold (tasks4 cur workers).
  set (chunk := chunk_of (len cur) workers) in *.
  unfold go_par.
  destruct (populate_fold Seed maphash_Bytes seed cur (interleave sched2 (tasks4 cur workers))
              ltac:(lia) (replicate 256 ∅) (table_ok_empty Seed maphash_Bytes seed cur))
    as (shards & Hpop & Htab & _ & _).
  { intros [w i] Hp. apply interleave_spawn_inv in Hp; [|exact Hq1]. simpl. lia. }
  change (Z.to_nat numShards) with 256%nat. rewrite Hpop. cbn [mbind option_bind].
  assert (Hwords : 0 <= Z.shiftr (len cur + 63) 6) by (apply Z.shiftr_nonneg; lia).
  rewrite (make_is_Some (Z.shiftr (len cur + 63) 6)) by exact Hwords.
  rewrite !(make_is_Some workers) by lia. cbn [mbind option_bind].
  destruct (reconcile_fold Seed maphash_Bytes seed old cur shards ltac:(lia) Htab
              (λ _ _, True) (λ _, True)
              ltac:(intros; split; exact I)
              (interleave sched3 (tasks3 old cur workers)) []
              (replicate (Z.to_nat (Z.shiftr (len cur + 63) 6)) 0)
              (replicate (Z.to_nat workers) []) (replicate (Z.to_nat workers) [0; 0; 0]))
    as (v & rs & cs & Hrec & Hv & Hlrs & Hlcs & Hwk & _ & Hnew).
  { unfold len in *. rewrite length_replicate. lia. }
  { rewrite !length_replicate. reflexivity. }
  { intros w es c H1 H2. apply lookup_replicate in H1 as [-> _].
    apply lookup_replicate in H2 as [-> _]. reflexivity. }
  { intros [w i] Hp. apply interleave_spawn_inv in Hp; [|exact Hq1].
    rewrite length_replicate. simpl. lia. }
  { rewrite app_nil_r. apply interleave_spawn_NoDup. exact Hq1. }
  { exact I. }
  rewrite Hrec. cbn [mbind option_bind].
  rewrite length_replicate in Hlrs, Hlcs.
  assert (Hrs : ∀ w es, rs !! w = Some es →
            Old <$> es = task_range (tasks3 old cur workers !! w) ∧
            Forall (entry_ok old cur) es).
  { intros w es Hes. pose proof (lookup_lt_Some _ _ _ Hes) as Hw.
    destruct (Hnew w []) as (new & Hrs' & Hon & Hall).
    { apply lookup_replicate. split; [reflexivity|lia]. }
    rewrite Hrs' in Hes. injection Hes as <-. simpl.
    rewrite Hon, run_of_interleave. split; [reflexivity|].
    eapply Forall_impl; [exact Hall|]. intros e [_ He]. exact He. }
  destruct (detect_fold cur v (interleave [] (tasks4 cur workers)) ltac:(lia) Hv
              (replicate (Z.to_nat workers) []))
    as (adds & Hdet & Hladds & Hadds).
  { intros [w i] Hp. apply interleave_spawn_inv in Hp; [|exact Hq1].
    rewrite length_replicate. simpl. lia. }
  rewrite Hdet. cbn [mbind option_bind]. rewrite length_replicate in Hladds.
  assert (Hadds' : ∀ w es, adds !! w = Some es →
            es = added_entry <$> unclaimed v (task_range (tasks4 cur workers !! w))).
  { intros w es Hes. pose proof (lookup_lt_Some _ _ _ Hes) as Hw.
    rewrite (Hadds w []) in Hes.
    - injection Hes as <-. cbn [app].
      rewrite <- (run_of_interleave w [] (tasks4 cur workers)). reflexivity.
    - apply lookup_replicate. split; [reflexivity|lia]. }
  assert (Hm : merge_results {| E := []; C := [0; 0; 0; 0] |} rs cs 0
               = Some {| E := concat rs;
                         C := [u32 (tally 0 (concat rs)); u32 (tally 1 (concat rs));
                               u32 (tally 2 (concat rs)); u32 0] |}).
  { apply (merge_results_ok rs cs [] 0 0 0 0 0).
    intros j es Hes. pose proof (lookup_lt_Some _ _ _ Hes) as Hj.
    destruct (lookup_lt_is_Some_2 cs j) as [c Hc]; [lia|].
    exists c. split; [exact Hc|]. eapply Hwk; eauto. }
  rewrite Hm. cbn [mbind option_bind].
  rewrite merge_additions_ok. rewrite Z.add_0_l.
  assert (Hok : Forall (entry_ok old cur) (concat rs)).
  { apply Forall_concat_lookup. intros w es Hes. apply (Hrs w es Hes). }
  assert (Hconcat : Old <$> concat rs = zrange 0 (visited old cur workers)).
  { replace (zrange 0 (visited old cur workers))
      with (concat (map (λ t : task, zrange t.1 t.2) (tasks3 old cur workers))).
    - change (list_fmap Entry Z Old (concat rs)) with (map Old (concat rs)).
      rewrite concat_map.
      apply (concat_workers (λ l, l) (map (map Old) rs)); [reflexivity|reflexivity| |].
      + rewrite length_map, Hlrs. apply length_spawn.
      + intros w l Hl. change (map (map Old) rs) with (fmap (map Old) rs) in Hl.
        rewrite list_lookup_fmap in Hl. destruct (rs !! w) as [es|] eqn:Ees; [|discriminate].
        injection Hl as <-. apply (Hrs w es Ees).
    - unfold tasks3, visited. fold chunk. rewrite spawn_ranges by lia. f_equal.
      rewrite Z2Nat.id by lia. lia. }
  assert (Hca : concat adds = added_entry <$> unclaimed v (zrange 0 (len cur))).
  { replace (zrange 0 (len cur))
      with (concat (map (λ t : task, zrange t.1 t.2) (tasks4 cur workers))).
    - apply (concat_workers (λ l, added_entry <$> unclaimed v l) adds).
      + reflexivity.
      + intros a b. unfold unclaimed. rewrite filter_app, fmap_app. reflexivity.
      + rewrite Hladds. apply length_spawn.
      + exact Hadds'.
    - unfold tasks4. fold chunk. rewrite spawn_ranges by lia. f_equal.
      rewrite Z2Nat.id by lia. lia. }
  assert (Hlen_rs : len (concat rs) <= len old).
  { assert (Hl : length (Old <$> concat rs) = length (zrange 0 (visited old cur workers)))
      by (rewrite Hconcat; reflexivity).
    rewrite length_fmap, length_zrange in Hl. unfold visited in Hl. unfold len in *. lia. }
  assert (Hlen_adds : len (concat adds) <= len cur).
  { rewrite Hca. unfold len at 1. rewrite length_fmap. unfold unclaimed.
    pose proof (length_filter (λ i, marked v i = false) (zrange 0 (len cur))) as Hf.
    rewrite length_zrange in Hf. unfold len in *. lia. }
  exists {| E := concat rs ++ concat adds;
            C := [u32 (tally 0 (concat rs)); u32 (tally 1 (concat rs));
                  u32 (tally 2 (concat rs)); u32 (len (concat adds))] |},
         shards, v, rs, cs, adds.
  split; [reflexivity|]. split; [exact Htab|]. split; [exact Hrec|].
  split; [reflexivity|]. split.
  { cbn [C].
    pose proof (tally_range 0 (concat rs)). pose proof (tally_range 1 (concat rs)).
    pose proof (tally_range 2 (concat rs)). pose proof (len_nonneg (concat adds)).
    rewrite !u32_small by lia. reflexivity. }
  split; [exact Hok|exact Hca].
Qed.

Lemma concat_replicate_nil {A} n : concat (replicate n ([] : list A)) = [].
Proof. induction n as [|n IH]; [reflexivity|exact IH]. Qed.

Lemma tally_matched old cur es :
  Forall (entry_ok old cur) es →
  tally 0 es + tally 1 es = len (cur_indices es) ∧
  Forall (λ j, 0 <= j < len cur) (cur_indices es).
Proof.
  induction es as [|e es IH]; intros Hall; [split; [reflexivity|constructor]|].
  apply Forall_cons in Hall as [He Hes]. destruct (IH Hes) as [IH1 IH2].
  change (e :: es) with ([e] ++ es) at 1 2. rewrite !tally_app, !tally_one.
  rewrite cur_indices_cons.
  assert (Hlen : ∀ (j : Z) l, len (j :: l) = 1 + len l)
    by (intros j l; unfold len; simpl length; lia).
  destruct He as [[H (o & _ & Hn)]|[[H (o & c & _ & Hn & _)]|[H _]]]; rewrite H.
  - rewrite (decide_True (P := ord Unchanged ≠ ord Removed)) by discriminate.
    rewrite (decide_True (P := Z.land (ord Unchanged) 255 = 0)) by reflexivity.
    rewrite (decide_False (P := Z.land (ord Unchanged) 255 = 1)) by discriminate.
    rewrite Hlen. split; [lia|].
    constructor; [apply idx_Some_inv in Hn; tauto|exact IH2].
  - rewrite (decide_True (P := ord Updated ≠ ord Removed)) by discriminate.
    rewrite (decide_False (P := Z.land (ord Updated) 255 = 0)) by discriminate.
    rewrite (decide_True (P := Z.land (ord Updated) 255 = 1)) by reflexivity.
    rewrite Hlen. split; [lia|].
    constructor; [apply idx_Some_inv in Hn; tauto|exact IH2].
  - rewrite (decide_False (P := ord Removed ≠ ord Removed)) by (intros Hx; apply Hx; reflexivity).
    rewrite (decide_False (P := Z.land (ord Removed) 255 = 0)) by discriminate.
    rewrite (decide_False (P := Z.land (ord Removed) 255 = 1)) by discriminate.
    split; [lia|exact IH2].
Qed.

(** X12: every index of [cur] is reported exactly once.  The current
    indices of the entries that are not Removed are a rearrangement of
    0, 1, ..., |cur|-1, so no current file is matched to two old files or
    both matched and Added, and the counters satisfy
    Unchanged + Updated + Added = |cur|. *)
Theorem cur_indices_once Seed (maphash_Bytes : Seed → bytes → Z) seed
    old cur workers sched2 sched3 :
  1 <= workers → len old < 2 ^ 32 → len cur < 2 ^ 32 →
  ∃ r u p a,
    diffP Seed maphash_Bytes seed old cur workers sched2 sched3 = Some r ∧
    cur_indices (E r) ≡ₚ zrange 0 (len cur) ∧
    Count r Unchanged = Some u ∧ Count r Updated = Some p ∧ Count r Added = Some a ∧
    u + p + a = len cur.
Proof.
  intros Hw Ho Hc. pose proof (len_nonneg old) as Ho0. pose proof (len_nonneg cur) as Hc0.
  destruct (Z_lt_le_dec 0 (len old + len cur)) as [Hne|He].
  2:{ assert (old = []) as -> by (destruct old; [reflexivity|unfold len in *; simpl in *; lia]).
      assert (cur = []) as -> by (destruct cur; [reflexivity|unfold len in *; simpl in *; lia]).
      exists {| E := []; C := [0; 0; 0; 0] |}, 0, 0, 0.
      split; [reflexivity|]. split; [reflexivity|]. repeat split. }
  destruct (diffP_trace Seed maphash_Bytes seed old cur workers sched2 sched3 Hw Ho Hc Hne)
    as (r & shards & v & rs & cs & adds & Hr & Htab & Hfold & HE & HC & Hok & Hca).
  assert (Hwords : 0 <= Z.shiftr (len cur + 63) 6) by (apply Z.shiftr_nonneg; lia).
  assert (Hlen0 : len (replicate (Z.to_nat (Z.shiftr (len cur + 63) 6)) 0)
                  = Z.shiftr (len cur + 63) 6)
    by (unfold len at 1; rewrite length_replicate; lia).
  assert (Htr : ∀ p : nat * Z, p ∈ interleave sched3 (tasks3 old cur workers) →
                  0 <= p.2 < len old).
  { intros [w i] Hp. apply interleave_spawn_inv in Hp; [simpl; lia|apply chunk_of_pos]. }
  destruct (reconcile_fold_claimed Seed maphash_Bytes seed old cur shards ltac:(lia) Htab
              _ _ _ _ _ _ _ Hlen0 Htr
              ltac:(rewrite concat_replicate_nil; constructor)
              ltac:(intros j Hj; rewrite concat_replicate_nil, marked_zero;
                    split; [discriminate|intros H; apply elem_of_nil in H; contradiction])
              Hfold)
    as [Hnd Hbits].
  destruct (tally_matched old cur (concat rs) Hok) as [Htal Hrange].
  assert (Hadd : cur_indices (concat adds) = unclaimed v (zrange 0 (len cur))).
  { rewrite Hca. generalize (unclaimed v (zrange 0 (len cur))). intros l.
    induction l as [|i l IH]; [reflexivity|].
    rewrite fmap_cons, cur_indices_cons, IH. reflexivity. }
  assert (Hperm : cur_indices (E r) ≡ₚ zrange 0 (len cur)).
  { rewrite HE, cur_indices_app, Hadd. apply NoDup_Permutation.
    - apply NoDup_app. split; [exact Hnd|]. split.
      + intros j Hj Hj'. apply list_elem_of_filter in Hj' as [Hf Hz].
        apply elem_of_zrange in Hz. apply Hbits in Hj; [congruence|lia].
      + apply NoDup_filter, NoDup_zrange.
    - apply NoDup_zrange.
    - intros j. rewrite elem_of_app, elem_of_zrange. split.
      + intros [Hj|Hj].
        * rewrite Forall_forall in Hrange. apply Hrange, Hj.
        * apply list_elem_of_filter in Hj as [_ Hz]. apply elem_of_zrange in Hz. exact Hz.
      + intros Hj. destruct (marked v j) eqn:Em.
        * left. apply Hbits; [lia|exact Em].
        * right. apply list_elem_of_filter. split; [exact Em|].
          apply elem_of_zrange. exact Hj. }
  destruct (Count_of r _ _ _ _ HC) as (C0 & C1 & _ & C3).
  exists r, (tally 0 (concat rs)), (tally 1 (concat rs)), (len (concat adds)).
  split; [exact Hr|]. split; [exact Hperm|]. split; [exact C0|]. split; [exact C1|].
  split; [exact C3|].
  apply Permutation_length in Hperm.
  rewrite HE, cur_indices_app, length_app, length_zrange in Hperm.
  rewrite Htal. unfold len in *.
  assert (length (cur_indices (concat adds)) = length (concat adds)).
  { rewrite Hadd, Hca, length_fmap. reflexivity. }
  lia.
Qed.

Lemma cur_indices_once_witness :
  1 <= 4 ∧ len basic_old < 2 ^ 32 ∧ len basic_cur < 2 ^ 32 ∧
  ∃ r u p a,
    diffP Z fnv1a 0 basic_old basic_cur 4 [2%nat; 1%nat] [3%nat] = Some r ∧
    cur_indices (E r) ≡ₚ zrange 0 (len basic_cur) ∧
    Count r Unchanged = Some u ∧ Count r Updated = Some p ∧ Count r Added = Some a ∧
    u + p + a = len basic_cur.
Proof.
  destruct basic_sizes as (H1 & H2 & H3).
  split; [exact H1|]. split; [exact H2|]. split; [exact H3|].
  exact (cur_indices_once Z fnv1a 0 basic_old basic_cur 4 [2%nat; 1%nat] [3%nat] H1 H2 H3).
Defined.

(** ** What a match of [Suffix], [Script] and [Embedded] looks like *)

Lemma suffix_scan_sound bs n r :
  suffix_scan bs n = Some r → 0 < r →
  byte_is bs r "-" = Some true ∧ digit_at bs (r + 1) = Some true.
Proof.
  induction n as [|n IH]; intros Hr Hpos; cbn [suffix_scan] in Hr.
  - injection Hr as <-. lia.
  - destruct (idx bs (Z.of_nat n)) as [c|] eqn:Ec; [|discriminate].
    cbn [mbind option_bind] in Hr.
    destruct (Some (Ascii.eqb c "-") &&& Some (Z.of_nat n + 1 <? len bs)
                &&& digit_at bs (Z.of_nat n + 1)) as [[|]|] eqn:Et;
      cbn [ifM] in Hr; [| |discriminate].
    + injection Hr as <-.
      apply andM_true in Et as [Et Hd]. apply andM_true in Et as [Hc _].
      injection Hc as Hc. split; [|exact Hd].
      unfold byte_is. rewrite Ec. cbn [mbind option_bind]. rewrite Hc. reflexivity.
    + destruct (version_char c); [apply IH; assumption|].
      injection Hr as <-. lia.
Qed.

(** X13: a positive result of [Suffix] points at a hyphen that is
    followed by an ASCII digit: [bs[r] = '-'] and [bs[r+1]] in '0'..'9'. *)
Theorem Suffix_points_at_version (bs : bytes) :
  ∃ r, Suffix bs = Some r ∧
    (0 < r →
       bs !! Z.to_nat r = Some "-"%char ∧
       ∃ d, bs !! Z.to_nat (r + 1) = Some d ∧ 48 <= bv d <= 57).
Proof.
  destruct (Suffix_total bs) as (r & Hr & _). exists r. split; [exact Hr|].
  intros Hpos. unfold Suffix in Hr.
  match type of Hr with (mbind _ ?m = _) => destruct m as [i|]; [|discriminate] end.
  cbn [mbind option_bind] in Hr.
  destruct (suffix_scan_sound bs _ r Hr Hpos) as [H1 H2].
  split; [apply byte_is_true; [lia|exact H1]|apply digit_at_true; [lia|exact H2]].
Qed.

(** X14: a match of [Script] has the shape
    [name '-' digit ... ".Q1" ... suffix]: the name is at least 20 bytes
    long, [bs[e:]] is one of the six script suffixes, [k] is the last
    position at or below [e - 2] where [".Q1"] starts, and [s] is the last
    hyphen before [k] that is followed by a digit lying before [k]. *)
Theorem Script_match_shape (bs : bytes) :
  ∃ s e, Script bs = Some (s, e) ∧
    (0 < s →
       20 <= len bs ∧
       (∃ suffix, suffix ∈ suffixes ∧ e = len bs - len suffix ∧
                  slice bs e (len bs) = Some suffix) ∧
       bs !! Z.to_nat s = Some "-"%char ∧
       (∃ d, bs !! Z.to_nat (s + 1) = Some d ∧ 48 <= bv d <= 57) ∧
       ∃ k, s + 1 < k ∧ 4 <= k <= e - 2 ∧
            bs !! Z.to_nat k = Some "."%char ∧
            bs !! Z.to_nat (k + 1) = Some "Q"%char ∧
            bs !! Z.to_nat (k + 2) = Some "1"%char ∧
            (∀ j, k < j <= e - 2 → checksum_at bs j = Some false) ∧
            (∀ j, s < j < k → version_at bs k j = Some false)).
Proof.
  unfold Script. pose proof (len_nonneg bs) as Hlen.
  destruct (len bs <? 20) eqn:E20.
  { exists 0, 0. split; [reflexivity|]. lia. }
  apply Z.ltb_ge in E20.
  destruct (script_start_spec bs suffixes suffixes_nonempty) as (start & Hst & Hcase).
  rewrite Hst. simpl.
  destruct (start =? 0) eqn:E0.
  { exists 0, 0. split; [reflexivity|]. lia. }
  apply Z.eqb_neq in E0. destruct Hcase as [?|[Hstart Hsuf]]; [contradiction|].
  destruct (scan_down_spec (checksum_at bs) 4 (Z.to_nat (start - 2 - 4 + 1)))
    as [r [Hr Hspec]].
  { intros i Hi. apply checksum_at_is_Some. lia. }
  rewrite Hr. simpl.
  destruct r as [k|]; [|exists 0, 0; split; [reflexivity|lia]].
  destruct Hspec as (Hk & Hck & Hlast).
  destruct (k <? 0) eqn:Ecs.
  { exists 0, 0. split; [reflexivity|]. lia. }
  destruct (scan_down_spec (version_at bs k) 1 (Z.to_nat (k - 1 - 1 + 1)))
    as [r2 [Hr2 Hspec2]].
  { intros i Hi. apply version_at_is_Some; lia. }
  rewrite Hr2. simpl. destruct r2 as [i|]; [|exists 0, 0; split; [reflexivity|lia]].
  destruct Hspec2 as (Hi & Hv & Hlast2).
  exists i, start. split; [reflexivity|]. intros _.
  unfold version_at in Hv.
  apply andM_true in Hv as [Hv Hd]. apply andM_true in Hv as [Hh Hlt].
  injection Hlt as Hlt. apply Z.ltb_lt in Hlt.
  unfold checksum_at in Hck.
  apply andM_true in Hck as [Hck H1]. apply andM_true in Hck as [Hck HQ].
  apply andM_true in Hck as [Hdot _].
  split; [exact E20|]. split; [exact Hsuf|].
  split; [apply byte_is_true; [lia|exact Hh]|].
  split; [apply digit_at_true; [lia|exact Hd]|].
  exists k. split; [lia|]. split; [lia|].
  split; [apply byte_is_true; [lia|exact Hdot]|].
  split; [apply byte_is_true; [lia|exact HQ]|].
  split; [apply byte_is_true; [lia|exact H1]|].
  split.
  - intros j Hj. apply Hlast. lia.
  - intros j Hj. apply Hlast2. lia.
Qed.

Lemma version_run_sound bs n : ∀ dots i dots',
  version_run bs n dots = Some (i, dots') →
  -1 <= i < Z.of_nat n ∧
  (0 <= i → ∃ c, bs !! Z.to_nat i = Some c ∧ is_digit c || Ascii.eqb c "." = false) ∧
  Forall (λ c, is_digit c || Ascii.eqb c "." = true)
    (take (n - Z.to_nat (i + 1)) (drop (Z.to_nat (i + 1)) bs)) ∧
  dots' = dots + len (filter (λ c, c = "."%char)
                        (take (n - Z.to_nat (i + 1)) (drop (Z.to_nat (i + 1)) bs))).
Proof.
  induction n as [|n IH]; intros dots i dots' Hr; cbn [version_run] in Hr.
  - injection Hr as <- <-. split; [lia|]. split; [lia|].
    split; [constructor|]. cbn. unfold len. simpl. lia.
  - destruct (idx bs (Z.of_nat n)) as [c|] eqn:Ec; [|discriminate].
    cbn [mbind option_bind] in Hr.
    apply idx_Some_inv in Ec as [_ Ec]. rewrite Nat2Z.id in Ec.
    destruct (is_digit c || Ascii.eqb c ".") eqn:Ev.
    + destruct (IH _ _ _ Hr) as (Hi & Hstop & Hall & Hd).
      assert (Hm : (Z.to_nat (i + 1) ≤ n)%nat) by lia.
      assert (Htake : take (S n - Z.to_nat (i + 1)) (drop (Z.to_nat (i + 1)) bs)
                      = take (n - Z.to_nat (i + 1)) (drop (Z.to_nat (i + 1)) bs) ++ [c]).
      { replace (S n - Z.to_nat (i + 1))%nat with (S (n - Z.to_nat (i + 1))) by lia.
        apply take_S_r. rewrite lookup_drop.
        replace (Z.to_nat (i + 1) + (n - Z.to_nat (i + 1)))%nat with n by lia. exact Ec. }
      split; [lia|]. split; [exact Hstop|]. rewrite Htake. split.
      * apply Forall_app. split; [exact Hall|]. constructor; [exact Ev|constructor].
      * rewrite filter_app. unfold len in *. rewrite length_app, Hd.
        rewrite filter_cons, filter_nil.
        destruct (Ascii.eqb c ".") eqn:Edot.
        -- apply Ascii.eqb_eq in Edot. rewrite decide_True by exact Edot.
           simpl length. lia.
        -- apply Ascii.eqb_neq in Edot. rewrite decide_False by exact Edot.
           simpl length. lia.
    + injection Hr as <- <-. split; [lia|]. split.
      * intros _. exists c. rewrite Nat2Z.id. split; [exact Ec|exact Ev].
      * replace (S n - Z.to_nat (Z.of_nat n + 1))%nat with O by lia.
        rewrite take_0. split; [constructor|]. cbn. unfold len. simpl. lia.
Qed.

(** X15: a match of [Embedded] has the shape [name '.' version '.' ext]:
    [e] is the last dot of a name of at least 9 bytes, with [6 <= e] and a
    non-empty extension after it; the version [bs[s:e]] consists of digits
    and dots only, starts with a dot followed by a digit, and holds at
    least two dots; the byte before it is neither a digit nor a dot. *)
Theorem Embedded_match_shape (bs : bytes) :
  ∃ s e, Embedded bs = Some (s, e) ∧
    (0 < s →
       9 <= len bs ∧ 6 <= e < len bs - 1 ∧
       bs !! Z.to_nat e = Some "."%char ∧
       (∀ j, e < j < len bs → bs !! Z.to_nat j ≠ Some "."%char) ∧
       (∃ c, bs !! Z.to_nat (s - 1) = Some c ∧ ¬ 48 <= bv c <= 57 ∧ c ≠ "."%char) ∧
       ∃ v, slice bs s e = Some v ∧
            Forall (λ c, 48 <= bv c <= 57 ∨ c = "."%char) v ∧
            2 <= len (filter (λ c, c = "."%char) v) ∧
            v !! 0%nat = Some "."%char ∧
            ∃ d, v !! 1%nat = Some d ∧ 48 <= bv d <= 57).
Proof.
  unfold Embedded. pose proof (len_nonneg bs) as Hlen.
  destruct (len bs <? 9) eqn:E9.
  { exists 0, 0. split; [reflexivity|]. lia. }
  apply Z.ltb_ge in E9.
  destruct (scan_down_spec (λ i, byte_is bs i ".") 1 (Z.to_nat (len bs - 1 - 1 + 1)))
    as [r [Hr Hspec]].
  { intros i Hi. apply byte_is_is_Some. lia. }
  rewrite Hr. simpl.
  destruct r as [ext|]; [|exists 0, 0; split; [reflexivity|lia]].
  destruct Hspec as (Hext & Hdot & Hlast).
  destruct ((ext <? 6) || (ext =? len bs - 1)) eqn:Eext.
  { exists 0, 0. split; [reflexivity|]. lia. }
  apply orb_false_iff in Eext as [E6 El].
  apply Z.ltb_ge in E6. apply Z.eqb_neq in El.
  destruct (version_run_spec bs (Z.to_nat (ext - 1 + 1)) 0) as (i & dots & Hv & _);
    [lia|].
  rewrite Hv. simpl.
  destruct (version_run_sound bs _ _ _ _ Hv) as (Hi & Hstop & Hall & Hd).
  destruct (2 <=? dots) eqn:E2; simpl.
  2:{ exists 0, 0. split; [reflexivity|]. lia. }
  apply Z.leb_le in E2.
  destruct (0 <=? i) eqn:E0; simpl.
  2:{ exists 0, 0. split; [reflexivity|]. lia. }
  apply Z.leb_le in E0.
  destruct (byte_is_is_Some bs (i + 1) ".") as [b1 Hb1]; [lia|]. rewrite Hb1.
  destruct b1; simpl; [|exists 0, 0; split; [reflexivity|lia]].
  destruct (digit_at_is_Some bs (i + 2)) as [b2 Hb2]; [lia|]. rewrite Hb2.
  destruct b2; simpl; [|exists 0, 0; split; [reflexivity|lia]].
  exists (i + 1), ext. split; [reflexivity|]. intros _.
  split; [exact E9|]. split; [lia|].
  split; [apply byte_is_true; [lia|exact Hdot]|].
  split.
  { intros j Hj Hjdot. apply byte_is_true in Hjdot; [|lia].
    rewrite Hlast in Hjdot by lia. discriminate. }
  split.
  { destruct (Hstop E0) as (c & Hc & Hnv). exists c.
    replace (i + 1 - 1) with i by lia. split; [exact Hc|].
    apply orb_false_iff in Hnv as [Hnd Hne]. split.
    - intros Hdig. apply is_digit_spec in Hdig. congruence.
    - apply Ascii.eqb_neq. exact Hne. }
  set (v := take (Z.to_nat (ext - 1 + 1) - Z.to_nat (i + 1))
              (drop (Z.to_nat (i + 1)) bs)) in *.
  assert (Hslice : slice bs (i + 1) ext = Some v).
  { unfold slice.
    replace ((0 <=? i + 1) && (i + 1 <=? ext) && (ext <=? len bs)) with true
      by (symmetry; rewrite !andb_true_iff, !Z.leb_le; lia).
    subst v. do 2 f_equal. lia. }
  assert (Hlook : ∀ k : nat, (Z.of_nat k < ext - (i + 1)) →
            v !! k = bs !! Z.to_nat (i + 1 + Z.of_nat k)).
  { intros k Hk. subst v. rewrite lookup_take_lt by lia. rewrite lookup_drop.
    f_equal. lia. }
  apply byte_is_true in Hb1; [|lia]. apply digit_at_true in Hb2; [|lia].
  assert (Hlen2 : i + 2 < ext).
  { destruct (Z_lt_le_dec (i + 2) ext) as [?|Hge]; [assumption|exfalso].
    assert (Hshort : (length v ≤ 1)%nat) by (subst v; rewrite length_take; lia).
    pose proof (length_filter (λ c, c = "."%char) v) as Hf. unfold len in Hd. lia. }
  exists v. split; [exact Hslice|]. split.
  { eapply Forall_impl; [exact Hall|]. intros c Hc.
    apply orb_true_iff in Hc as [Hc|Hc]; [left; apply is_digit_spec; exact Hc|].
    right. apply Ascii.eqb_eq. exact Hc. }
  split; [lia|]. split.
  - rewrite (Hlook 0%nat) by lia. rewrite <- Hb1. f_equal. lia.
  - destruct Hb2 as (d & Hd1 & Hd2). exists d. split; [|exact Hd2].
    rewrite (Hlook 1%nat) by lia. rewrite <- Hd1. f_equal. lia.
Qed.

(** ** The iterators of [Result] *)

Lemma seen_prefix {X} (keep : X → bool) xs :
  ∃ k, (k ≤ length xs)%nat ∧ seen keep xs = take k xs ∧
    (∀ i x, (S i < k)%nat → xs !! i = Some x → keep x = true) ∧
    ((k < length xs)%nat →
       ∃ x, (0 < k)%nat ∧ xs !! (k - 1)%nat = Some x ∧ keep x = false).
Proof.
  induction xs as [|x xs (k & Hk & Hs & Hkeep & Hstop)].
  - exists O. split; [reflexivity|]. split; [reflexivity|]. split.
    + intros i x Hi. lia.
    + simpl. lia.
  - cbn [seen]. destruct (keep x) eqn:Ex.
    + exists (S k). split; [simpl; lia|]. split; [rewrite Hs; reflexivity|]. split.
      * intros [|i] y Hi Hy; [injection Hy as <-; exact Ex|].
        apply (Hkeep i y); [lia|exact Hy].
      * intros Hlt. destruct Hstop as (y & Hpos & Hy & Hf); [simpl in Hlt; lia|].
        exists y. split; [lia|]. split; [|exact Hf].
        replace (S k - 1)%nat with (S (k - 1)) by lia. exact Hy.
    + exists 1%nat. split; [simpl; lia|]. split; [destruct xs; reflexivity|]. split.
      * intros i y Hi. lia.
      * intros _. exists x. split; [lia|]. split; [reflexivity|exact Ex].
Qed.

Lemma range_All_seen keep es : ∀ log,
  range_All (λ st e, record_while keep (st, e)) es log
  = log ++ seen keep (map (λ e, (Z.land (EStatus e) 255, e)) es).
Proof.
  induction es as [|e es IH]; intros log; cbn [range_All map seen record_while].
  - rewrite app_nil_r. reflexivity.
  - destruct (keep (Z.land (EStatus e) 255, e)).
    + rewrite IH, <- app_assoc. reflexivity.
    + reflexivity.
Qed.

Lemma range_Filter_seen st keep es : ∀ log,
  range_Filter st (record_while keep) es log
  = log ++ seen keep (filter (λ e, Z.land (EStatus e) 255 = ord st) es).
Proof.
  induction es as [|e es IH]; intros log; cbn [range_Filter].
  - rewrite filter_nil. cbn [seen]. rewrite app_nil_r. reflexivity.
  - rewrite filter_cons. destruct (decide (Z.land (EStatus e) 255 = ord st)).
    + cbn [seen record_while]. destruct (keep e).
      * rewrite IH, <- app_assoc. reflexivity.
      * reflexivity.
    + apply IH.
Qed.

(** X16: what a consumer of [All] sees.  A callback that records the
    pairs it is given and asks to stop at the first pair that fails [keep]
    ends with a prefix of the pairs of [All]: every pair before the last
    one passes [keep], and when pairs are left over the last one seen is
    the one that fails.  A callback that never stops sees them all. *)
Theorem All_yields_prefix (r : Result) (keep : Z * Entry → bool) :
  ∃ k, (k ≤ length (All r))%nat ∧
    All_seq r (λ st e, record_while keep (st, e)) [] = take k (All r) ∧
    (∀ i p, (S i < k)%nat → All r !! i = Some p → keep p = true) ∧
    ((k < length (All r))%nat →
       ∃ p, (0 < k)%nat ∧ All r !! (k - 1)%nat = Some p ∧ keep p = false) ∧
    ((∀ p, p ∈ All r → keep p = true) → k = length (All r)).
Proof.
  destruct (seen_prefix keep (All r)) as (k & Hk & Hs & Hkeep & Hstop).
  exists k. split; [exact Hk|]. split.
  { unfold All_seq. rewrite range_All_seen. exact Hs. }
  split; [exact Hkeep|]. split; [exact Hstop|].
  intros Hall. destruct (decide (k < length (All r))%nat) as [Hlt|Hge]; [|lia].
  destruct (Hstop Hlt) as (p & _ & Hp & Hf).
  rewrite (Hall p) in Hf; [discriminate|]. eapply list_elem_of_lookup_2. exact Hp.
Qed.

(** X17: what a consumer of [Filter] sees: the same, for the entries of
    the given status in the order of [E]. *)
Theorem Filter_yields_prefix (r : Result) (st : Status) (keep : Entry → bool) :
  ∃ k, (k ≤ length (Filter r st))%nat ∧
    Filter_seq r st (record_while keep) [] = take k (Filter r st) ∧
    (∀ i e, (S i < k)%nat → Filter r st !! i = Some e → keep e = true) ∧
    ((k < length (Filter r st))%nat →
       ∃ e, (0 < k)%nat ∧ Filter r st !! (k - 1)%nat = Some e ∧ keep e = false) ∧
    ((∀ e, e ∈ Filter r st → keep e = true) → k = length (Filter r st)).
Proof.
  destruct (seen_prefix keep (Filter r st)) as (k & Hk & Hs & Hkeep & Hstop).
  exists k. split; [exact Hk|]. split.
  { unfold Filter_seq. rewrite range_Filter_seen. exact Hs. }
  split; [exact Hkeep|]. split; [exact Hstop|].
  intros Hall. destruct (decide (k < length (Filter r st))%nat) as [Hlt|Hge]; [|lia].
  destruct (Hstop Hlt) as (e & _ & He & Hf).
  rewrite (Hall e) in Hf; [discriminate|]. eapply list_elem_of_lookup_2. exact He.
Qed.

(** ** Which write of phase 2 a key keeps *)

Lemma foldM_snoc {S X} (f : S → X → option S) l x : ∀ s,
  foldM f s (l ++ [x]) = s' ← foldM f s l; f s' x.
Proof.
  induction l as [|y l IH]; intros s; cbn [foldM app mbind option_bind].
  - destruct (f s x); reflexivity.
  - destruct (f s y) as [s1|]; [apply IH|reflexivity].
Qed.

Lemma first_with_snoc P l i j : first_with P l j → first_with P (l ++ [i]) j.
Proof.
  intros (pre & post & -> & Hj & Hpre). exists pre, (post ++ [i]).
  split; [rewrite <- app_assoc; reflexivity|auto].
Qed.

Lemma first_with_new P l i : (∀ j, j ∈ l → ¬ P j) → P i → first_with P (l ++ [i]) i.
Proof. intros Hl Hi. exists l, []. auto. Qed.

Lemma last_with_new P l i : P i → last_with P (l ++ [i]) i.
Proof.
  intros Hi. exists l, []. split; [reflexivity|]. split; [exact Hi|].
  intros j Hj. apply elem_of_nil in Hj. contradiction.
Qed.

Lemma last_with_snoc P l i j : ¬ P i → last_with P l j → last_with P (l ++ [i]) j.
Proof.
  intros Hi (pre & post & -> & Hj & Hpost). exists pre, (post ++ [i]).
  split; [rewrite <- app_assoc; reflexivity|]. split; [exact Hj|].
  intros j' Hj'. apply elem_of_app in Hj' as [Hj'|Hj']; [auto|].
  apply list_elem_of_singleton in Hj'. subst j'. exact Hi.
Qed.

Lemma none_with_snoc (P : Z → Prop) l i :
  ¬ P i → (∀ j, j ∈ l → ¬ P j) → ∀ j, j ∈ l ++ [i] → ¬ P j.
Proof.
  intros Hi Hl j Hj. apply elem_of_app in Hj as [Hj|Hj]; [auto|].
  apply list_elem_of_singleton in Hj. subst j. exact Hi.
Qed.

Section WriterFacts.

Variable Seed : Type.
Variable maphash_Bytes : Seed → bytes → Z.
Variable seed : Seed.
Variable cur : list bytes.

Hypothesis cur_bound : len cur <= 2 ^ 32.

Abbreviation idh4 := (id_hash Seed maphash_Bytes seed).
Abbreviation exh4 := (ex_hash Seed maphash_Bytes seed).
Abbreviation shard_of4 := (shard_of Seed maphash_Bytes seed).
Abbreviation id_key4 := (id_key Seed maphash_Bytes seed).
Abbreviation ex_key4 := (ex_key Seed maphash_Bytes seed).
Abbreviation writes_id' := (writes_id Seed maphash_Bytes seed cur).
Abbreviation writes_ex' := (writes_ex Seed maphash_Bytes seed cur).

(** The value of one iteration of phase 2. *)
Lemma populate_step shards w i c m :
  length shards = 256%nat → idx cur i = Some c →
  shards !! Z.to_nat (shard_of4 c) = Some m →
  populate (idh4 <$> cur) (exh4 <$> cur) w i shards
  = Some (<[Z.to_nat (shard_of4 c) :=
              <[ex_key4 c := i]> (match m !! id_key4 c with
                                  | Some _ => m
                                  | None => <[id_key4 c := i]> m
                                  end)]> shards).
Proof.
  intros Hlen Hc Hm.
  pose proof (idx_Some_inv _ _ _ Hc) as [Hi Hlook].
  pose proof (shard_of_range Seed maphash_Bytes seed c) as Hsh.
  unfold populate.
  rewrite !idx_lookup by (unfold len in *; rewrite ?length_fmap; lia).
  rewrite !list_lookup_fmap, Hlook. cbn [fmap option_fmap option_map mbind option_bind].
  fold (shard_of4 c). rewrite idx_lookup by (unfold len; lia). rewrite Hm.
  cbn [mbind option_bind]. rewrite assign_is_Some by (unfold len; lia).
  assert (Hu : u32 i = i) by (unfold u32; apply Z.mod_small; lia).
  rewrite Hu. reflexivity.
Qed.

Lemma same_id_same_shard c c' : id_key4 c = id_key4 c' → shard_of4 c = shard_of4 c'.
Proof. unfold id_key, shard_of. intros ->. reflexivity. Qed.

(** Through phase 2 every identity key holds the first index written
    under it and every exact key the last one. *)
Lemma populate_fold_writers tr :
  (∀ p, p ∈ tr → 0 <= p.2 < len cur) →
  ∃ shards,
    foldM (λ s wi, populate (idh4 <$> cur) (exh4 <$> cur) wi.1 wi.2 s)
      (replicate 256 ∅) tr = Some shards ∧
    length shards = 256%nat ∧
    ∀ c, ∃ m, shards !! Z.to_nat (shard_of4 c) = Some m ∧
      match m !! id_key4 c with
      | Some v => first_with (writes_id' c) tr.*2 v
      | None => ∀ j, j ∈ tr.*2 → ¬ writes_id' c j
      end ∧
      match m !! ex_key4 c with
      | Some v => last_with (writes_ex' c) tr.*2 v
      | None => ∀ j, j ∈ tr.*2 → ¬ writes_ex' c j
      end.
Proof.
  induction tr as [|[w i] tr IH] using rev_ind; intros Hr.
  - exists (replicate 256 ∅). split; [reflexivity|]. split; [apply length_replicate|].
    intros c. pose proof (shard_of_range Seed maphash_Bytes seed c) as Hsh.
    exists ∅. split; [apply lookup_replicate; split; [reflexivity|lia]|].
    rewrite !lookup_empty. split; intros j Hj; apply elem_of_nil in Hj; contradiction.
  - destruct IH as (shards & Hfold & Hlen & Hinv).
    { intros p Hp. apply Hr. apply elem_of_app. left. exact Hp. }
    rewrite foldM_snoc, Hfold. cbn [mbind option_bind fst snd].
    destruct (idx_is_Some cur i) as [ci Hci].
    { apply (Hr (w, i)). apply elem_of_app. right. apply list_elem_of_singleton. reflexivity. }
    pose proof (shard_of_range Seed maphash_Bytes seed ci) as Hshi.
    destruct (Hinv ci) as (mi & Hmi & Hidi & Hexi).
    rewrite (populate_step shards w i ci mi Hlen Hci Hmi).
    eexists. split; [reflexivity|]. split; [rewrite length_insert; exact Hlen|].
    intros c. pose proof (shard_of_range Seed maphash_Bytes seed c) as Hsh.
    rewrite fmap_app. cbn [fmap list_fmap snd].
    destruct (Hinv c) as (m & Hm & Hid & Hex).
    destruct (decide (shard_of4 c = shard_of4 ci)) as [Heq|Hne].
    + rewrite Heq in *. rewrite Hmi in Hm. injection Hm as <-.
      eexists. split; [apply list_lookup_insert_eq; lia|]. split.
      * rewrite lookup_insert_ne by (intros Hk; symmetry in Hk;
          exact (id_key_ne_ex_key Seed maphash_Bytes seed c ci Hk)).
        destruct (decide (id_key4 c = id_key4 ci)) as [Hk|Hk].
        -- rewrite Hk in *. destruct (mi !! id_key4 ci) as [v|] eqn:Ev.
           ++ rewrite Ev. apply first_with_snoc. exact Hid.
           ++ rewrite lookup_insert_eq. apply first_with_new; [exact Hid|].
              exists ci. split; [exact Hci|symmetry; exact Hk].
        -- assert (Hsame : (match mi !! id_key4 ci with
                            | Some _ => mi
                            | None => <[id_key4 ci := i]> mi
                            end) !! id_key4 c = mi !! id_key4 c).
           { destruct (mi !! id_key4 ci); [reflexivity|].
             apply lookup_insert_ne. congruence. }
           rewrite Hsame.
           assert (Hni : ¬ writes_id' c i).
           { intros (cj & Hcj & Hkj). rewrite Hci in Hcj. injection Hcj as <-. congruence. }
           destruct (mi !! id_key4 c) as [v|].
           ++ apply first_with_snoc. exact Hid.
           ++ apply none_with_snoc; assumption.
      * destruct (decide (ex_key4 c = ex_key4 ci)) as [Hk|Hk].
        -- rewrite Hk, lookup_insert_eq. apply last_with_new.
           exists ci. split; [exact Hci|]. split; [symmetry; exact Heq|symmetry; exact Hk].
        -- rewrite lookup_insert_ne by congruence.
           assert (Hsame : (match mi !! id_key4 ci with
                            | Some _ => mi
                            | None => <[id_key4 ci := i]> mi
                            end) !! ex_key4 c = mi !! ex_key4 c).
           { destruct (mi !! id_key4 ci); [reflexivity|].
             apply lookup_insert_ne.
             exact (id_key_ne_ex_key Seed maphash_Bytes seed ci c). }
           rewrite Hsame.
           assert (Hni : ¬ writes_ex' c i).
           { intros (cj & Hcj & _ & Hkj). rewrite Hci in Hcj. injection Hcj as <-.
             congruence. }
           destruct (mi !! ex_key4 c) as [v|].
           ++ apply last_with_snoc; assumption.
           ++ apply none_with_snoc; assumption.
    + exists m. split; [rewrite list_lookup_insert_ne by lia; exact Hm|].
      assert (Hn1 : ¬ writes_id' c i).
      { intros (cj & Hcj & Hkj). rewrite Hci in Hcj. injection Hcj as <-.
        apply Hne. symmetry. apply same_id_same_shard. exact Hkj. }
      assert (Hn2 : ¬ writes_ex' c i).
      { intros (cj & Hcj & Hsj & _). rewrite Hci in Hcj. injection Hcj as <-.
        congruence. }
      split.
      * destruct (m !! id_key4 c) as [v|].
        -- apply first_with_snoc. exact Hid.
        -- apply none_with_snoc; assumption.
      * destruct (m !! ex_key4 c) as [v|].
        -- apply last_with_snoc; assumption.
        -- apply none_with_snoc; assumption.
Qed.

End WriterFacts.

(** X18: which index the table of phase 2 keeps under a key.  Whatever
    the schedule of the goroutines, when they have all finished the
    identity key of a name holds the index that was written under it
    first and the exact key the index that was written last, in the order
    in which the writes happened; a key that nobody wrote is absent. *)
Theorem phase2_first_and_last_writer Seed (maphash_Bytes : Seed → bytes → Z) seed
    cur workers sched :
  1 <= workers → len cur < 2 ^ 32 →
  ∃ shards,
    go_par sched (tasks4 cur workers)
      (populate (id_hash Seed maphash_Bytes seed <$> cur)
                (ex_hash Seed maphash_Bytes seed <$> cur))
      (replicate (Z.to_nat numShards) ∅) = Some shards ∧
    ∀ c, ∃ m,
      idx shards (shard_of Seed maphash_Bytes seed c) = Some m ∧
      match m !! id_key Seed maphash_Bytes seed c with
      | Some v => first_with (writes_id Seed maphash_Bytes seed cur c)
                    (interleave sched (tasks4 cur workers)).*2 v
      | None => ∀ j, j ∈ (interleave sched (tasks4 cur workers)).*2 →
                     ¬ writes_id Seed maphash_Bytes seed cur c j
      end ∧
      match m !! ex_key Seed maphash_Bytes seed c with
      | Some v => last_with (writes_ex Seed maphash_Bytes seed cur c)
                    (interleave sched (tasks4 cur workers)).*2 v
      | None => ∀ j, j ∈ (interleave sched (tasks4 cur workers)).*2 →
                     ¬ writes_ex Seed maphash_Bytes seed cur c j
      end.
Proof.
  intros Hw Hc.
  destruct (populate_fold_writers Seed maphash_Bytes seed cur ltac:(lia)
              (interleave sched (tasks4 cur workers))) as (shards & Hfold & Hlen & Hinv).
  { intros [w i] Hp. apply interleave_spawn_inv in Hp; [simpl; lia|apply chunk_of_pos]. }
  exists shards. split; [exact Hfold|].
  intros c. destruct (Hinv c) as (m & Hm & Hrest). exists m. split; [|exact Hrest].
  pose proof (shard_of_range Seed maphash_Bytes seed c) as Hsh.
  rewrite idx_lookup by (unfold len; lia). exact Hm.
Qed.

Lemma phase2_first_and_last_writer_witness :
  ∃ shards,
    go_par [2%nat; 1%nat] (tasks4 basic_cur 4)
      (populate (id_hash Z fnv1a 0 <$> basic_cur) (ex_hash Z fnv1a 0 <$> basic_cur))
      (replicate (Z.to_nat numShards) ∅) = Some shards ∧
    ∀ c, ∃ m,
      idx shards (shard_of Z fnv1a 0 c) = Some m ∧
      match m !! id_key Z fnv1a 0 c with
      | Some v => first_with (writes_id Z fnv1a 0 basic_cur c)
                    (interleave [2%nat; 1%nat] (tasks4 basic_cur 4)).*2 v
      | None => ∀ j, j ∈ (interleave [2%nat; 1%nat] (tasks4 basic_cur 4)).*2 →
                     ¬ writes_id Z fnv1a 0 basic_cur c j
      end ∧
      match m !! ex_key Z fnv1a 0 c with
      | Some v => last_with (writes_ex Z fnv1a 0 basic_cur c)
                    (interleave [2%nat; 1%nat] (tasks4 basic_cur 4)).*2 v
      | None => ∀ j, j ∈ (interleave [2%nat; 1%nat] (tasks4 basic_cur 4)).*2 →
                     ¬ writes_ex Z fnv1a 0 basic_cur c j
      end.
Proof.
  apply (phase2_first_and_last_writer Z fnv1a 0 basic_cur 4 [2%nat; 1%nat]).
  - lia.
  - vm_compute. reflexivity.
Defined.

(** ** splitNonEmpty *)

Example splitNonEmpty_ex :
  splitNonEmpty (bytes_of "a-1.0" ++ [newline; newline] ++ bytes_of "b-2.0" ++ [newline])
  = Some (names ["a-1.0"; "b-2.0"]).
Proof. vm_compute. reflexivity. Qed.

Lemma slice_value {A} (l : list A) lo hi :
  0 <= lo <= hi → hi <= len l →
  slice l lo hi = Some (take (Z.to_nat (hi - lo)) (drop (Z.to_nat lo) l)).
Proof.
  intros H1 H2. unfold slice.
  replace ((0 <=? lo) && (lo <=? hi) && (hi <=? len l)) with true; [reflexivity|].
  symmetry. rewrite !andb_true_iff, !Z.leb_le. lia.
Qed.

Lemma split_loop_spec s n : ∀ i start result,
  Z.of_nat n + i = len s → 0 <= start <= i →
  Forall (λ p : bytes, p ≠ [] ∧ newline ∉ p) result →
  newline ∉ take (Z.to_nat (i - start)) (drop (Z.to_nat start) s) →
  concat result ++ take (Z.to_nat (i - start)) (drop (Z.to_nat start) s)
    = filter (λ c, c ≠ newline) (take (Z.to_nat i) s) →
  ∃ start' result',
    split_loop s n i start result = Some (start', result') ∧
    0 <= start' <= len s ∧
    Forall (λ p : bytes, p ≠ [] ∧ newline ∉ p) result' ∧
    (newline ∉ take (Z.to_nat (len s - start')) (drop (Z.to_nat start') s)) ∧
    concat result' ++ take (Z.to_nat (len s - start')) (drop (Z.to_nat start') s)
      = filter (λ c, c ≠ newline) s.
Proof.
  induction n as [|n IH]; intros i start result Hn Hst Hres Hseg Hcat.
  - exists start, result. cbn [split_loop]. split; [reflexivity|].
    assert (i = len s) as -> by lia. split; [lia|]. split; [exact Hres|].
    split; [exact Hseg|]. rewrite Hcat. f_equal. apply take_ge. unfold len. lia.
  - cbn [split_loop].
    destruct (idx_is_Some s i) as [c Hc]; [lia|]. rewrite Hc.
    cbn [mbind option_bind].
    apply idx_Some_inv in Hc as [Hi Hc].
    assert (Htake : take (Z.to_nat (i + 1)) s = take (Z.to_nat i) s ++ [c]).
    { replace (Z.to_nat (i + 1)) with (S (Z.to_nat i)) by lia. apply take_S_r. exact Hc. }
    destruct (Ascii.eqb c newline) eqn:Enl.
    + apply Ascii.eqb_eq in Enl. subst c.
      assert (Hfil : filter (λ c, c ≠ newline) (take (Z.to_nat (i + 1)) s)
                     = filter (λ c, c ≠ newline) (take (Z.to_nat i) s)).
      { rewrite Htake, filter_app, filter_cons, filter_nil.
        rewrite decide_False by (intros Hx; apply Hx; reflexivity).
        apply app_nil_r. }
      destruct (start <? i) eqn:Elt.
      * apply Z.ltb_lt in Elt. rewrite slice_value by lia. cbn [mbind option_bind].
        apply IH.
        -- lia.
        -- lia.
        -- apply Forall_app. split; [exact Hres|]. constructor; [|constructor].
           split; [|exact Hseg].
           intros Hnil. apply (f_equal length) in Hnil.
           rewrite length_take, length_drop in Hnil. unfold len in *. simpl in Hnil. lia.
        -- replace (i + 1 - (i + 1)) with 0 by lia. rewrite take_0. apply not_elem_of_nil.
        -- replace (i + 1 - (i + 1)) with 0 by lia. rewrite take_0, app_nil_r.
           rewrite Hfil, <- Hcat, concat_app. cbn [concat]. rewrite app_nil_r. reflexivity.
      * apply Z.ltb_ge in Elt. assert (start = i) as -> by lia.
        cbn [mbind option_bind]. apply IH.
        -- lia.
        -- lia.
        -- exact Hres.
        -- replace (i + 1 - (i + 1)) with 0 by lia. rewrite take_0. apply not_elem_of_nil.
        -- replace (i + 1 - (i + 1)) with 0 by lia. rewrite take_0.
           rewrite Hfil, <- Hcat. replace (i - i) with 0 by lia. rewrite take_0. reflexivity.
    + apply Ascii.eqb_neq in Enl.
      assert (Hseg' : take (Z.to_nat (i + 1 - start)) (drop (Z.to_nat start) s)
                      = take (Z.to_nat (i - start)) (drop (Z.to_nat start) s) ++ [c]).
      { replace (Z.to_nat (i + 1 - start)) with (S (Z.to_nat (i - start))) by lia.
        apply take_S_r. rewrite lookup_drop.
        replace (Z.to_nat start + Z.to_nat (i - start))%nat with (Z.to_nat i) by lia.
        exact Hc. }
      apply IH.
      * lia.
      * lia.
      * exact Hres.
      * rewrite Hseg'. intros Hin. apply elem_of_app in Hin as [Hin|Hin]; [auto|].
        apply list_elem_of_singleton in Hin. congruence.
      * rewrite Hseg', app_assoc, Hcat, Htake, filter_app, filter_cons, filter_nil.
        rewrite decide_True by exact Enl. reflexivity.
Qed.

(** X19: [splitNonEmpty] never fails; none of the parts it returns is
    empty or contains a newline, and joined together the parts are the
    input with its newlines removed. *)
Theorem splitNonEmpty_parts (s : bytes) :
  ∃ parts, splitNonEmpty s = Some parts ∧
    Forall (λ p : bytes, p ≠ [] ∧ newline ∉ p) parts ∧
    concat parts = filter (λ c, c ≠ newline) s.
Proof.
  unfold splitNonEmpty. case_bool_decide as Hs.
  { subst s. exists []. split; [reflexivity|]. split; [constructor|reflexivity]. }
  destruct (split_loop_spec s (length s) 0 0 [])
    as (start & result & Hloop & Hst & Hres & Hseg & Hcat).
  - unfold len. lia.
  - lia.
  - constructor.
  - rewrite take_0. apply not_elem_of_nil.
  - reflexivity.
  - rewrite Hloop. cbn [mbind option_bind].
    destruct (start <? len s) eqn:Elt.
    + apply Z.ltb_lt in Elt. rewrite slice_value by lia. cbn [mbind option_bind].
      eexists. split; [reflexivity|]. split.
      * apply Forall_app. split; [exact Hres|]. constructor; [|constructor].
        split; [|exact Hseg].
        intros Hnil. apply (f_equal length) in Hnil.
        rewrite length_take, length_drop in Hnil. unfold len in *. simpl in Hnil. lia.
      * rewrite concat_app. cbn [concat]. rewrite app_nil_r. exact Hcat.
    + apply Z.ltb_ge in Elt. exists result. split; [reflexivity|]. split; [exact Hres|].
      rewrite <- Hcat. assert (start = len s) as -> by lia.
      replace (len s - len s) with 0 by lia. rewrite take_0, app_nil_r. reflexivity.
Qed.
